(** * chatgpt-proxy: the HTML-rewriting proxy function, embedded in Rocq

    The development follows [netlify/functions/proxy.js].  JavaScript strings
    are sequences of UTF-16 code units; the functions of the file are
    translated one by one, and the platform functions they call
    ([encodeURIComponent], [new URL], regular expressions, base64, ...) are
    modelled after their standards.  What stays outside is a parameter:
    the Unicode tables in the class [UnicodeTables], and the environment,
    the network, [JSON.parse] and the HTML parser and serializer of cheerio
    in the class [Runtime]. *)

From Stdlib Require Import Ascii String NArith ZArith Bool Arith Lia List.
Import ListNotations.

Local Open Scope N_scope.
Local Open Scope list_scope.
Set Warnings "-register-all".

(* ================================================================= *)
(** ** JavaScript strings *)

(** A JavaScript string: its UTF-16 code units. *)
Definition jsstring := list N.

Definition ch (a : ascii) : N := N_of_ascii a.

(** An ASCII literal read as a JavaScript string. *)
Definition js (s : string) : jsstring := map ch (list_ascii_of_string s).

Fixpoint str_eqb (a b : jsstring) : bool :=
  match a, b with
  | [], [] => true
  | x :: a', y :: b' => (x =? y) && str_eqb a' b'
  | _, _ => false
  end.

(** [s.startsWith(p)] *)
Fixpoint startsWith (p s : jsstring) : bool :=
  match p, s with
  | [], _ => true
  | x :: p', y :: s' => (x =? y) && startsWith p' s'
  | _ :: _, [] => false
  end.

Definition isAsciiUnit (c : N) : bool := c <? 128.
Definition isUpperAlpha (c : N) : bool := (65 <=? c) && (c <=? 90).
Definition isLowerAlpha (c : N) : bool := (97 <=? c) && (c <=? 122).
Definition isAlpha (c : N) : bool := isUpperAlpha c || isLowerAlpha c.
Definition isDigit (c : N) : bool := (48 <=? c) && (c <=? 57).
Definition isAlnum (c : N) : bool := isAlpha c || isDigit c.
Definition isHexDigit (c : N) : bool :=
  isDigit c || ((65 <=? c) && (c <=? 70)) || ((97 <=? c) && (c <=? 102)).

Definition asciiLowerUnit (c : N) : N := if isUpperAlpha c then c + 32 else c.
Definition asciiUpperUnit (c : N) : N := if isLowerAlpha c then c - 32 else c.
Definition asciiLower (s : jsstring) : jsstring := map asciiLowerUnit s.

(** WhiteSpace and LineTerminator of ECMAScript: what [trim] removes and
    what [\s] matches. *)
Definition isWhiteSpace (c : N) : bool :=
  ((9 <=? c) && (c <=? 13)) || (c =? 32) || (c =? 160) || (c =? 5760)
  || ((8192 <=? c) && (c <=? 8202)) || (c =? 8232) || (c =? 8233)
  || (c =? 8239) || (c =? 8287) || (c =? 12288) || (c =? 65279).

Fixpoint dropWhile {A} (p : A -> bool) (l : list A) : list A :=
  match l with
  | [] => []
  | x :: l' => if p x then dropWhile p l' else l
  end.

Definition dropWhileEnd {A} (p : A -> bool) (l : list A) : list A :=
  rev (dropWhile p (rev l)).

(** [s.trim()] *)
Definition trim (s : jsstring) : jsstring :=
  dropWhileEnd isWhiteSpace (dropWhile isWhiteSpace s).

(** [s.split(sep)] for a one-unit separator: never empty. *)
Fixpoint split (sep : N) (s : jsstring) : list jsstring :=
  match s with
  | [] => [[]]
  | c :: s' =>
      if c =? sep then [] :: split sep s'
      else match split sep s' with
           | [] => [[c]]
           | p :: ps => (c :: p) :: ps
           end
  end.

(** [parts.join(sep)] *)
Fixpoint join (sep : jsstring) (parts : list jsstring) : jsstring :=
  match parts with
  | [] => []
  | [p] => p
  | p :: ps => p ++ sep ++ join sep ps
  end.

(* ================================================================= *)
(** ** Regular expressions

    The patterns of the file use literals, classes, alternation, [*] and the
    anchors [^] and [$] at the ends of the pattern.  [test] is decided with
    Brzozowski derivatives. *)

Inductive regex : Type :=
| RNone : regex
| REps : regex
| RSet : (N -> bool) -> regex
| RCat : regex -> regex -> regex
| RAlt : regex -> regex -> regex
| RStar : regex -> regex.

Fixpoint nullable (r : regex) : bool :=
  match r with
  | RNone => false
  | REps => true
  | RSet _ => false
  | RCat a b => nullable a && nullable b
  | RAlt a b => nullable a || nullable b
  | RStar _ => true
  end.

Fixpoint deriv (c : N) (r : regex) : regex :=
  match r with
  | RNone => RNone
  | REps => RNone
  | RSet p => if p c then REps else RNone
  | RCat a b =>
      if nullable a then RAlt (RCat (deriv c a) b) (deriv c b)
      else RCat (deriv c a) b
  | RAlt a b => RAlt (deriv c a) (deriv c b)
  | RStar a => RCat (deriv c a) (RStar a)
  end.

Fixpoint matchb (r : regex) (s : jsstring) : bool :=
  match s with
  | [] => nullable r
  | c :: s' => matchb (deriv c r) s'
  end.

(** A pattern character, and the same under the [i] flag: two units are
    equal under [i] when their canonical (upper-case) forms are; a unit
    outside ASCII never canonicalizes to an ASCII one. *)
Definition rchar (a : ascii) : regex := RSet (fun c => c =? ch a).
Definition rchar_i (a : ascii) : regex :=
  RSet (fun c => asciiUpperUnit c =? asciiUpperUnit (ch a)).
Definition rrange (lo hi : ascii) : regex :=
  RSet (fun c => (ch lo <=? c) && (c <=? ch hi)).
Definition rany : regex := RStar (RSet (fun _ => true)).

Fixpoint rlit (s : list ascii) : regex :=
  match s with
  | [] => REps
  | a :: s' => RCat (rchar a) (rlit s')
  end.
Fixpoint rlit_i (s : list ascii) : regex :=
  match s with
  | [] => REps
  | a :: s' => RCat (rchar_i a) (rlit_i s')
  end.
Definition lit (s : string) : regex := rlit (list_ascii_of_string s).
Definition lit_i (s : string) : regex := rlit_i (list_ascii_of_string s).

(** A pattern with its anchors: [^] at its start, [$] at its end. *)
Record RegExp : Type := mkRegExp {
  re_start : bool;
  re_body : regex;
  re_end : bool }.

(** [rx.test(s)] *)
Definition test (rx : RegExp) (s : jsstring) : bool :=
  matchb (RCat (if re_start rx then REps else rany)
               (RCat (re_body rx) (if re_end rx then REps else rany))) s.

(* ================================================================= *)
(** ** Host Guard *)

(** [172\.(1[6-9]|2[0-9]|3[0-1])\.], for 172.16.0.0 - 172.31.255.255 *)
Definition privateClassB : regex :=
  RCat (lit "172.")
    (RCat (RAlt (RCat (rchar "1") (rrange "6" "9"))
             (RAlt (RCat (rchar "2") (rrange "0" "9"))
                   (RCat (rchar "3") (rrange "0" "1"))))
          (rchar ".")).

Definition BLOCKED_HOST_PATTERNS : list RegExp :=
  [ mkRegExp true (lit_i "localhost") true;              (* /^localhost$/i *)
    mkRegExp true (lit "127.") false;                    (* /^127\./ *)
    mkRegExp true (lit "10.") false;                     (* /^10\./ *)
    mkRegExp true (lit "192.168.") false;                (* /^192\.168\./ *)
    mkRegExp true privateClassB false;
                                     (* /^172\.(1[6-9]|2[0-9]|3[0-1])\./ *)
    mkRegExp false (lit_i ".local") true;                (* /\.local$/i *)
    mkRegExp true (lit "0.") false ].                    (* /^0\./ *)

(** [hostname] is [None] when absent ([undefined] or [null]). *)
Definition isBlockedHost (hostname : option jsstring) : bool :=
  match hostname with
  | None => true
  | Some [] => true
  | Some h => existsb (fun rx => test rx h) BLOCKED_HOST_PATTERNS
  end.


(* ================================================================= *)
(** ** UTF-16, UTF-8 and percent-encoding *)

Definition isLeadSurrogate (c : N) : bool := (55296 <=? c) && (c <=? 56319).
Definition isTrailSurrogate (c : N) : bool := (56320 <=? c) && (c <=? 57343).
Definition isSurrogate (c : N) : bool := (55296 <=? c) && (c <=? 57343).

(** UTF16SurrogatePairToCodePoint *)
Definition pairToCodePoint (lead trail : N) : N :=
  (lead - 55296) * 1024 + (trail - 56320) + 65536.

(** UTF16EncodeCodePoint *)
Definition utf16Encode (cp : N) : jsstring :=
  if cp <? 65536 then [cp]
  else [55296 + (cp - 65536) / 1024; 56320 + (cp - 65536) mod 1024].

(** The octets of the UTF-8 encoding of a code point (the lead octet of
    the longest form keeps three bits). *)
Definition utf8Encode (cp : N) : list N :=
  if cp <? 128 then [cp]
  else if cp <? 2048 then [192 + cp / 64; 128 + cp mod 64]
  else if cp <? 65536 then
    [224 + cp / 4096; 128 + (cp / 64) mod 64; 128 + cp mod 64]
  else
    [240 + (cp / 262144) mod 8; 128 + (cp / 4096) mod 64;
     128 + (cp / 64) mod 64; 128 + cp mod 64].

Definition hexDigitUpper (n : N) : N := if n <? 10 then 48 + n else 55 + n.

(** ["%" + hex] with two upper-case digits. *)
Definition percentOctet (b : N) : jsstring :=
  [ch "%"; hexDigitUpper (b / 16); hexDigitUpper (b mod 16)].

Definition percentOctets (bs : list N) : jsstring := flat_map percentOctet bs.

Definition hexValue (c : N) : option N :=
  if isDigit c then Some (c - 48)
  else if (65 <=? c) && (c <=? 70) then Some (c - 55)
  else if (97 <=? c) && (c <=? 102) then Some (c - 87)
  else None.

(** ParseHexOctet *)
Definition hexOctet (h1 h2 : N) : option N :=
  match hexValue h1, hexValue h2 with
  | Some a, Some b => Some (a * 16 + b)
  | _, _ => None
  end.

(** The characters [encodeURIComponent] leaves alone: ASCII letters, digits
    and [-.!~*'()] together with [_]. *)
Definition uriUnescaped (c : N) : bool :=
  isAlnum c || existsb (N.eqb c) (js "-_.!~*'()").

(** [encodeURIComponent(s)]; [None] is the URIError thrown on an unpaired
    surrogate. *)
Fixpoint encodeURIComponent (s : jsstring) : option jsstring :=
  match s with
  | [] => Some []
  | c :: rest =>
      if uriUnescaped c then option_map (cons c) (encodeURIComponent rest)
      else if isTrailSurrogate c then None
      else if isLeadSurrogate c then
        match rest with
        | c2 :: rest2 =>
            if isTrailSurrogate c2 then
              option_map (app (percentOctets (utf8Encode (pairToCodePoint c c2))))
                         (encodeURIComponent rest2)
            else None
        | [] => None
        end
      else option_map (app (percentOctets (utf8Encode c)))
                      (encodeURIComponent rest)
  end.

(** [decodeURIComponent(s)].  [pend] counts the continuation octets still
    expected, [acc] holds the bits read so far and [lo] is the least code
    point the sequence may encode; [None] is the URIError. *)
Fixpoint decodeFrom (pend : nat) (acc lo : N) (s : jsstring)
  : option jsstring :=
  match s with
  | [] => match pend with O => Some [] | S _ => None end
  | c :: s1 =>
      match pend with
      | O =>
          if c =? ch "%" then
            match s1 with
            | h1 :: h2 :: rest =>
                match hexOctet h1 h2 with
                | None => None
                | Some b =>
                    if b <? 128 then option_map (cons b) (decodeFrom 0 0 0 rest)
                    else if b <? 192 then None
                    else if b <? 224 then decodeFrom 1 (b - 192) 128 rest
                    else if b <? 240 then decodeFrom 2 (b - 224) 2048 rest
                    else if b <? 248 then decodeFrom 3 (b - 240) 65536 rest
                    else None
                end
            | _ => None
            end
          else option_map (cons c) (decodeFrom 0 0 0 s1)
      | S pend' =>
          if c =? ch "%" then
            match s1 with
            | h1 :: h2 :: rest =>
                match hexOctet h1 h2 with
                | None => None
                | Some b =>
                    if (128 <=? b) && (b <? 192) then
                      let acc' := acc * 64 + (b - 128) in
                      match pend' with
                      | O =>
                          if (lo <=? acc') && negb (isSurrogate acc')
                             && (acc' <=? 1114111)
                          then option_map (app (utf16Encode acc'))
                                          (decodeFrom 0 0 0 rest)
                          else None
                      | S _ => decodeFrom pend' acc' lo rest
                      end
                    else None
                end
            | _ => None
            end
          else None
      end
  end.

Definition decodeURIComponent (s : jsstring) : option jsstring :=
  decodeFrom 0 0 0 s.

(* ================================================================= *)
(** ** Proxy links *)

Definition proxyPrefix : jsstring := js "/.netlify/functions/proxy?url=".

(** [makeProxyUrl(target)] *)
Definition makeProxyUrl (target : jsstring) : option jsstring :=
  option_map (app proxyPrefix) (encodeURIComponent target).

(** The front end, [public/app.js]. *)
Definition PROXY_BASE : jsstring := [].

(** [buildProxyLink(targetUrl, key)]; [None] is the URIError of
    [encodeURIComponent]. *)
Definition buildProxyLink (targetUrl key : jsstring) : option jsstring :=
  let base :=
    match PROXY_BASE with
    | [] => js "/.netlify/functions/proxy"
    | b => b
    end in
  match encodeURIComponent targetUrl with
  | None => None
  | Some encoded =>
      let url := base ++ js "?url=" ++ encoded in
      match key with
      | [] => Some url
      | _ => option_map (fun k => url ++ js "&key=" ++ k)
                        (encodeURIComponent key)
      end
  end.


(** The elements of the page that the listeners read and write: the
    values of the two text fields and of the selector, and the [src]
    that was last given to the frame. *)
Record Page : Type := mkPage {
  urlInput_value : jsstring;
  keyInput_value : jsstring;
  displayMode_value : jsstring;
  frame_src : jsstring }.

(** What a listener does besides writing to the page. *)
Inductive Effect : Type :=
| Alert : jsstring -> Effect               (* [alert(message)] *)
| WindowOpen : jsstring -> jsstring -> Effect   (* [window.open(url, target)] *)
| ScrollIntoView : Effect.                 (* [frame.scrollIntoView(...)] *)

Definition set_frame_src (p : Page) (link : jsstring) : Page :=
  mkPage (urlInput_value p) (keyInput_value p) (displayMode_value p) link.

(** The [click] listener of [goBtn]; [None] is the URIError of
    [encodeURIComponent], which the listener does not catch. *)
Definition goBtn_click (p : Page) : option (Page * list Effect) :=
  match trim (urlInput_value p) with
  | [] => Some (p, [Alert (js "Enter a URL (include https://)")])
  | target =>
      match buildProxyLink target (trim (keyInput_value p)) with
      | None => None
      | Some link => Some (set_frame_src p link, [])
      end
  end.

(** The [click] listener of [openBtn]. *)
Definition openBtn_click (p : Page) : option (Page * list Effect) :=
  match trim (urlInput_value p) with
  | [] => Some (p, [Alert (js "Enter a URL")])
  | target =>
      match buildProxyLink target (trim (keyInput_value p)) with
      | None => None
      | Some link =>
          if str_eqb (displayMode_value p) (js "newtab")
          then Some (p, [WindowOpen link (js "_blank")])
          else Some (set_frame_src p link, [ScrollIntoView])
      end
  end.

(* ================================================================= *)
(** ** Unicode tables

    Two platform functions read the Unicode character database, which is
    not transcribed here.  On ASCII input both are given by the standards
    in closed form and are modelled below; the rest is this interface. *)

Class UnicodeTables : Type := {
  (** [String.prototype.toLowerCase] on a string with a unit outside ASCII *)
  unicodeToLowerCase : jsstring -> jsstring;
  (** UTS #46 ToASCII, as the URL Standard's "domain to ASCII" runs it, on
      the octets of a percent-decoded host that is not plain ASCII or has
      an [xn--] label *)
  unicodeDomainToASCII : list N -> option (list N);
  (** ToASCII returns ASCII *)
  unicodeDomainToASCII_ascii :
    forall bs d, unicodeDomainToASCII bs = Some d ->
                 forallb isAsciiUnit d = true }.

(* ================================================================= *)
(** ** URL records (URL Standard, section 4.1) *)

Inductive Host : Type :=
| HDomain : list N -> Host
| HIPv4 : N -> Host
| HIPv6 : list N -> Host
| HOpaque : list N -> Host      (* the empty host is [HOpaque []] *)
.

Inductive URLPath : Type :=
| OpaquePath : list N -> URLPath
| ListPath : list (list N) -> URLPath.

Record URLRecord : Type := mkURL {
  url_scheme : list N;
  url_username : list N;
  url_password : list N;
  url_host : option Host;
  url_port : option N;
  url_path : URLPath;
  url_query : option (list N);
  url_fragment : option (list N) }.

Definition emptyURL : URLRecord :=
  mkURL [] [] [] None None (ListPath []) None None.

Definition set_scheme (u : URLRecord) (x : list N) : URLRecord :=
  mkURL x (url_username u) (url_password u) (url_host u) (url_port u)
        (url_path u) (url_query u) (url_fragment u).
Definition set_username (u : URLRecord) (x : list N) : URLRecord :=
  mkURL (url_scheme u) x (url_password u) (url_host u) (url_port u)
        (url_path u) (url_query u) (url_fragment u).
Definition set_password (u : URLRecord) (x : list N) : URLRecord :=
  mkURL (url_scheme u) (url_username u) x (url_host u) (url_port u)
        (url_path u) (url_query u) (url_fragment u).
Definition set_host (u : URLRecord) (x : option Host) : URLRecord :=
  mkURL (url_scheme u) (url_username u) (url_password u) x (url_port u)
        (url_path u) (url_query u) (url_fragment u).
Definition set_port (u : URLRecord) (x : option N) : URLRecord :=
  mkURL (url_scheme u) (url_username u) (url_password u) (url_host u) x
        (url_path u) (url_query u) (url_fragment u).
Definition set_path (u : URLRecord) (x : URLPath) : URLRecord :=
  mkURL (url_scheme u) (url_username u) (url_password u) (url_host u)
        (url_port u) x (url_query u) (url_fragment u).
Definition set_query (u : URLRecord) (x : option (list N)) : URLRecord :=
  mkURL (url_scheme u) (url_username u) (url_password u) (url_host u)
        (url_port u) (url_path u) x (url_fragment u).
Definition set_fragment (u : URLRecord) (x : option (list N)) : URLRecord :=
  mkURL (url_scheme u) (url_username u) (url_password u) (url_host u)
        (url_port u) (url_path u) (url_query u) x.

(** Special schemes and their default ports. *)
Definition specialSchemes : list (jsstring * option N) :=
  [ (js "ftp", Some 21); (js "file", None); (js "http", Some 80);
    (js "https", Some 443); (js "ws", Some 80); (js "wss", Some 443) ].

Definition isSpecialScheme (s : list N) : bool :=
  existsb (fun e => str_eqb (fst e) s) specialSchemes.

Fixpoint defaultPortIn (l : list (jsstring * option N)) (s : list N)
  : option N :=
  match l with
  | [] => None
  | (k, p) :: l' => if str_eqb k s then p else defaultPortIn l' s
  end.
Definition defaultPort (s : list N) : option N := defaultPortIn specialSchemes s.

Definition isSpecial (u : URLRecord) : bool := isSpecialScheme (url_scheme u).
Definition isFileScheme (s : list N) : bool := str_eqb s (js "file").

Definition hasOpaquePath (u : URLRecord) : bool :=
  match url_path u with OpaquePath _ => true | ListPath _ => false end.

(** *** Percent-encode sets *)

Definition inC0ControlSet (c : N) : bool := (c <=? 31) || (126 <? c).
Definition inFragmentSet (c : N) : bool :=
  inC0ControlSet c || existsb (N.eqb c) [32; 34; 60; 62; 96].
Definition inQuerySet (c : N) : bool :=
  inC0ControlSet c || existsb (N.eqb c) [32; 34; 35; 60; 62].
Definition inSpecialQuerySet (c : N) : bool := inQuerySet c || (c =? 39).
Definition inPathSet (c : N) : bool :=
  inQuerySet c || existsb (N.eqb c) [63; 94; 96; 123; 125].
Definition inUserinfoSet (c : N) : bool :=
  inPathSet c || existsb (N.eqb c) [47; 58; 59; 61; 64; 91; 92; 93; 124].

(** UTF-8 percent-encode a code point using a percent-encode set. *)
Definition utf8PercentEncode (set : N -> bool) (c : N) : list N :=
  if set c then percentOctets (utf8Encode c) else [c].

Definition percentEncodeString (set : N -> bool) (s : list N) : list N :=
  flat_map (utf8PercentEncode set) s.

(** Percent-decode a sequence of octets. *)
Fixpoint percentDecode (bs : list N) : list N :=
  match bs with
  | [] => []
  | c :: s1 =>
      if c =? ch "%" then
        match s1 with
        | h1 :: h2 :: rest =>
            match hexOctet h1 h2 with
            | Some b => b :: percentDecode rest
            | None => c :: percentDecode s1
            end
        | _ => c :: percentDecode s1
        end
      else c :: percentDecode s1
  end.

(** Conversion of a JavaScript string to scalar values (USVString): pairs
    are joined and an unpaired surrogate becomes U+FFFD. *)
Fixpoint toCodePoints (s : jsstring) : list N :=
  match s with
  | [] => []
  | c :: rest =>
      if isLeadSurrogate c then
        match rest with
        | c2 :: rest2 =>
            if isTrailSurrogate c2 then pairToCodePoint c c2 :: toCodePoints rest2
            else 65533 :: toCodePoints rest
        | [] => [65533]
        end
      else if isTrailSurrogate c then 65533 :: toCodePoints rest
      else c :: toCodePoints rest
  end.

(** *** Numbers in hosts and ports *)

Definition decDigit (n : N) : N := 48 + n.
Definition hexDigitLower (n : N) : N := if n <? 10 then 48 + n else 87 + n.

(** Shortest decimal form of a number below [10^10]. *)
Definition showDec (n : N) : list N :=
  dropWhile (N.eqb 48)
    (map (fun k => decDigit ((n / 10 ^ k) mod 10)) [9; 8; 7; 6; 5; 4; 3; 2; 1])
  ++ [decDigit (n mod 10)].

(** Shortest lower-case hexadecimal form of a 16-bit piece. *)
Definition showHex16 (n : N) : list N :=
  dropWhile (N.eqb 48)
    (map (fun k => hexDigitLower ((n / 16 ^ k) mod 16)) [3; 2; 1])
  ++ [hexDigitLower (n mod 16)].

Definition parseRadix (r : N) (s : list N) : N :=
  fold_left (fun acc c => match hexValue c with
                          | Some d => acc * r + d
                          | None => acc * r
                          end) s 0.

Definition isRadixDigit (r : N) (c : N) : bool :=
  match hexValue c with
  | Some d => d <? r
  | None => false
  end.

(** *** IPv4 (URL Standard, "IPv4 number parser", "ends in a number
    checker", "IPv4 parser") *)

Definition ipv4NumberParse (input : list N) : option N :=
  match input with
  | [] => None
  | c1 :: t1 =>
      let '(digits, r) :=
        match t1 with
        | c2 :: t2 =>
            if (c1 =? ch "0") && ((c2 =? ch "x") || (c2 =? ch "X")) then (t2, 16)
            else if c1 =? ch "0" then (t1, 8)
            else (input, 10)
        | [] => (input, 10)
        end in
      match digits with
      | [] => Some 0
      | _ => if forallb (isRadixDigit r) digits then Some (parseRadix r digits)
             else None
      end
  end.

(** The parts of a host split on dots, a last empty part dropped when
    [parts] has others. *)
Definition dropEmptyLast (parts : list (list N)) : list (list N) :=
  match rev parts with
  | [] :: ((_ :: _) as r) => rev r
  | _ => parts
  end.

Definition isNil {A} (l : list A) : bool :=
  match l with [] => true | _ => false end.

Definition endsInANumber (input : list N) : bool :=
  let parts := split (ch ".") input in
  match rev parts with
  | [[]] => false
  | _ =>
      match rev (dropEmptyLast parts) with
      | last :: _ =>
          (negb (isNil last) && forallb isDigit last)
          || match ipv4NumberParse last with Some _ => true | None => false end
      | [] => false
      end
  end.

Fixpoint mapM {A B} (f : A -> option B) (l : list A) : option (list B) :=
  match l with
  | [] => Some []
  | x :: l' =>
      match f x, mapM f l' with
      | Some y, Some ys => Some (y :: ys)
      | _, _ => None
      end
  end.

Fixpoint ipv4Sum (numbers : list N) (counter : N) : N :=
  match numbers with
  | [] => 0
  | n :: ns => n * 256 ^ (3 - counter) + ipv4Sum ns (counter + 1)
  end.

Definition ipv4Parse (input : list N) : option N :=
  let parts := dropEmptyLast (split (ch ".") input) in
  if (4 <? length parts)%nat then None
  else match mapM ipv4NumberParse parts with
       | None => None
       | Some numbers =>
           match rev numbers with
           | [] => None
           | last :: initr =>
               if existsb (fun n => 255 <? n) initr then None
               else if 256 ^ (5 - N.of_nat (length numbers)) <=? last then None
               else Some (last + ipv4Sum (rev initr) 0)
           end
       end.

Definition ipv4Serialize (a : N) : list N :=
  showDec (a / 16777216) ++ [ch "."] ++ showDec ((a / 65536) mod 256)
  ++ [ch "."] ++ showDec ((a / 256) mod 256) ++ [ch "."] ++ showDec (a mod 256).

(** *** IPv6 (URL Standard, "IPv6 parser" and "IPv6 serializer") *)

(** One IPv4 number inside an IPv6 address: decimal digits, no leading
    zero, at most 255. *)
Definition ipv4PieceInIPv6 (part : list N) : option N :=
  match part with
  | [] => None
  | c :: t =>
      if forallb isDigit part
         && negb ((c =? ch "0") && negb (isNil t))
         && (parseRadix 10 part <=? 255)
      then Some (parseRadix 10 part) else None
  end.

(** The pieces read so far are [pieces] (its length is pieceIndex), [cur]
    holds the value, the length and the text of the piece being read. *)
Fixpoint ipv6Pieces (pieces : list N) (compress : option nat)
    (cur : option (N * nat * list N)) (input : list N)
  : option (list N * option nat) :=
  match input with
  | [] =>
      match cur with
      | None => Some (pieces, compress)
      | Some (value, _, _) => Some (pieces ++ [value], compress)
      end
  | c :: rest =>
      match cur with
      | None =>
          if (length pieces =? 8)%nat then None
          else if c =? ch ":" then
            match compress with
            | Some _ => None
            | None =>
                ipv6Pieces (pieces ++ [0]) (Some (S (length pieces))) None rest
            end
          else if isHexDigit c then
            match hexValue c with
            | Some d => ipv6Pieces pieces compress (Some (d, 1%nat, [c])) rest
            | None => None
            end
          else None
      | Some (value, len, text) =>
          if isHexDigit c && (len <? 4)%nat then
            match hexValue c with
            | Some d =>
                ipv6Pieces pieces compress
                           (Some (value * 16 + d, S len, text ++ [c])) rest
            | None => None
            end
          else if c =? ch "." then
            if (6 <? length pieces)%nat then None
            else match mapM ipv4PieceInIPv6 (split (ch ".") (text ++ input)) with
                 | Some [a; b; c'; d] =>
                     Some (pieces ++ [a * 256 + b; c' * 256 + d], compress)
                 | _ => None
                 end
          else if c =? ch ":" then
            match rest with
            | [] => None
            | _ => ipv6Pieces (pieces ++ [value]) compress None rest
            end
          else None
      end
  end.

Definition ipv6Parse (input : list N) : option (list N) :=
  let start :=
    match input with
    | c :: rest =>
        if c =? ch ":" then
          match rest with
          | c2 :: rest2 =>
              if c2 =? ch ":" then ipv6Pieces [0] (Some 1%nat) None rest2
              else None
          | [] => None
          end
        else ipv6Pieces [] None None input
    | [] => ipv6Pieces [] None None input
    end in
  match start with
  | None => None
  | Some (pieces, Some k) =>
      Some (firstn k pieces ++ repeat 0 (8 - length pieces) ++ skipn k pieces)
  | Some (pieces, None) =>
      if (length pieces =? 8)%nat then Some pieces else None
  end.

(** Length of the run of zero pieces at the head of [l]. *)
Fixpoint zeroRun (l : list N) : nat :=
  match l with
  | 0 :: l' => S (zeroRun l')
  | _ => O
  end.

(** Index and length of the first longest run of zeros, by position. *)
Fixpoint longestZeroRun (l : list N) (i : nat) (best : option (nat * nat))
  : option (nat * nat) :=
  match l with
  | [] => best
  | _ :: l' =>
      let n := zeroRun l in
      let best' :=
        match best with
        | Some (_, m) => if (m <? n)%nat then Some (i, n) else best
        | None => if (1 <? n)%nat then Some (i, n) else None
        end in
      longestZeroRun l' (S i) best'
  end.

Fixpoint ipv6Out (l : list N) (i : nat) (compress : option nat)
    (ignore0 : bool) : list N :=
  match l with
  | [] => []
  | p :: l' =>
      if ignore0 && (p =? 0) then ipv6Out l' (S i) compress true
      else if match compress with Some k => (k =? i)%nat | None => false end
      then (if (i =? 0)%nat then js "::" else js ":")
           ++ ipv6Out l' (S i) compress true
      else showHex16 p ++ (if (i =? 7)%nat then [] else js ":")
           ++ ipv6Out l' (S i) compress false
  end.

Definition ipv6Serialize (pieces : list N) : list N :=
  ipv6Out pieces 0 (option_map fst (longestZeroRun pieces 0 None)) false.

(** *** Hosts (URL Standard, "host parser", "host serializer") *)

Definition forbiddenHostCodePoint (c : N) : bool :=
  existsb (N.eqb c)
    [0; 9; 10; 13; 32; 35; 47; 58; 60; 62; 63; 64; 91; 92; 93; 94; 124].

Definition forbiddenDomainCodePoint (c : N) : bool :=
  forbiddenHostCodePoint c || (c <=? 31) || (c =? 37) || (c =? 127).

Definition opaqueHostParse (input : list N) : option Host :=
  if existsb forbiddenHostCodePoint input then None
  else Some (HOpaque (percentEncodeString inC0ControlSet input)).

Definition hasPunycodeLabel (d : list N) : bool :=
  existsb (fun l => startsWith (js "xn--") (asciiLower (firstn 4 l)))
          (split (ch ".") d).

Section URLParser.
Context {U : UnicodeTables}.

(** "Domain to ASCII" on the percent-decoded octets of a host. *)
Definition domainToASCII (bs : list N) : option (list N) :=
  let result :=
    if forallb isAsciiUnit bs && negb (hasPunycodeLabel bs)
    then Some (asciiLower bs)
    else unicodeDomainToASCII bs in
  match result with
  | None => None
  | Some d =>
      if isNil d then None
      else if existsb forbiddenDomainCodePoint d then None
      else Some d
  end.

Definition hostParse (input : list N) (isOpaque : bool) : option Host :=
  if startsWith (js "[") input then
    match rev (tl input) with
    | c :: r => if c =? ch "]" then option_map HIPv6 (ipv6Parse (rev r))
                else None
    | [] => None
    end
  else if isOpaque then opaqueHostParse input
  else match domainToASCII (percentDecode (flat_map utf8Encode input)) with
       | None => None
       | Some d =>
           if endsInANumber d then option_map HIPv4 (ipv4Parse d)
           else Some (HDomain d)
       end.

Definition hostSerialize (h : Host) : list N :=
  match h with
  | HDomain d => d
  | HIPv4 a => ipv4Serialize a
  | HIPv6 p => js "[" ++ ipv6Serialize p ++ js "]"
  | HOpaque s => s
  end.

(** *** Path helpers *)

Definition isWindowsDriveLetter (s : list N) : bool :=
  match s with
  | [a; b] => isAlpha a && ((b =? ch ":") || (b =? ch "|"))
  | _ => false
  end.

Definition isNormalizedWindowsDriveLetter (s : list N) : bool :=
  match s with
  | [a; b] => isAlpha a && (b =? ch ":")
  | _ => false
  end.

Definition startsWithWindowsDriveLetter (s : list N) : bool :=
  match s with
  | a :: b :: t =>
      isWindowsDriveLetter [a; b]
      && match t with
         | [] => true
         | c :: _ => existsb (N.eqb c) [ch "/"; ch "\"; ch "?"; ch "#"]
         end
  | _ => false
  end.

Definition isSingleDot (s : list N) : bool :=
  let l := asciiLower s in str_eqb l (js ".") || str_eqb l (js "%2e").

Definition isDoubleDot (s : list N) : bool :=
  let l := asciiLower s in
  str_eqb l (js "..") || str_eqb l (js ".%2e") || str_eqb l (js "%2e.")
  || str_eqb l (js "%2e%2e").

Definition pathSegments (u : URLRecord) : list (list N) :=
  match url_path u with
  | ListPath l => l
  | OpaquePath _ => []
  end.

Definition appendSegment (u : URLRecord) (seg : list N) : URLRecord :=
  set_path u (ListPath (pathSegments u ++ [seg])).

(** "Shorten a URL's path" *)
Definition shorten (u : URLRecord) : URLRecord :=
  match pathSegments u with
  | [seg] =>
      if isFileScheme (url_scheme u) && isNormalizedWindowsDriveLetter seg
      then u else set_path u (ListPath [])
  | l => set_path u (ListPath (removelast l))
  end.

(** *** The states of the basic URL parser

    Every state is a function of the input that is left; a state that ends
    with "decrease pointer by 1" hands the same input to the next state. *)

Definition fragment_state (u : URLRecord) (rest : list N) : URLRecord :=
  set_fragment u
    (Some (match url_fragment u with Some f => f | None => [] end
           ++ percentEncodeString inFragmentSet rest)).

Fixpoint breakAt (c : N) (s : list N) : list N * list N :=
  match s with
  | [] => ([], [])
  | x :: s' =>
      if x =? c then ([], s)
      else let '(a, b) := breakAt c s' in (x :: a, b)
  end.

Definition query_state (u : URLRecord) (rest : list N) : URLRecord :=
  let '(buffer, after) := breakAt (ch "#") rest in
  let set := if isSpecial u then inSpecialQuerySet else inQuerySet in
  let u1 :=
    set_query u
      (Some (match url_query u with Some q => q | None => [] end
             ++ percentEncodeString set buffer)) in
  match after with
  | [] => u1
  | _ :: rest' => fragment_state (set_fragment u1 (Some [])) rest'
  end.

(** What the path state does with [buffer] at the end of a segment;
    [slash] tells whether the segment ends on a slash. *)
Definition endSegment (u : URLRecord) (buffer : list N) (slash : bool)
  : URLRecord :=
  if isDoubleDot buffer then
    let u1 := shorten u in
    if slash then u1 else appendSegment u1 []
  else if isSingleDot buffer then
    if slash then u else appendSegment u []
  else
    let buffer' :=
      match buffer with
      | [a; _] =>
          if isFileScheme (url_scheme u) && isNil (pathSegments u)
             && isWindowsDriveLetter buffer
          then [a; ch ":"] else buffer
      | _ => buffer
      end in
    appendSegment u buffer'.

Fixpoint path_state (u : URLRecord) (buffer : list N) (rest : list N)
  : URLRecord :=
  match rest with
  | [] => endSegment u buffer false
  | c :: rest' =>
      if (c =? ch "/") || (isSpecial u && (c =? ch "\")) then
        path_state (endSegment u buffer true) [] rest'
      else if c =? ch "?" then
        query_state (set_query (endSegment u buffer false) (Some [])) rest'
      else if c =? ch "#" then
        fragment_state (set_fragment (endSegment u buffer false) (Some [])) rest'
      else path_state u (buffer ++ utf8PercentEncode inPathSet c) rest'
  end.

Definition path_start_state (u : URLRecord) (rest : list N) : URLRecord :=
  match rest with
  | [] => if isSpecial u then path_state u [] [] else u
  | c :: rest' =>
      if isSpecial u then
        if (c =? ch "/") || (c =? ch "\") then path_state u [] rest'
        else path_state u [] rest
      else if c =? ch "?" then query_state (set_query u (Some [])) rest'
      else if c =? ch "#" then fragment_state (set_fragment u (Some [])) rest'
      else if c =? ch "/" then path_state u [] rest'
      else path_state u [] rest
  end.

(** The code points at which authority, host and port end. *)
Definition endsAuthority (u : URLRecord) (c : N) : bool :=
  (c =? ch "/") || (c =? ch "?") || (c =? ch "#")
  || (isSpecial u && (c =? ch "\")).

Definition finishPort (u : URLRecord) (buffer : list N) : option URLRecord :=
  match buffer with
  | [] => Some u
  | _ =>
      let port := parseRadix 10 buffer in
      if 65535 <? port then None
      else Some (set_port u
                   (match defaultPort (url_scheme u) with
                    | Some d => if d =? port then None else Some port
                    | None => Some port
                    end))
  end.

Fixpoint port_state (u : URLRecord) (buffer : list N) (rest : list N)
  : option URLRecord :=
  match rest with
  | [] => option_map (fun u1 => path_start_state u1 rest) (finishPort u buffer)
  | c :: rest' =>
      if isDigit c then port_state u (buffer ++ [c]) rest'
      else if endsAuthority u c then
        option_map (fun u1 => path_start_state u1 rest) (finishPort u buffer)
      else None
  end.

Fixpoint host_state (u : URLRecord) (buffer : list N) (insideBrackets : bool)
    (rest : list N) : option URLRecord :=
  let finish (_ : unit) :=
    if isSpecial u && isNil buffer then None
    else match hostParse buffer (negb (isSpecial u)) with
         | None => None
         | Some h => Some (path_start_state (set_host u (Some h)) rest)
         end in
  match rest with
  | [] => finish tt
  | c :: rest' =>
      if (c =? ch ":") && negb insideBrackets then
        if isNil buffer then None
        else match hostParse buffer (negb (isSpecial u)) with
             | None => None
             | Some h => port_state (set_host u (Some h)) [] rest'
             end
      else if endsAuthority u c then finish tt
      else
        host_state u (buffer ++ [c])
          (if c =? ch "[" then true
           else if c =? ch "]" then false else insideBrackets)
          rest'
  end.

(** The authority state's treatment of the buffer when it meets [@]. *)
Fixpoint addCredentials (u : URLRecord) (passwordTokenSeen : bool)
    (buffer : list N) : URLRecord * bool :=
  match buffer with
  | [] => (u, passwordTokenSeen)
  | c :: buffer' =>
      if (c =? ch ":") && negb passwordTokenSeen then
        addCredentials u true buffer'
      else
        let e := utf8PercentEncode inUserinfoSet c in
        if passwordTokenSeen
        then addCredentials (set_password u (url_password u ++ e)) true buffer'
        else addCredentials (set_username u (url_username u ++ e)) false buffer'
  end.

Fixpoint authority_state (u : URLRecord) (buffer : list N)
    (atSignSeen passwordTokenSeen : bool) (rest : list N)
  : option URLRecord :=
  let finish (_ : unit) :=
    if atSignSeen && isNil buffer then None
    else host_state u [] false (buffer ++ rest) in
  match rest with
  | [] => finish tt
  | c :: rest' =>
      if c =? ch "@" then
        let buffer1 := if atSignSeen then js "%40" ++ buffer else buffer in
        let '(u1, seen) := addCredentials u passwordTokenSeen buffer1 in
        authority_state u1 [] true seen rest'
      else if endsAuthority u c then finish tt
      else authority_state u (buffer ++ [c]) atSignSeen passwordTokenSeen rest'
  end.

Definition isSlashOrBackslash (c : N) : bool := (c =? ch "/") || (c =? ch "\").

Definition special_authority_ignore_slashes_state (u : URLRecord)
    (rest : list N) : option URLRecord :=
  authority_state u [] false false (dropWhile isSlashOrBackslash rest).

Definition special_authority_slashes_state (u : URLRecord) (rest : list N)
  : option URLRecord :=
  if startsWith (js "//") rest
  then special_authority_ignore_slashes_state u (skipn 2 rest)
  else special_authority_ignore_slashes_state u rest.

Definition copyAuthority (u base : URLRecord) : URLRecord :=
  set_port (set_host (set_password (set_username u (url_username base))
                                   (url_password base))
                     (url_host base))
           (url_port base).

Definition relative_slash_state (u base : URLRecord) (rest : list N)
  : option URLRecord :=
  match rest with
  | c :: rest' =>
      if isSpecial u && isSlashOrBackslash c then
        special_authority_ignore_slashes_state u rest'
      else if c =? ch "/" then authority_state u [] false false rest'
      else Some (path_state (copyAuthority u base) [] rest)
  | [] => Some (path_state (copyAuthority u base) [] rest)
  end.

Definition relative_state (u0 base : URLRecord) (rest : list N)
  : option URLRecord :=
  let u := set_scheme u0 (url_scheme base) in
  let inherit :=
    set_query (set_path (copyAuthority u base) (url_path base))
              (url_query base) in
  match rest with
  | [] => Some inherit
  | c :: rest' =>
      if c =? ch "/" then relative_slash_state u base rest'
      else if isSpecial u && (c =? ch "\") then relative_slash_state u base rest'
      else if c =? ch "?" then
        Some (query_state (set_query inherit (Some [])) rest')
      else if c =? ch "#" then
        Some (fragment_state (set_fragment inherit (Some [])) rest')
      else Some (path_state (shorten (set_query inherit None)) [] rest)
  end.

Definition special_relative_or_authority_state (u base : URLRecord)
    (rest : list N) : option URLRecord :=
  if startsWith (js "//") rest
  then special_authority_ignore_slashes_state u (skipn 2 rest)
  else relative_state u base rest.

Definition path_or_authority_state (u : URLRecord) (rest : list N)
  : option URLRecord :=
  if startsWith (js "/") rest
  then authority_state u [] false false (tl rest)
  else Some (path_state u [] rest).

Definition opaquePathOf (u : URLRecord) : list N :=
  match url_path u with
  | OpaquePath p => p
  | ListPath _ => []
  end.

Fixpoint opaque_path_state (u : URLRecord) (rest : list N) : URLRecord :=
  match rest with
  | [] => u
  | c :: rest' =>
      if c =? ch "?" then query_state (set_query u (Some [])) rest'
      else if c =? ch "#" then fragment_state (set_fragment u (Some [])) rest'
      else if c =? ch " " then
        if startsWith (js "?") rest' || startsWith (js "#") rest' then
          opaque_path_state
            (set_path u (OpaquePath (opaquePathOf u ++ js "%20"))) rest'
        else
          opaque_path_state
            (set_path u (OpaquePath (opaquePathOf u ++ [c]))) rest'
      else
        opaque_path_state
          (set_path u (OpaquePath (opaquePathOf u
                                   ++ utf8PercentEncode inC0ControlSet c)))
          rest'
  end.

Definition emptyHost : Host := HOpaque [].

Definition isLocalhost (h : Host) : bool :=
  match h with
  | HDomain d => str_eqb d (js "localhost")
  | _ => false
  end.

Fixpoint file_host_state (u : URLRecord) (buffer : list N) (rest : list N)
  : option URLRecord :=
  let finish (_ : unit) :=
    if isWindowsDriveLetter buffer then Some (path_state u buffer rest)
    else if isNil buffer then
      Some (path_start_state (set_host u (Some emptyHost)) rest)
    else match hostParse buffer false with
         | None => None
         | Some h =>
             Some (path_start_state
                     (set_host u (Some (if isLocalhost h then emptyHost else h)))
                     rest)
         end in
  match rest with
  | [] => finish tt
  | c :: rest' =>
      if isSlashOrBackslash c || (c =? ch "?") || (c =? ch "#") then finish tt
      else file_host_state u (buffer ++ [c]) rest'
  end.

Definition baseIsFile (base : option URLRecord) : option URLRecord :=
  match base with
  | Some b => if isFileScheme (url_scheme b) then Some b else None
  | None => None
  end.

Definition file_slash_state (u : URLRecord) (base : option URLRecord)
    (rest : list N) : option URLRecord :=
  let other (_ : unit) :=
    let u1 :=
      match baseIsFile base with
      | Some b =>
          let u2 := set_host u (url_host b) in
          match pathSegments b with
          | seg :: _ =>
              if negb (startsWithWindowsDriveLetter rest)
                 && isNormalizedWindowsDriveLetter seg
              then appendSegment u2 seg else u2
          | [] => u2
          end
      | None => u
      end in
    Some (path_state u1 [] rest) in
  match rest with
  | c :: rest' =>
      if isSlashOrBackslash c then file_host_state u [] rest' else other tt
  | [] => other tt
  end.

Definition file_state (u0 : URLRecord) (base : option URLRecord)
    (rest : list N) : option URLRecord :=
  let u := set_host (set_scheme u0 (js "file")) (Some emptyHost) in
  let slash :=
    match rest with c :: _ => isSlashOrBackslash c | [] => false end in
  if slash then file_slash_state u base (tl rest)
  else match baseIsFile base with
       | Some b =>
           let inherit :=
             set_query (set_path (set_host u (url_host b)) (url_path b))
                       (url_query b) in
           match rest with
           | [] => Some inherit
           | c :: rest' =>
               if c =? ch "?" then
                 Some (query_state (set_query inherit (Some [])) rest')
               else if c =? ch "#" then
                 Some (fragment_state (set_fragment inherit (Some [])) rest')
               else
                 let u1 := set_query inherit None in
                 let u2 :=
                   if negb (startsWithWindowsDriveLetter rest) then shorten u1
                   else set_path u1 (ListPath []) in
                 Some (path_state u2 [] rest)
           end
       | None => Some (path_state u [] rest)
       end.

Definition no_scheme_state (base : option URLRecord) (input : list N)
  : option URLRecord :=
  match base with
  | None => None
  | Some b =>
      if hasOpaquePath b then
        if startsWith (js "#") input then
          Some (fragment_state
                  (set_fragment
                     (set_query (set_path (set_scheme emptyURL (url_scheme b))
                                          (url_path b))
                                (url_query b))
                     (Some []))
                  (tl input))
        else None
      else if negb (isFileScheme (url_scheme b)) then
        relative_state emptyURL b input
      else file_state emptyURL base input
  end.

(** The scheme state: the scheme (lower-cased) and what follows its colon,
    or [None] when the input has no scheme. *)
Fixpoint scheme_state (buffer : list N) (rest : list N)
  : option (list N * list N) :=
  match rest with
  | [] => None
  | c :: rest' =>
      if isAlnum c || (c =? ch "+") || (c =? ch "-") || (c =? ch ".") then
        scheme_state (buffer ++ [asciiLowerUnit c]) rest'
      else if c =? ch ":" then Some (buffer, rest')
      else None
  end.

Definition afterScheme (base : option URLRecord) (scheme rest : list N)
  : option URLRecord :=
  let u := set_scheme emptyURL scheme in
  if isFileScheme scheme then file_state u base rest
  else if isSpecialScheme scheme then
    match base with
    | Some b =>
        if str_eqb (url_scheme b) scheme
        then special_relative_or_authority_state u b rest
        else special_authority_slashes_state u rest
    | None => special_authority_slashes_state u rest
    end
  else
    if startsWith (js "/") rest then path_or_authority_state u (tl rest)
    else Some (opaque_path_state (set_path u (OpaquePath [])) rest).

Definition isC0ControlOrSpace (c : N) : bool := c <=? 32.
Definition isTabOrNewline (c : N) : bool :=
  (c =? 9) || (c =? 10) || (c =? 13).

(** The basic URL parser, on scalar values, without state override. *)
Definition basicParse (input : list N) (base : option URLRecord)
  : option URLRecord :=
  let input1 :=
    dropWhileEnd isC0ControlOrSpace (dropWhile isC0ControlOrSpace input) in
  let input2 := filter (fun c => negb (isTabOrNewline c)) input1 in
  match input2 with
  | c :: rest =>
      if isAlpha c then
        match scheme_state [asciiLowerUnit c] rest with
        | Some (scheme, rest') => afterScheme base scheme rest'
        | None => no_scheme_state base input2
        end
      else no_scheme_state base input2
  | [] => no_scheme_state base input2
  end.

(** The URL serializer. *)
Definition serializePath (u : URLRecord) : list N :=
  match url_path u with
  | OpaquePath p => p
  | ListPath l => flat_map (fun seg => ch "/" :: seg) l
  end.

Definition urlSerialize (u : URLRecord) : list N :=
  url_scheme u ++ js ":"
  ++ match url_host u with
     | Some h =>
         js "//"
         ++ (if isNil (url_username u) && isNil (url_password u) then []
             else url_username u
                  ++ (if isNil (url_password u) then []
                      else js ":" ++ url_password u)
                  ++ js "@")
         ++ hostSerialize h
         ++ match url_port u with
            | Some p => js ":" ++ showDec p
            | None => []
            end
     | None =>
         match url_path u with
         | ListPath ([] :: _ :: _) => js "/."
         | _ => []
         end
     end
  ++ serializePath u
  ++ match url_query u with Some q => js "?" ++ q | None => [] end
  ++ match url_fragment u with Some f => js "#" ++ f | None => [] end.

(** [new URL(url, base)]: [None] is the TypeError. *)
Definition URL_new (url : jsstring) (base : option jsstring)
  : option URLRecord :=
  match base with
  | None => basicParse (toCodePoints url) None
  | Some b =>
      match basicParse (toCodePoints b) None with
      | None => None
      | Some parsedBase => basicParse (toCodePoints url) (Some parsedBase)
      end
  end.

(** The [href] and [hostname] getters. *)
Definition href (u : URLRecord) : jsstring := urlSerialize u.
Definition hostname (u : URLRecord) : jsstring :=
  match url_host u with
  | Some h => hostSerialize h
  | None => []
  end.

End URLParser.

(* ================================================================= *)
(** ** URL Rewriter *)

Section Rewriter.
Context {U : UnicodeTables}.

(** [s.toLowerCase()] *)
Definition toLowerCase (s : jsstring) : jsstring :=
  if forallb isAsciiUnit s then asciiLower s else unicodeToLowerCase s.

(** A value that may be absent or empty is falsy. *)
Definition falsy (v : option jsstring) : bool :=
  match v with
  | None => true
  | Some s => isNil s
  end.

(** [shouldRewriteAttr(val)] *)
Definition shouldRewriteAttr (val : option jsstring) : bool :=
  match val with
  | None => false
  | Some [] => false
  | Some s =>
      let v := toLowerCase (trim s) in
      negb (startsWith (js "data:") v
            || startsWith (js "javascript:") v
            || startsWith (js "mailto:") v
            || startsWith (js "#") v)
  end.

(** [maybeRewriteUrl(attrValue, baseUrl)]: the [try] block returns the
    proxy link; each way out of it through [catch] returns [attrValue]. *)
Definition maybeRewriteUrl (attrValue : option jsstring) (baseUrl : jsstring)
  : option jsstring :=
  match attrValue with
  | None => attrValue
  | Some v =>
      if falsy attrValue then attrValue
      else if negb (shouldRewriteAttr attrValue) then attrValue
      else match URL_new v (Some baseUrl) with
           | None => attrValue
           | Some u =>
               match makeProxyUrl (href u) with
               | None => attrValue
               | Some link => Some link
               end
           end
  end.

(** [isHtmlContentType(contentType)] *)
Definition isHtmlContentType (contentType : option jsstring) : bool :=
  match contentType with
  | None => false
  | Some [] => false
  | Some c =>
      str_eqb (toLowerCase (trim (hd [] (split (ch ";") c)))) (js "text/html")
  end.

End Rewriter.

(* ================================================================= *)
(** ** Objects used as dictionaries *)

(** A plain object with string values: its own properties in the order
    they were created. *)
Definition JSObject := list (jsstring * jsstring).

Fixpoint getProp (k : jsstring) (o : JSObject) : option jsstring :=
  match o with
  | [] => None
  | (k', v) :: o' => if str_eqb k' k then Some v else getProp k o'
  end.

Definition hasProp (k : jsstring) (o : JSObject) : bool :=
  match getProp k o with Some _ => true | None => false end.

(** [o[k] = v] *)
Fixpoint setProp (k v : jsstring) (o : JSObject) : JSObject :=
  match o with
  | [] => [(k, v)]
  | (k', v') :: o' =>
      if str_eqb k' k then (k', v) :: o' else (k', v') :: setProp k v o'
  end.

(** [o[k] = v] on an object whose prototype is [Object.prototype]: the
    key [__proto__] is the accessor of the prototype, which ignores a
    string, and no property is made. *)
Definition assign (k v : jsstring) (o : JSObject) : JSObject :=
  if str_eqb k (js "__proto__") then o else setProp k v o.

(** [delete o[k]] *)
Definition deleteProp (k : jsstring) (o : JSObject) : JSObject :=
  filter (fun e => negb (str_eqb (fst e) k)) o.

(** A key that is an array index: the canonical decimal form of an
    integer below [2^32 - 1]. *)
Definition arrayIndex (k : jsstring) : option N :=
  match k with
  | [] => None
  | c :: t =>
      if forallb isDigit k && negb ((c =? ch "0") && negb (isNil t))
         && (length k <=? 10)%nat && (parseRadix 10 k <? 4294967295)
      then Some (parseRadix 10 k) else None
  end.

Fixpoint insertByIndex (e : N * (jsstring * jsstring))
    (l : list (N * (jsstring * jsstring))) : list (N * (jsstring * jsstring)) :=
  match l with
  | [] => [e]
  | x :: l' => if fst e <? fst x then e :: l else x :: insertByIndex e l'
  end.

(** [Object.entries(o)]: array indices in ascending order, then the other
    keys in creation order. *)
Definition entries (o : JSObject) : list (jsstring * jsstring) :=
  map snd
    (fold_right insertByIndex []
       (flat_map (fun e => match arrayIndex (fst e) with
                           | Some i => [(i, e)]
                           | None => []
                           end) o))
  ++ filter (fun e => match arrayIndex (fst e) with
                      | Some _ => false
                      | None => true
                      end) o.

(** [Object.keys(o)] *)
Definition keys (o : JSObject) : list jsstring := map fst (entries o).

(** [Object.fromEntries(l)] *)
Definition fromEntries (l : list (jsstring * jsstring)) : JSObject :=
  fold_left (fun o e => setProp (fst e) (snd e) o) l [].

(** [Object.assign({}, o)] *)
Definition Object_assign (o : JSObject) : JSObject :=
  fold_left (fun t e => assign (fst e) (snd e) t) (entries o) [].

(** [arr.includes(x)] *)
Definition includes (l : list jsstring) (x : jsstring) : bool :=
  existsb (str_eqb x) l.

(* ================================================================= *)
(** ** JSON values *)

(** A number is kept as what the handler can observe of it: whether it is
    truthy and its [String(n)]. *)
Inductive JSON : Type :=
| JNull : JSON
| JBool : bool -> JSON
| JNumber : bool -> jsstring -> JSON
| JString : jsstring -> JSON
| JArray : list JSON -> JSON
| JObject : list (jsstring * JSON) -> JSON.

(** ToBoolean *)
Definition truthy (v : JSON) : bool :=
  match v with
  | JNull => false
  | JBool b => b
  | JNumber nonzero _ => nonzero
  | JString s => negb (isNil s)
  | JArray _ => true
  | JObject _ => true
  end.

(** ToString; an array joins its items with commas, [null] items empty. *)
Fixpoint toString (v : JSON) : jsstring :=
  match v with
  | JNull => js "null"
  | JBool true => js "true"
  | JBool false => js "false"
  | JNumber _ repr => repr
  | JString s => s
  | JArray items =>
      join (js ",")
        (map (fun i => match i with JNull => [] | _ => toString i end) items)
  | JObject _ => js "[object Object]"
  end.

(** The last member named [k]: [JSON.parse] keeps the last duplicate. *)
Fixpoint member (k : jsstring) (ms : list (jsstring * JSON)) : option JSON :=
  match ms with
  | [] => None
  | (k', v) :: ms' =>
      match member k ms' with
      | Some v' => Some v'
      | None => if str_eqb k' k then Some v else None
      end
  end.

(* ================================================================= *)
(** ** Documents *)

Inductive Node : Type :=
| Text : jsstring -> Node
| Comment : jsstring -> Node
| Directive : jsstring -> jsstring -> Node
| Element : jsstring -> JSObject -> list Node -> Node.

(** The children of the document root. *)
Definition Document := list Node.

(** Apply [f] to the attributes of every element, in place. *)
Fixpoint mapAttribs (f : jsstring -> JSObject -> JSObject) (n : Node) : Node :=
  match n with
  | Element name attribs children =>
      Element name (f name attribs) (map (mapAttribs f) children)
  | _ => n
  end.

(** Put [nodes] before the children of every element named [sel]. *)
Fixpoint prependTo (sel : jsstring) (nodes : list Node) (n : Node) : Node :=
  match n with
  | Element name attribs children =>
      Element name attribs
        ((if str_eqb name sel then nodes else [])
         ++ map (prependTo sel nodes) children)
  | _ => n
  end.

(* ================================================================= *)
(** ** Base64 *)

Definition base64Char (n : N) : N :=
  if n <? 26 then 65 + n
  else if n <? 52 then 71 + n
  else if n <? 62 then n - 4
  else if n =? 62 then ch "+" else ch "/".

Definition base64Value (c : N) : option N :=
  if isUpperAlpha c then Some (c - 65)
  else if isLowerAlpha c then Some (c - 71)
  else if isDigit c then Some (c + 4)
  else if c =? ch "+" then Some 62
  else if c =? ch "/" then Some 63
  else None.

(** [buffer.toString('base64')] *)
Fixpoint base64Encode (bs : list Byte.byte) : jsstring :=
  match bs with
  | [] => []
  | [x] =>
      let a := Byte.to_N x in
      [base64Char (a / 4); base64Char ((a mod 4) * 16); ch "="; ch "="]
  | [x; y] =>
      let a := Byte.to_N x in
      let b := Byte.to_N y in
      [base64Char (a / 4); base64Char ((a mod 4) * 16 + b / 16);
       base64Char ((b mod 16) * 4); ch "="]
  | x :: y :: z :: rest =>
      let a := Byte.to_N x in
      let b := Byte.to_N y in
      let c := Byte.to_N z in
      base64Char (a / 4) :: base64Char ((a mod 4) * 16 + b / 16)
      :: base64Char ((b mod 16) * 4 + c / 64) :: base64Char (c mod 64)
      :: base64Encode rest
  end.

Definition bytesOf (ns : list N) : option (list Byte.byte) := mapM Byte.of_N ns.

(** Base64 decoding (RFC 4648, with padding). *)
Fixpoint base64Decode (s : jsstring) : option (list Byte.byte) :=
  match s with
  | [] => Some []
  | c1 :: c2 :: c3 :: c4 :: rest =>
      match base64Value c1, base64Value c2 with
      | Some v1, Some v2 =>
          if (c3 =? ch "=") && (c4 =? ch "=") && isNil rest then
            if v2 mod 16 =? 0 then bytesOf [v1 * 4 + v2 / 16] else None
          else
            match base64Value c3 with
            | None => None
            | Some v3 =>
                if (c4 =? ch "=") && isNil rest then
                  if v3 mod 4 =? 0
                  then bytesOf [v1 * 4 + v2 / 16; (v2 mod 16) * 16 + v3 / 4]
                  else None
                else
                  match base64Value c4, base64Decode rest with
                  | Some v4, Some bs =>
                      option_map (fun g => g ++ bs)
                        (bytesOf [v1 * 4 + v2 / 16; (v2 mod 16) * 16 + v3 / 4;
                                  (v3 mod 4) * 64 + v4])
                  | _, _ => None
                  end
            end
      | _, _ => None
      end
  | _ => None
  end.

(* ================================================================= *)
(** ** The runtime around the handler *)

(** A computation that returns or throws; an exception is kept as its
    [String(err)]. *)
Inductive result (A : Type) : Type :=
| Ok : A -> result A
| Throw : jsstring -> result A.
Arguments Ok {A} _.
Arguments Throw {A} _.

Notation "'let!' x ':=' e 'in' k" :=
  (match e with Ok x => k | Throw err => Throw err end)
  (at level 10, x pattern, e at level 100, k at level 200).

(** The invocation record of the function. *)
Record Event : Type := mkEvent {
  httpMethod : option jsstring;
  queryStringParameters : option JSObject;
  headers : option JSObject;
  body : option jsstring;
  isBase64Encoded : bool }.

(** The body handed to [fetch]: the text of the event, or the buffer
    [Buffer.from(text, 'base64')], kept as its text. *)
Inductive RequestBody : Type :=
| TextBody : jsstring -> RequestBody
| Base64Body : jsstring -> RequestBody.

Record FetchRequest : Type := mkFetchRequest {
  req_url : jsstring;
  req_method : jsstring;
  req_headers : JSObject;
  req_body : option RequestBody }.

(** What [fetch] resolves to: [res_headers] lists the headers as the
    [Headers] object iterates them, their names in lower case, which is
    also where [headers.get] finds them; [res_body] is what reading the
    body gives. *)
Record FetchResponse : Type := mkFetchResponse {
  res_status : N;
  res_headers : list (jsstring * jsstring);
  res_url : jsstring;
  res_body : result (list Byte.byte) }.

(** The object the handler returns; a key that is left out is [None],
    and [false] for the flag. *)
Record Response : Type := mkResponse {
  statusCode : N;
  resp_headers : option JSObject;
  resp_body : jsstring;
  resp_isBase64Encoded : bool }.

Class Runtime : Type := {
  (** [process.env.PROXY_KEY] *)
  PROXY_KEY : option jsstring;
  (** [JSON.parse] *)
  JSON_parse : jsstring -> result JSON;
  (** [String(err)] of the TypeError of reading a property of [null] *)
  nullPropertyError : jsstring;
  (** undici's [fetch], awaited *)
  fetch : FetchRequest -> result FetchResponse;
  (** the UTF-8 decoder behind [res.text()] *)
  decodeText : list Byte.byte -> jsstring;
  (** [cheerio.load(text, { decodeEntities: false })] *)
  cheerio_load : jsstring -> Document;
  (** [$.html()] *)
  cheerio_html : Document -> jsstring }.

(* ================================================================= *)
(** ** Request Handler *)

Section Handler.
Context {U : UnicodeTables} {R : Runtime}.

(** [const API_KEY = process.env.PROXY_KEY || null] *)
Definition API_KEY : option jsstring :=
  if falsy PROXY_KEY then None else PROXY_KEY.

(** [a || b] on values that are strings when present. *)
Definition orElse (a b : option jsstring) : option jsstring :=
  if falsy a then b else a.

(** [v || d] with [d] a string that is not empty. *)
Definition orDefault (v : option jsstring) (d : jsstring) : jsstring :=
  match v with
  | Some ((_ :: _) as s) => s
  | _ => d
  end.

(** [v || ''] *)
Definition orEmpty (v : option jsstring) : jsstring :=
  match v with
  | Some ((_ :: _) as s) => s
  | _ => []
  end.

(** The table of elements and the attribute of each that holds a link. *)
Definition attrs : list (jsstring * jsstring) :=
  [ (js "a", js "href"); (js "link", js "href"); (js "script", js "src");
    (js "img", js "src"); (js "iframe", js "src"); (js "form", js "action");
    (js "source", js "src"); (js "video", js "src"); (js "audio", js "src") ].

(** [$el.attr(name, value)]: [null] removes the attribute. *)
Definition setAttr (name : jsstring) (value : option jsstring)
    (attribs : JSObject) : JSObject :=
  match value with
  | Some v => setProp name v attribs
  | None => deleteProp name attribs
  end.

(** The body of the callback of [$(sel).each] in the loop over [attrs]. *)
Definition rewriteAttr (attr baseUrl : jsstring) (attribs : JSObject)
  : JSObject :=
  let val := getProp attr attribs in
  if falsy val then attribs
  else setAttr attr (maybeRewriteUrl val baseUrl) attribs.

(** [$(sel).each(f)], [f] acting on the attributes of the element. *)
Definition each (sel : jsstring) (f : JSObject -> JSObject) (d : Document)
  : Document :=
  map (mapAttribs (fun name attribs =>
                     if str_eqb name sel then f attribs else attribs)) d.

(** [s.replace(/^\s*url=/i, '')] *)
Definition stripUrlPrefix (s : jsstring) : jsstring :=
  let s1 := dropWhile isWhiteSpace s in
  if startsWith (js "url=") (asciiLower (firstn 4 s1)) then skipn 4 s1 else s.

(** String interpolation of a value that may be [null]. *)
Definition interpolate (v : option jsstring) : jsstring :=
  match v with
  | Some s => s
  | None => js "null"
  end.

(** The body of the callback over [meta[http-equiv]]. *)
Definition rewriteMetaRefresh (baseUrl : jsstring) (attribs : JSObject)
  : JSObject :=
  let he := toLowerCase (orEmpty (getProp (js "http-equiv") attribs)) in
  if str_eqb he (js "refresh") then
    let content := orEmpty (getProp (js "content") attribs) in
    let parts := split (ch ";") content in
    match parts with
    | p0 :: _ :: parts2 =>
        let urlPart := stripUrlPrefix (join (js ";") (tl parts)) in
        let newUrl := maybeRewriteUrl (Some urlPart) baseUrl in
        let parts' := p0 :: (js "url=" ++ interpolate newUrl) :: parts2 in
        setProp (js "content") (join (js ";") parts') attribs
    | _ => attribs
    end
  else attribs.

(** The banner, as the fragment parses. *)
Definition banner : list Node :=
  [ Element (js "div")
      [ (js "id", js "proxy-banner");
        (js "style",
         js "position:fixed;left:12px;bottom:12px;z-index:999999;padding:8px 12px;background:rgba(0,0,0,0.65);color:white;border-radius:8px;font-family:Arial,Helvetica,sans-serif;font-size:13px;") ]
      [ Text ([10] ++ js "        proxied via proxy" ++ [10] ++ js "      ") ] ].

(** The HTML branch between [cheerio.load] and [$.html()]. *)
Definition rewriteDocument (baseUrl : jsstring) (d : Document) : Document :=
  let d1 :=
    fold_left (fun d e => each (fst e) (rewriteAttr (snd e) baseUrl) d)
              attrs d in
  let d2 :=
    map (mapAttribs
           (fun name attribs =>
              if str_eqb name (js "meta") && hasProp (js "http-equiv") attribs
              then rewriteMetaRefresh baseUrl attribs else attribs)) d1 in
  map (prependTo (js "body") banner) d2.

Definition droppedHeaders : list jsstring :=
  [ js "content-security-policy"; js "content-security-policy-report-only";
    js "x-frame-options"; js "set-cookie"; js "transfer-encoding" ].

(** The response headers before the content type is set. *)
Definition makeOutHeaders (res : FetchResponse) : JSObject :=
  let copied :=
    fold_left
      (fun out e =>
         if includes droppedHeaders (toLowerCase (fst e)) then out
         else assign (fst e) (snd e) out)
      (entries (fromEntries (res_headers res))) [] in
  let out1 := setProp (js "access-control-allow-origin") (js "*") copied in
  setProp (js "access-control-expose-headers") (join (js ",") (keys out1)) out1.

(** [JSON.parse(text).url]: a member of an object, nothing on another
    value, a TypeError on [null]. *)
Definition parsedUrl (text : jsstring) : result (option JSON) :=
  let! v := JSON_parse text in
  match v with
  | JNull => Throw nullPropertyError
  | JObject ms => Ok (member (js "url") ms)
  | _ => Ok None
  end.

Definition plain (status : N) (text : string) : Response :=
  mkResponse status None (js text) false.

(** [const qs = event.queryStringParameters || {}] *)
Definition qs (event : Event) : JSObject :=
  match queryStringParameters event with
  | Some o => o
  | None => []
  end.

(** [(event.headers && (event.headers['x-proxy-key'] ||
    event.headers['X-Proxy-Key'])) || ''] *)
Definition headerKey (event : Event) : jsstring :=
  orEmpty (match headers event with
           | Some h => orElse (getProp (js "x-proxy-key") h)
                              (getProp (js "X-Proxy-Key") h)
           | None => None
           end).

(** [qs.key || ''] *)
Definition qsKey (event : Event) : jsstring :=
  orEmpty (getProp (js "key") (qs event)).

(** [Object.assign({}, event.headers || {})] without [host] and [Host]. *)
Definition incomingHeaders (event : Event) : JSObject :=
  deleteProp (js "Host")
    (deleteProp (js "host")
       (Object_assign (match headers event with
                       | Some h => h
                       | None => []
                       end))).

(** The body that is forwarded: none with [GET] and [HEAD]. *)
Definition forwardedBody (event : Event) : option RequestBody :=
  match body event with
  | Some ((_ :: _) as b) =>
      if negb (match httpMethod event with
               | Some m => includes [js "GET"; js "HEAD"] m
               | None => false
               end)
      then Some (if isBase64Encoded event then Base64Body b else TextBody b)
      else None
  | _ => None
  end.

(** The handler up to its call of [fetch]: a response returned early, or
    the target and the request that is sent. *)
Definition beforeFetch (event : Event)
  : result (Response + jsstring * FetchRequest) :=
  if match httpMethod event with
     | Some m => str_eqb m (js "OPTIONS")
     | None => false
     end
  then
    Ok (inl (mkResponse 204
               (Some [ (js "access-control-allow-origin", js "*");
                       (js "access-control-allow-methods",
                        js "GET,POST,PUT,PATCH,DELETE,OPTIONS");
                       (js "access-control-allow-headers",
                        js "Content-Type,Authorization,X-Proxy-Key") ])
               [] false))
  else
    let! target :=
      match getProp (js "url") (qs event) with
      | Some ((_ :: _) as s) => Ok (Some (JString s))
      | _ =>
          match body event with
          | Some ((_ :: _) as b) => parsedUrl b
          | _ => Ok None
          end
      end in
    match target with
    | None => Ok (inl (plain 400 "Missing url parameter"))
    | Some tv =>
        if negb (truthy tv) then Ok (inl (plain 400 "Missing url parameter"))
        else
          let target := toString tv in
          if match API_KEY with
             | Some key => negb (str_eqb (headerKey event) key)
                           && negb (str_eqb (qsKey event) key)
             | None => false
             end
          then Ok (inl (plain 401 "Unauthorized: invalid proxy key"))
          else
            match URL_new target None with
            | None => Ok (inl (plain 400 "Invalid target URL"))
            | Some targetUrl =>
                if isBlockedHost (Some (hostname targetUrl))
                then Ok (inl (plain 403 "Forbidden host"))
                else
                  Ok (inr (target,
                           mkFetchRequest target
                             (orDefault (httpMethod event) (js "GET"))
                             (incomingHeaders event) (forwardedBody event)))
            end
    end.

(** The handler from the response of [fetch] on. *)
Definition afterFetch (target : jsstring) (res : FetchResponse)
  : result Response :=
  let outHeaders := makeOutHeaders res in
  let contentType :=
    orEmpty (getProp (js "content-type") (res_headers res)) in
  if isHtmlContentType (Some contentType) then
    let! bytes := res_body res in
    let doc := cheerio_load (decodeText bytes) in
    let baseUrl :=
      match res_url res with
      | [] => target
      | u => u
      end in
    let outHtml := cheerio_html (rewriteDocument baseUrl doc) in
    Ok (mkResponse (res_status res)
          (Some (setProp (js "content-type")
                   (js "text/html; charset=utf-8") outHeaders))
          outHtml false)
  else
    let! bytes := res_body res in
    Ok (mkResponse (res_status res)
          (Some (match contentType with
                 | [] => outHeaders
                 | _ => setProp (js "content-type") contentType outHeaders
                 end))
          (base64Encode bytes) true).

(** The [try] block of the handler. *)
Definition handlerBody (event : Event) : result Response :=
  let! step := beforeFetch event in
  match step with
  | inl response => Ok response
  | inr (target, request) =>
      let! res := fetch request in
      afterFetch target res
  end.

(** [exports.handler] *)
Definition handler (event : Event) : Response :=
  match handlerBody event with
  | Ok response => response
  | Throw err =>
      mkResponse 500 (Some [(js "access-control-allow-origin", js "*")])
                 (js "Proxy error: " ++ err) false
  end.

End Handler.

(* ================================================================= *)
(** ** A runtime for closed examples

    The theorems below hold for every [UnicodeTables] and every [Runtime].
    Closed examples need one of each: the tables cut down to ASCII, on
    which every instance of [UnicodeTables] computes the same, and a
    runtime whose [JSON.parse] follows the JSON grammar, whose upstream is
    a function given with it, and whose HTML parser answers with the tree
    of the one page the example is about. *)

Definition asciiOnly : UnicodeTables :=
  {| unicodeToLowerCase := asciiLower;
     unicodeDomainToASCII := fun _ => None;
     unicodeDomainToASCII_ascii :=
       fun bs d (H : None = Some d) =>
         match H in _ = x return match x with Some _ => _ | None => True end
         with eq_refl => I end |}.

(** The double quote. *)
Definition dquote : N := 34.

Definition isJsonWhitespace (c : N) : bool :=
  (c =? 9) || (c =? 10) || (c =? 13) || (c =? 32).

(** The characters of a JSON string after its opening quote. *)
Fixpoint jsonString (s : jsstring) : option (jsstring * jsstring) :=
  match s with
  | [] => None
  | c :: rest =>
      if c =? dquote then Some ([], rest)
      else if c =? ch "\" then
        match rest with
        | e :: rest1 =>
            let plainEscape (x : N) :=
              option_map (fun r => (x :: fst r, snd r)) (jsonString rest1) in
            if e =? ch "u" then
              match rest1 with
              | h1 :: h2 :: h3 :: h4 :: rest2 =>
                  match hexOctet h1 h2, hexOctet h3 h4 with
                  | Some hi, Some lo =>
                      option_map (fun r => (hi * 256 + lo :: fst r, snd r))
                                 (jsonString rest2)
                  | _, _ => None
                  end
              | _ => None
              end
            else if e =? ch "b" then plainEscape 8
            else if e =? ch "f" then plainEscape 12
            else if e =? ch "n" then plainEscape 10
            else if e =? ch "r" then plainEscape 13
            else if e =? ch "t" then plainEscape 9
            else if (e =? dquote) || (e =? ch "\") || (e =? ch "/")
            then plainEscape e
            else None
        | [] => None
        end
      else if c <? 32 then None
      else option_map (fun r => (c :: fst r, snd r)) (jsonString rest)
  end.

Fixpoint span {A} (p : A -> bool) (l : list A) : list A * list A :=
  match l with
  | [] => ([], [])
  | x :: l' =>
      if p x then let '(a, b) := span p l' in (x :: a, b) else ([], l)
  end.

(** A JSON number: its token is kept as the text of the number, which is
    exact for an integer written plainly. *)
Definition jsonNumber (s : jsstring) : option (JSON * jsstring) :=
  let '(sign, s1) :=
    match s with
    | c :: t => if c =? ch "-" then ([c], t) else ([], s)
    | [] => ([], s)
    end in
  let '(int, s2) := span isDigit s1 in
  match int with
  | [] => None
  | d :: ds =>
      if (d =? ch "0") && negb (isNil ds) then None
      else
        let '(frac, s3) :=
          match s2 with
          | c :: t => if c =? ch "." then
                        let '(f, r) := span isDigit t in (c :: f, r)
                      else ([], s2)
          | [] => ([], s2)
          end in
        if (length frac =? 1)%nat then None
        else
          let '(exp, s4) :=
            match s3 with
            | c :: t =>
                if (c =? ch "e") || (c =? ch "E") then
                  let '(sg, t1) :=
                    match t with
                    | x :: t' => if (x =? ch "+") || (x =? ch "-")
                                 then ([x], t') else ([], t)
                    | [] => ([], t)
                    end in
                  let '(e, r) := span isDigit t1 in
                  (Some (c :: sg ++ e, isNil e), r)
                else (None, s3)
            | [] => (None, s3)
            end in
          match exp with
          | Some (_, true) => None
          | _ =>
              let nonzero :=
                existsb (fun c => negb (c =? ch "0")) (int ++ tl frac) in
              Some (JNumber nonzero
                      ((if nonzero then sign else []) ++ int ++ frac
                       ++ match exp with Some (t, _) => t | None => [] end),
                    s4)
          end
  end.

Definition skipWhitespace (s : jsstring) : jsstring :=
  dropWhile isJsonWhitespace s.

(** A JSON value at the head of [s]; [fuel] bounds the nesting. *)
Fixpoint jsonValue (fuel : nat) (s : jsstring) : option (JSON * jsstring) :=
  match fuel with
  | O => None
  | S fuel' =>
      let fix items (n : nat) (s : jsstring) {struct n}
        : option (list JSON * jsstring) :=
        match n with
        | O => None
        | S n' =>
            match jsonValue fuel' (skipWhitespace s) with
            | None => None
            | Some (v, r) =>
                match skipWhitespace r with
                | c :: r' =>
                    if c =? ch "," then
                      option_map (fun x => (v :: fst x, snd x)) (items n' r')
                    else if c =? ch "]" then Some ([v], r')
                    else None
                | [] => None
                end
            end
        end in
      let fix members (n : nat) (s : jsstring) {struct n}
        : option (list (jsstring * JSON) * jsstring) :=
        match n with
        | O => None
        | S n' =>
            match skipWhitespace s with
            | q :: s1 =>
                if q =? dquote then
                  match jsonString s1 with
                  | None => None
                  | Some (k, s2) =>
                      match skipWhitespace s2 with
                      | c :: s3 =>
                          if c =? ch ":" then
                            match jsonValue fuel' (skipWhitespace s3) with
                            | None => None
                            | Some (v, r) =>
                                match skipWhitespace r with
                                | c' :: r' =>
                                    if c' =? ch "," then
                                      option_map
                                        (fun x => ((k, v) :: fst x, snd x))
                                        (members n' r')
                                    else if c' =? ch "}"
                                    then Some ([(k, v)], r')
                                    else None
                                | [] => None
                                end
                            end
                          else None
                      | [] => None
                      end
                  end
                else None
            | [] => None
            end
        end in
      match s with
      | [] => None
      | c :: rest =>
          if c =? dquote then
            option_map (fun r => (JString (fst r), snd r)) (jsonString rest)
          else if c =? ch "[" then
            match skipWhitespace rest with
            | c' :: r' =>
                if c' =? ch "]" then Some (JArray [], r')
                else option_map (fun x => (JArray (fst x), snd x))
                                (items (length rest) rest)
            | [] => None
            end
          else if c =? ch "{" then
            match skipWhitespace rest with
            | c' :: r' =>
                if c' =? ch "}" then Some (JObject [], r')
                else option_map (fun x => (JObject (fst x), snd x))
                                (members (length rest) rest)
            | [] => None
            end
          else if startsWith (js "true") s then Some (JBool true, skipn 4 s)
          else if startsWith (js "false") s then Some (JBool false, skipn 5 s)
          else if startsWith (js "null") s then Some (JNull, skipn 4 s)
          else jsonNumber s
      end
  end.

Definition jsonParse (text : jsstring) : result JSON :=
  match jsonValue (S (length text)) (skipWhitespace text) with
  | Some (v, rest) =>
      if isNil (skipWhitespace rest) then Ok v
      else Throw (js "SyntaxError: Unexpected non-whitespace character after JSON")
  | None => Throw (js "SyntaxError: Unexpected token in JSON")
  end.

(** Elements written without an end tag. *)
Definition voidElements : list jsstring :=
  [ js "area"; js "base"; js "br"; js "col"; js "embed"; js "hr"; js "img";
    js "input"; js "link"; js "meta"; js "source"; js "track"; js "wbr" ].

(** The markup of a tree, texts and attribute values written as they
    are. *)
Fixpoint outerHTML (n : Node) : jsstring :=
  match n with
  | Text t => t
  | Comment c => js "<!--" ++ c ++ js "-->"
  | Directive _ data => js "<" ++ data ++ js ">"
  | Element name attribs children =>
      js "<" ++ name
      ++ flat_map (fun a => js " " ++ fst a ++ js "=" ++ [dquote] ++ snd a
                            ++ [dquote]) attribs
      ++ js ">"
      ++ (if includes voidElements name then []
          else flat_map outerHTML children ++ js "</" ++ name ++ js ">")
  end.

(** The runtime of the examples: the key, the upstream, and the tree of
    the page that the upstream serves. *)
Definition exampleRuntime (key : option jsstring)
    (upstream : FetchRequest -> result FetchResponse) (page : Document)
  : Runtime :=
  {| PROXY_KEY := key;
     JSON_parse := jsonParse;
     nullPropertyError :=
       js "TypeError: Cannot read properties of null (reading 'url')";
     fetch := upstream;
     decodeText := map Byte.to_N;
     cheerio_load := fun _ => page;
     cheerio_html := flat_map outerHTML |}.

(** A page with a link that is rewritten, a fragment link, an image whose
    address does not resolve, and a timed redirection. *)
Definition samplePage : Document :=
  [ Directive (js "!doctype") (js "!DOCTYPE html");
    Element (js "html") []
      [ Element (js "head") []
          [ Element (js "meta")
              [ (js "http-equiv", js "Refresh");
                (js "content", js "5; URL=next.html") ] [] ];
        Element (js "body") []
          [ Element (js "a") [(js "href", js "/about")] [Text (js "About")];
            Element (js "a") [(js "href", js "#top")] [Text (js "Top")];
            Element (js "img") [(js "src", js "http://"); (js "alt", js "x")]
              [] ] ] ].

(** An upstream that serves [samplePage] at every address, with a policy
    header and a cookie. *)
Definition sampleUpstream (request : FetchRequest) : result FetchResponse :=
  Ok (mkFetchResponse 200
        [ (js "content-security-policy", js "default-src 'none'");
          (js "content-type", js "text/html; charset=iso-8859-1");
          (js "set-cookie", js "id=1");
          (js "x-powered-by", js "php") ]
        (req_url request)
        (Ok (flat_map (fun c => match Byte.of_N c with
                                | Some b => [b]
                                | None => []
                                end)
                      (flat_map outerHTML samplePage)))).

(** No key, no network, an empty page. *)
Definition offlineRuntime : Runtime :=
  exampleRuntime None (fun _ => Throw (js "TypeError: fetch failed")) [].

(* ================================================================= *)
(** * Notions of the specification and of the proofs *)

(* ================================================================= *)
(** ** The Host Guard as section 4.1 words it *)

Definition hasPrefix (p s : jsstring) : Prop := exists r, s = p ++ r.
Definition hasSuffix (p s : jsstring) : Prop := exists r, s = r ++ p.

(** Section 4.1 of the specification, clause by clause. *)
Definition blockedBySpec (hostname : option jsstring) : Prop :=
  match hostname with
  | None => True
  | Some h =>
      h = []
      \/ asciiLower h = js "localhost"
      \/ hasPrefix (js "127.") h
      \/ hasPrefix (js "10.") h
      \/ hasPrefix (js "192.168.") h
      \/ (exists octet, 16 <= octet <= 31
                        /\ hasPrefix (js "172." ++ showDec octet ++ js ".") h)
      \/ hasSuffix (js ".local") (asciiLower h)
      \/ hasPrefix (js "0.") h
  end.

(* ================================================================= *)
(** ** The language of a regular expression *)

Inductive matches : regex -> jsstring -> Prop :=
| MEps : matches REps []
| MSet : forall (p : N -> bool) c, p c = true -> matches (RSet p) [c]
| MCat : forall a b s t, matches a s -> matches b t -> matches (RCat a b) (s ++ t)
| MAltL : forall a b s, matches a s -> matches (RAlt a b) s
| MAltR : forall a b s, matches b s -> matches (RAlt a b) s
| MStar0 : forall a, matches (RStar a) []
| MStarS : forall a c s t,
    matches a (c :: s) -> matches (RStar a) t -> matches (RStar a) (c :: s ++ t).

(* ================================================================= *)
(** ** What the URL parser guarantees of a record *)

Definition ascii_str (s : list N) : Prop := Forall (fun c => c < 128) s.

Definition ascii_opt (o : option (list N)) : Prop :=
  match o with Some s => ascii_str s | None => True end.

Definition ascii_path (p : URLPath) : Prop :=
  match p with
  | OpaquePath s => ascii_str s
  | ListPath l => Forall ascii_str l
  end.

Definition ascii_host (h : option Host) : Prop :=
  match h with Some x => ascii_str (hostSerialize x) | None => True end.

(** A scheme: an ASCII letter, then letters, digits, [+], [-] and [.]. *)
Definition validScheme (s : list N) : bool :=
  match s with
  | [] => false
  | c :: t =>
      isAlpha c
      && forallb (fun c => isAlnum c || (c =? ch "+") || (c =? ch "-")
                           || (c =? ch ".")) t
  end.

Record url_ok (u : URLRecord) : Prop := mk_url_ok {
  ok_scheme : validScheme (url_scheme u) = true;
  ok_username : ascii_str (url_username u);
  ok_password : ascii_str (url_password u);
  ok_host : ascii_host (url_host u);
  ok_path : ascii_path (url_path u);
  ok_query : ascii_opt (url_query u);
  ok_fragment : ascii_opt (url_fragment u) }.

(** Every percent-encode set of the URL Standard holds all of non-ASCII. *)
Definition coversNonAscii (set : N -> bool) : Prop :=
  forall c, set c = false -> c < 128.

(** A record all of whose components but the scheme are as they should. *)
Definition rest_ok (u : URLRecord) : Prop :=
  forall x, validScheme x = true -> url_ok (set_scheme u x).

Definition schemeChar (c : N) : bool :=
  isAlnum c || (c =? ch "+") || (c =? ch "-") || (c =? ch ".").

(* ================================================================= *)
(** ** [encodeURIComponent] on ASCII *)

(** What an encoded component is made of: unescaped characters and
    escapes. *)
Definition encodedUnit (c : N) : bool :=
  uriUnescaped c || (c =? ch "%") || isHexDigit c.

(* ================================================================= *)
(** ** Specification-side notions for the URL Rewriter *)

(** A non-navigable value: its trimmed, lower-cased form starts with
    [data:], [javascript:], [mailto:] or [#]. *)
Definition nonNavigable {U : UnicodeTables} (s : jsstring) : bool :=
  let v := toLowerCase (trim s) in
  startsWith (js "data:") v || startsWith (js "javascript:") v
  || startsWith (js "mailto:") v || startsWith (js "#") v.

(** The target a proxy-relative link carries: the value of its [url]
    query parameter, percent-decoded. *)
Definition embeddedTarget (link : jsstring) : option jsstring :=
  if startsWith proxyPrefix link
  then decodeURIComponent
         (fst (breakAt (ch "&") (skipn (length proxyPrefix) link)))
  else None.

(** An absolute URL string: a scheme, a colon, and the rest. *)
Definition isAbsoluteURL (s : jsstring) : Prop :=
  exists scheme rest, s = scheme ++ js ":" ++ rest /\ validScheme scheme = true.

(* ================================================================= *)
(** ** What proxy links are made of *)

(** Printable ASCII: what proxy links are made of. *)
Definition printable (s : list N) : Prop := Forall (fun c => 32 < c < 127) s.

Definition proxyPath : list N := js ".netlify/functions/proxy".

(* ================================================================= *)
(** ** Documents *)

(** The values of the link-bearing attributes of an element, after the
    table [attrs]. *)
Definition linkValuesOf (name : jsstring) (attribs : JSObject) : list jsstring :=
  flat_map (fun p => if str_eqb name (fst p)
                     then match getProp (snd p) attribs with
                          | Some v => [v]
                          | None => []
                          end
                     else []) attrs.

(** What [f] finds on the elements of a tree, in document order. *)
Fixpoint collect {A} (f : jsstring -> JSObject -> list A) (n : Node) : list A :=
  match n with
  | Element name attribs children =>
      f name attribs ++ flat_map (collect f) children
  | _ => []
  end.

(** The values of the link-bearing attributes of a document. *)
Definition linkValues (d : Document) : list jsstring :=
  flat_map (collect linkValuesOf) d.

Section NodeInduction.
Variable P : Node -> Prop.
Hypothesis Htext : forall s, P (Text s).
Hypothesis Hcomment : forall s, P (Comment s).
Hypothesis Hdirective : forall n s, P (Directive n s).
Hypothesis Helement :
  forall name attribs children,
    Forall P children -> P (Element name attribs children).

Fixpoint Node_induction (n : Node) : P n :=
  match n with
  | Text s => Htext s
  | Comment s => Hcomment s
  | Directive a s => Hdirective a s
  | Element name attribs children =>
      Helement name attribs children
        ((fix all (l : list Node) : Forall P l :=
            match l with
            | [] => Forall_nil P
            | x :: l' => Forall_cons x (Node_induction x) (all l')
            end) children)
  end.
End NodeInduction.

(** What the loop over [attrs] does to the attributes of one element. *)
Definition rewriteAttrs {U : UnicodeTables} (baseUrl name : jsstring) (attribs : JSObject) : JSObject :=
  fold_left (fun a e => if str_eqb name (fst e)
                        then rewriteAttr (snd e) baseUrl a else a)
            attrs attribs.

(** The meta-refresh pass, on the attributes of one element. *)
Definition rewriteMeta {U : UnicodeTables} (baseUrl name : jsstring) (attribs : JSObject) : JSObject :=
  if str_eqb name (js "meta") && hasProp (js "http-equiv") attribs
  then rewriteMetaRefresh baseUrl attribs else attribs.

(* ================================================================= *)
(** ** Responses *)

(** The header that opens a response to every origin. *)
Definition allowsAnyOrigin (r : Response) : Prop :=
  exists h, resp_headers r = Some h
            /\ getProp (js "access-control-allow-origin") h = Some (js "*").

(* ================================================================= *)
(** ** The Host Guard on IP addresses *)

(** The private, loopback and "this network" IPv4 ranges: 0.0.0.0/8,
    10.0.0.0/8, 127.0.0.0/8, 172.16.0.0/12 and 192.168.0.0/16. *)
Definition privateIPv4 (a : N) : Prop :=
  let o1 := a / 16777216 in
  let o2 := (a / 65536) mod 256 in
  o1 = 0 \/ o1 = 10 \/ o1 = 127 \/ (o1 = 192 /\ o2 = 168)
  \/ (o1 = 172 /\ 16 <= o2 <= 31).

(* ================================================================= *)
(** ** The target named in the body *)



(* ================================================================= *)
(** ** What the rewriting leaves as it is *)

(** The attributes whose value the rewriting may change: the
    link-bearing attribute of an element of the table, and [content] of
    a [meta] element. *)
Definition isRewritable (name attr : jsstring) : bool :=
  existsb (fun e => str_eqb name (fst e) && str_eqb attr (snd e)) attrs
  || (str_eqb name (js "meta") && str_eqb attr (js "content")).

(** The attributes of an element, the values that may change blanked. *)
Definition blankRewritable (name : jsstring) (attribs : JSObject) : JSObject :=
  map (fun a => if isRewritable name (fst a) then (fst a, []) else a) attribs.

(* ================================================================= *)
(** ** The request that passes the guards *)

(** The answer of the [catch] clause. *)
Definition proxyError (err : jsstring) : Response :=
  mkResponse 500 (Some [(js "access-control-allow-origin", js "*")])
             (js "Proxy error: " ++ err) false.

(* ================================================================= *)
(** * Lemmas and theorems *)

Ltac Zify.zify_post_hook ::= Z.to_euclidean_division_equations.

(* ================================================================= *)
(** ** Regular expressions: the language of a pattern *)

Lemma matches_star_app a s t :
  matches a s -> matches (RStar a) t -> matches (RStar a) (s ++ t).
Proof.
  destruct s as [|c s]; intros Hs Ht; [exact Ht|].
  now apply MStarS.
Qed.

Lemma matches_none_inv u : matches RNone u -> False.
Proof. intros H; inversion H. Qed.

Lemma matches_eps_inv u : matches REps u -> u = [].
Proof. intros H; inversion H; reflexivity. Qed.

Lemma matches_set_inv p u : matches (RSet p) u -> exists c, u = [c] /\ p c = true.
Proof. intros H; inversion H; subst; eauto. Qed.

Lemma matches_cat_inv a b u :
  matches (RCat a b) u -> exists s t, u = s ++ t /\ matches a s /\ matches b t.
Proof. intros H; inversion H; subst; eauto. Qed.

Lemma matches_alt_inv a b u : matches (RAlt a b) u -> matches a u \/ matches b u.
Proof. intros H; inversion H; subst; auto. Qed.

Lemma matches_star_inv a u :
  matches (RStar a) u ->
  u = [] \/ exists c s t, u = c :: s ++ t /\ matches a (c :: s) /\ matches (RStar a) t.
Proof. intros H; inversion H; subst; eauto 7. Qed.

Lemma nullable_matches r : nullable r = true <-> matches r [].
Proof.
  induction r; simpl; split; intros H.
  - discriminate.
  - now apply matches_none_inv in H.
  - constructor.
  - reflexivity.
  - discriminate.
  - apply matches_set_inv in H as (c & E & _). discriminate.
  - apply andb_true_iff in H as [H1 H2].
    change (@nil N) with (@nil N ++ []). constructor; [apply IHr1|apply IHr2]; auto.
  - apply matches_cat_inv in H as (s & t & E & Hs & Ht).
    symmetry in E. apply app_eq_nil in E as [-> ->].
    apply andb_true_iff; split; [apply IHr1|apply IHr2]; auto.
  - apply orb_true_iff in H as [H|H]; [apply MAltL, IHr1|apply MAltR, IHr2]; auto.
  - apply orb_true_iff.
    apply matches_alt_inv in H as [H|H]; [left; apply IHr1|right; apply IHr2]; auto.
  - constructor.
  - reflexivity.
Qed.

Lemma deriv_matches r : forall c s, matches (deriv c r) s <-> matches r (c :: s).
Proof.
  induction r; intros c s; simpl.
  - split; intros H; now apply matches_none_inv in H.
  - split; intros H; [now apply matches_none_inv in H|].
    apply matches_eps_inv in H. discriminate.
  - destruct (b c) eqn:E; split; intros H.
    + apply matches_eps_inv in H. subst. now constructor.
    + apply matches_set_inv in H as (c' & E' & _). injection E' as <- ->. constructor.
    + now apply matches_none_inv in H.
    + apply matches_set_inv in H as (c' & E' & Hp). injection E' as <- ->. congruence.
  - assert (Hcat : forall t, matches (RCat (deriv c r1) r2) t -> matches (RCat r1 r2) (c :: t)).
    { intros t H. apply matches_cat_inv in H as (s1 & t1 & -> & Hs & Ht).
      change (c :: s1 ++ t1) with ((c :: s1) ++ t1).
      constructor; auto. now apply IHr1. }
    assert (Hinv : matches (RCat r1 r2) (c :: s) ->
                   (matches r1 [] /\ matches r2 (c :: s))
                   \/ matches (RCat (deriv c r1) r2) s).
    { intros H. apply matches_cat_inv in H as (s1 & t1 & E & Hs & Ht).
      destruct s1 as [|c1 s1]; simpl in E.
      - subst t1. now left.
      - injection E as <- ->. right. constructor; auto. now apply IHr1. }
    destruct (nullable r1) eqn:E; split; intros H.
    + apply matches_alt_inv in H as [H|H]; [now apply Hcat|].
      change (c :: s) with ([] ++ c :: s). constructor.
      * now apply nullable_matches.
      * now apply IHr2.
    + apply Hinv in H as [[_ H]|H]; [apply MAltR; now apply IHr2|now apply MAltL].
    + now apply Hcat.
    + apply Hinv in H as [[H _]|H]; [|exact H].
      apply nullable_matches in H. congruence.
  - split; intros H.
    + apply matches_alt_inv in H as [H|H]; [apply MAltL, IHr1|apply MAltR, IHr2]; auto.
    + apply matches_alt_inv in H as [H|H]; [apply MAltL, IHr1|apply MAltR, IHr2]; auto.
  - split; intros H.
    + apply matches_cat_inv in H as (s1 & t1 & -> & Hs & Ht).
      apply MStarS; auto. now apply IHr.
    + apply matches_star_inv in H as [H|(c' & s1 & t1 & E & Hs & Ht)]; [discriminate|].
      injection E as <- ->. constructor; auto. now apply IHr.
Qed.

Lemma matchb_matches s : forall r, matchb r s = true <-> matches r s.
Proof.
  induction s as [|c s IH]; intros r; simpl.
  - apply nullable_matches.
  - rewrite IH. apply deriv_matches.
Qed.

Lemma matches_rany s : matches rany s.
Proof.
  induction s as [|c s IH]; [constructor|].
  change (c :: s) with (c :: [] ++ s). apply MStarS; [now constructor|exact IH].
Qed.

Lemma matches_rlit l s : matches (rlit l) s <-> s = map ch l.
Proof.
  revert s; induction l as [|a l IH]; intros s; simpl; split; intros H.
  - now apply matches_eps_inv in H.
  - subst. constructor.
  - apply matches_cat_inv in H as (s1 & t1 & -> & Hs & Ht).
    apply matches_set_inv in Hs as (c & -> & Hc).
    apply N.eqb_eq in Hc. subst c. apply IH in Ht. now subst.
  - subst. change (ch a :: map ch l) with ([ch a] ++ map ch l).
    constructor; [constructor; apply N.eqb_refl|now apply IH].
Qed.

Lemma matches_rlit_i l s :
  matches (rlit_i l) s <-> map asciiUpperUnit s = map asciiUpperUnit (map ch l).
Proof.
  revert s; induction l as [|a l IH]; intros s; simpl; split; intros H.
  - apply matches_eps_inv in H. now subst.
  - destruct s; [constructor|discriminate].
  - apply matches_cat_inv in H as (s1 & t1 & -> & Hs & Ht).
    apply matches_set_inv in Hs as (c & -> & Hc).
    apply N.eqb_eq in Hc. apply IH in Ht. simpl. now rewrite Hc, Ht.
  - destruct s as [|c s]; [discriminate|]. simpl in H. injection H as Hc Hs.
    change (c :: s) with ([c] ++ s).
    constructor; [constructor; now apply N.eqb_eq|now apply IH].
Qed.

Lemma upper_eq_lower_eq c d :
  asciiUpperUnit c = asciiUpperUnit d <-> asciiLowerUnit c = asciiLowerUnit d.
Proof.
  unfold asciiUpperUnit, asciiLowerUnit, isLowerAlpha, isUpperAlpha.
  destruct (97 <=? c) eqn:E1, (c <=? 122) eqn:E2, (97 <=? d) eqn:E3,
           (d <=? 122) eqn:E4, (65 <=? c) eqn:E5, (c <=? 90) eqn:E6,
           (65 <=? d) eqn:E7, (d <=? 90) eqn:E8; simpl;
    rewrite ?N.leb_le, ?N.leb_gt in *; lia.
Qed.

Lemma map_upper_eq_lower_eq s t :
  map asciiUpperUnit s = map asciiUpperUnit t <-> asciiLower s = asciiLower t.
Proof.
  unfold asciiLower. revert t; induction s as [|c s IH]; intros [|d t]; simpl;
    split; intros H; try discriminate; try reflexivity;
    injection H as H1 H2; f_equal;
    try (now apply upper_eq_lower_eq); now apply IH.
Qed.

Lemma test_anchored r s : test (mkRegExp true r true) s = true <-> matches r s.
Proof.
  unfold test; simpl. rewrite matchb_matches. split; intros H.
  - apply matches_cat_inv in H as (s1 & t1 & -> & Hs & Ht).
    apply matches_eps_inv in Hs. subst s1.
    apply matches_cat_inv in Ht as (s2 & t2 & -> & Hs & Ht).
    apply matches_eps_inv in Ht. subst t2. now rewrite app_nil_r.
  - change s with ([] ++ s). constructor; [constructor|].
    rewrite <- (app_nil_r s). constructor; [exact H|constructor].
Qed.

Lemma test_prefix r s :
  test (mkRegExp true r false) s = true <-> exists p q, s = p ++ q /\ matches r p.
Proof.
  unfold test; simpl. rewrite matchb_matches. split; intros H.
  - apply matches_cat_inv in H as (s1 & t1 & -> & Hs & Ht).
    apply matches_eps_inv in Hs. subst s1.
    apply matches_cat_inv in Ht as (s2 & t2 & -> & Hs & Ht).
    exists s2, t2. split; [reflexivity|assumption].
  - destruct H as (p & q & -> & H).
    change (p ++ q) with ([] ++ p ++ q). constructor; [constructor|].
    constructor; [exact H|apply matches_rany].
Qed.

Lemma test_suffix r s :
  test (mkRegExp false r true) s = true <-> exists p q, s = p ++ q /\ matches r q.
Proof.
  unfold test; simpl. rewrite matchb_matches. split; intros H.
  - apply matches_cat_inv in H as (s1 & t1 & -> & Hs & Ht).
    apply matches_cat_inv in Ht as (s2 & t2 & -> & Hs2 & Ht).
    apply matches_eps_inv in Ht. subst t2. rewrite app_nil_r.
    exists s1, s2. split; [reflexivity|assumption].
  - destruct H as (p & q & -> & H).
    constructor; [apply matches_rany|].
    rewrite <- (app_nil_r q). constructor; [exact H|constructor].
Qed.

Lemma test_literal_prefix l s :
  test (mkRegExp true (lit l) false) s = true <-> hasPrefix (js l) s.
Proof.
  rewrite test_prefix. unfold lit, hasPrefix, js. split.
  - intros (p & q & -> & H). apply matches_rlit in H. subst. now exists q.
  - intros (r & ->). exists (map ch (list_ascii_of_string l)), r.
    split; [reflexivity|now apply matches_rlit].
Qed.

Lemma asciiLower_app s t : asciiLower (s ++ t) = asciiLower s ++ asciiLower t.
Proof. apply map_app. Qed.

Lemma asciiLower_split s p q :
  asciiLower s = p ++ q ->
  exists s1 s2, s = s1 ++ s2 /\ asciiLower s1 = p /\ asciiLower s2 = q.
Proof.
  unfold asciiLower. intros H. apply map_eq_app in H as (s1 & s2 & -> & <- & <-).
  exists s1, s2. repeat split.
Qed.

Lemma matches_two r1 r2 s :
  matches (RCat (RSet r1) (RSet r2)) s ->
  exists a b, s = [a; b] /\ r1 a = true /\ r2 b = true.
Proof.
  intros H. apply matches_cat_inv in H as (s1 & t1 & -> & Hs & Ht).
  apply matches_set_inv in Hs as (a & -> & Ha).
  apply matches_set_inv in Ht as (b & -> & Hb).
  exists a, b. split; [reflexivity|split; assumption].
Qed.

Lemma N_range_In lo n b :
  lo <= b < lo + N.of_nat n ->
  In b (map (fun k => lo + N.of_nat k) (seq 0 n)).
Proof.
  intros H. apply in_map_iff. exists (N.to_nat (b - lo)). split; [lia|].
  apply in_seq. lia.
Qed.

Ltac enumerate b lo n :=
  let H := fresh "H" in
  assert (H : In b (map (fun k => lo + N.of_nat k) (seq 0 n)))
    by (apply N_range_In; lia);
  simpl in H; repeat (destruct H as [<-|H]; [|]); [..|contradiction].

Lemma matches_privateClassB p :
  matches privateClassB p <->
  exists octet, 16 <= octet <= 31 /\ p = js "172." ++ showDec octet ++ js ".".
Proof.
  split.
  - intros H. unfold privateClassB in H.
    apply matches_cat_inv in H as (s1 & t1 & -> & Hs & Ht).
    apply matches_rlit in Hs. subst s1.
    apply matches_cat_inv in Ht as (s2 & t2 & -> & Hs & Ht).
    apply matches_set_inv in Ht as (c & -> & Hc). apply N.eqb_eq in Hc. subst c.
    apply matches_alt_inv in Hs as [Hs|Hs];
      [|apply matches_alt_inv in Hs as [Hs|Hs]];
      apply matches_two in Hs as (a & b & -> & Ha & Hb);
      apply N.eqb_eq in Ha; apply andb_true_iff in Hb as [Hb1 Hb2];
      apply N.leb_le in Hb1, Hb2; subst a; vm_compute ch in Hb1, Hb2.
    + enumerate b 54 4%nat;
        [exists 16|exists 17|exists 18|exists 19]; (split; [lia|reflexivity]).
    + enumerate b 48 10%nat;
        [exists 20|exists 21|exists 22|exists 23|exists 24|exists 25|exists 26
        |exists 27|exists 28|exists 29]; (split; [lia|reflexivity]).
    + enumerate b 48 2%nat; [exists 30|exists 31]; (split; [lia|reflexivity]).
  - intros (octet & Hr & ->).
    enumerate octet 16 16%nat; apply matchb_matches; reflexivity.
Qed.

(* ================================================================= *)
(** ** The Host Guard *)

(** C2. The Host Guard blocks the eight listed hosts and the empty or
    absent hostname, lets the four listed public hosts through, and on
    every hostname decides exactly as the pattern list of section 4.1:
    [localhost] in any case, the prefixes [127.], [10.], [192.168.] and
    [0.], [172.] followed by a second octet from 16 to 31 and a dot, and
    the suffix [.local] in any case. *)
Theorem isBlockedHost_matches_pattern_list :
  Forall (fun h => isBlockedHost (Some (js h)) = true)
    ["localhost"; "127.0.0.1"; "10.0.0.5"; "192.168.1.1"; "172.16.0.1";
     "172.31.255.255"; "foo.local"; "0.0.0.0"]%string
  /\ isBlockedHost None = true
  /\ isBlockedHost (Some []) = true
  /\ Forall (fun h => isBlockedHost (Some (js h)) = false)
       ["example.com"; "8.8.8.8"; "172.32.0.1"; "172.15.0.1"]%string
  /\ (forall hostname, isBlockedHost hostname = true <-> blockedBySpec hostname).
Proof.
  split; [repeat constructor|].
  split; [reflexivity|]. split; [reflexivity|].
  split; [repeat constructor|].
  intros [[|c s]|]; simpl; [tauto| |tauto].
  unfold BLOCKED_HOST_PATTERNS, existsb.
  rewrite orb_false_r, !orb_true_iff.
  rewrite test_anchored, !test_literal_prefix, test_prefix, test_suffix.
  unfold lit_i. rewrite matches_rlit_i, map_upper_eq_lower_eq.
  change (asciiLower (map ch (list_ascii_of_string "localhost")))
    with (js "localhost").
  assert (H172 : (exists p q, c :: s = p ++ q /\ matches privateClassB p) <->
                 (exists octet, 16 <= octet <= 31
                    /\ hasPrefix (js "172." ++ showDec octet ++ js ".") (c :: s))).
  { split.
    - intros (p & q & E & H). apply matches_privateClassB in H as (o & Ho & ->).
      exists o. split; [exact Ho|]. exists q. exact E.
    - intros (o & Ho & q & E).
      exists (js "172." ++ showDec o ++ js "."), q. split; [exact E|].
      apply matches_privateClassB. now exists o. }
  assert (Hloc : (exists p q, c :: s = p ++ q
                   /\ matches (rlit_i (list_ascii_of_string ".local")) q) <->
                 hasSuffix (js ".local") (asciiLower (c :: s))).
  { split.
    - intros (p & q & E & H). apply matches_rlit_i, map_upper_eq_lower_eq in H.
      exists (asciiLower p). rewrite E, asciiLower_app. f_equal. exact H.
    - intros (r & E). apply asciiLower_split in E as (s1 & s2 & E & H1 & H2).
      exists s1, s2. split; [exact E|].
      apply matches_rlit_i, map_upper_eq_lower_eq. exact H2. }
  rewrite H172, Hloc.
  split; [intros H; right|intros [H|H]; [discriminate|]]; tauto.
Qed.

(* ================================================================= *)
(** ** Percent-encoding round trip *)

Ltac decide_tests :=
  repeat match goal with
    | |- context [?a <? ?b] =>
        first [ rewrite (proj2 (N.ltb_lt a b)) by lia
              | rewrite (proj2 (N.ltb_ge a b)) by lia ]
    | |- context [?a <=? ?b] =>
        first [ rewrite (proj2 (N.leb_le a b)) by lia
              | rewrite (proj2 (N.leb_gt a b)) by lia ]
    | |- context [?a =? ?b] =>
        first [ rewrite (proj2 (N.eqb_eq a b)) by lia
              | rewrite (proj2 (N.eqb_neq a b)) by lia ]
    end.

Lemma hexValue_hexDigitUpper n : n < 16 -> hexValue (hexDigitUpper n) = Some n.
Proof. intros H. enumerate n 0 16%nat; reflexivity. Qed.

Lemma hexOctet_percent b :
  b < 256 -> hexOctet (hexDigitUpper (b / 16)) (hexDigitUpper (b mod 16)) = Some b.
Proof.
  intros H. unfold hexOctet.
  rewrite !hexValue_hexDigitUpper by lia. f_equal. lia.
Qed.

Lemma decodeFrom_lead b acc lo r :
  b < 256 ->
  decodeFrom 0 acc lo (percentOctet b ++ r) =
  if b <? 128 then option_map (cons b) (decodeFrom 0 0 0 r)
  else if b <? 192 then None
  else if b <? 224 then decodeFrom 1 (b - 192) 128 r
  else if b <? 240 then decodeFrom 2 (b - 224) 2048 r
  else if b <? 248 then decodeFrom 3 (b - 240) 65536 r
  else None.
Proof.
  intros H. unfold percentOctet. cbn [app decodeFrom].
  rewrite N.eqb_refl, hexOctet_percent by exact H. reflexivity.
Qed.

Lemma decodeFrom_continuation p b acc lo r :
  128 <= b < 192 ->
  decodeFrom (S p) acc lo (percentOctet b ++ r) =
  match p with
  | O =>
      if (lo <=? acc * 64 + (b - 128)) && negb (isSurrogate (acc * 64 + (b - 128)))
         && (acc * 64 + (b - 128) <=? 1114111)
      then option_map (app (utf16Encode (acc * 64 + (b - 128)))) (decodeFrom 0 0 0 r)
      else None
  | S _ => decodeFrom p (acc * 64 + (b - 128)) lo r
  end.
Proof.
  intros H. unfold percentOctet. cbn [app decodeFrom].
  rewrite N.eqb_refl, hexOctet_percent by lia.
  decide_tests. reflexivity.
Qed.

Lemma percentOctets_cons b bs r :
  percentOctets (b :: bs) ++ r = percentOctet b ++ percentOctets bs ++ r.
Proof. unfold percentOctets. cbn [flat_map]. now rewrite <- app_assoc. Qed.

(** Decoding the escapes of one scalar value gives back its UTF-16 form. *)
Lemma decodeFrom_scalar cp r :
  cp <= 1114111 -> isSurrogate cp = false ->
  decodeFrom 0 0 0 (percentOctets (utf8Encode cp) ++ r) =
  option_map (app (utf16Encode cp)) (decodeFrom 0 0 0 r).
Proof.
  intros Hmax Hsur. unfold isSurrogate in *.
  apply andb_false_iff in Hsur. rewrite N.leb_gt, N.leb_gt in Hsur.
  unfold utf8Encode.
  destruct (cp <? 128) eqn:E1; [|destruct (cp <? 2048) eqn:E2;
                                 [|destruct (cp <? 65536) eqn:E3]];
    rewrite ?N.ltb_lt, ?N.ltb_ge in *;
    rewrite !percentOctets_cons; cbn [percentOctets flat_map app].
  - rewrite decodeFrom_lead by lia. decide_tests.
    unfold utf16Encode. decide_tests. reflexivity.
  - rewrite decodeFrom_lead by lia. decide_tests.
    rewrite decodeFrom_continuation by lia.
    unfold isSurrogate. decide_tests. cbn [andb negb].
    replace ((192 + cp / 64 - 192) * 64 + (128 + cp mod 64 - 128)) with cp by lia.
    reflexivity.
  - rewrite decodeFrom_lead by lia. decide_tests.
    rewrite !decodeFrom_continuation by lia.
    replace ((224 + cp / 4096 - 224) * 64 + (128 + (cp / 64) mod 64 - 128))
      with (cp / 64) by lia.
    replace (cp / 64 * 64 + (128 + cp mod 64 - 128)) with cp by lia.
    unfold isSurrogate.
    destruct Hsur as [Hs|Hs]; decide_tests; reflexivity.
  - rewrite decodeFrom_lead by lia. decide_tests.
    rewrite !decodeFrom_continuation by lia.
    replace ((240 + (cp / 262144) mod 8 - 240) * 64
             + (128 + (cp / 4096) mod 64 - 128))
      with (cp / 4096) by lia.
    replace (cp / 4096 * 64 + (128 + (cp / 64) mod 64 - 128)) with (cp / 64) by lia.
    replace (cp / 64 * 64 + (128 + cp mod 64 - 128)) with cp by lia.
    unfold isSurrogate. decide_tests. reflexivity.
Qed.

Lemma uriUnescaped_not_percent c : uriUnescaped c = true -> (c =? ch "%") = false.
Proof.
  intros H. apply N.eqb_neq. intros ->. discriminate H.
Qed.

Lemma utf16Encode_pair c c2 :
  isLeadSurrogate c = true -> isTrailSurrogate c2 = true ->
  utf16Encode (pairToCodePoint c c2) = [c; c2]
  /\ pairToCodePoint c c2 <= 1114111
  /\ isSurrogate (pairToCodePoint c c2) = false.
Proof.
  unfold isLeadSurrogate, isTrailSurrogate, isSurrogate, utf16Encode, pairToCodePoint.
  rewrite !andb_true_iff, !N.leb_le. intros [H1 H2] [H3 H4].
  decide_tests. repeat split; [|lia].
  f_equal; [lia|f_equal; lia].
Qed.

(** Whatever [encodeURIComponent] returns, [decodeURIComponent] reads back
    as the string that was encoded. *)
Lemma decode_encode_bounded n : forall s e,
  (length s <= n)%nat ->
  Forall (fun c => c < 65536) s ->
  encodeURIComponent s = Some e -> decodeURIComponent e = Some s.
Proof.
  unfold decodeURIComponent.
  induction n as [|n IH]; intros s e Hlen Hwf Henc.
  - destruct s; [|simpl in Hlen; lia]. injection Henc as <-. reflexivity.
  - destruct s as [|c rest]; [injection Henc as <-; reflexivity|].
    simpl in Hlen. inversion Hwf as [|c' rest' Hc Hrest]; subst.
    cbn [encodeURIComponent] in Henc.
    destruct (uriUnescaped c) eqn:Eu.
    { destruct (encodeURIComponent rest) as [e'|] eqn:Er; [|discriminate].
      injection Henc as <-. cbn [decodeFrom].
      rewrite (uriUnescaped_not_percent _ Eu).
      rewrite (IH rest e') by (auto; lia). reflexivity. }
    destruct (isTrailSurrogate c) eqn:Et; [discriminate|].
    destruct (isLeadSurrogate c) eqn:El.
    { destruct rest as [|c2 rest2]; [discriminate|].
      destruct (isTrailSurrogate c2) eqn:Et2; [|discriminate].
      destruct (encodeURIComponent rest2) as [e'|] eqn:Er; [|discriminate].
      injection Henc as <-.
      destruct (utf16Encode_pair c c2 El Et2) as (E16 & Hmax & Hsur).
      rewrite decodeFrom_scalar by assumption.
      inversion Hrest; subst. simpl in Hlen.
      rewrite (IH rest2 e') by (auto; lia). rewrite E16. reflexivity. }
    destruct (encodeURIComponent rest) as [e'|] eqn:Er; [|discriminate].
    injection Henc as <-.
    rewrite decodeFrom_scalar.
    + rewrite (IH rest e') by (auto; lia).
      unfold utf16Encode. decide_tests. reflexivity.
    + lia.
    + unfold isSurrogate, isLeadSurrogate, isTrailSurrogate in *.
      apply andb_false_iff in Et, El. rewrite !N.leb_gt in Et, El.
      apply andb_false_iff. rewrite !N.leb_gt. lia.
Qed.

Lemma decode_encode s e :
  Forall (fun c => c < 65536) s ->
  encodeURIComponent s = Some e -> decodeURIComponent e = Some s.
Proof. intros. now apply (decode_encode_bounded (length s)). Qed.

(* ================================================================= *)
(** ** What the URL parser guarantees of a record *)

Create HintDb ascii.

Lemma ascii_nil : ascii_str [].
Proof. constructor. Qed.

Lemma ascii_app s t : ascii_str s -> ascii_str t -> ascii_str (s ++ t).
Proof. intros. now apply Forall_app. Qed.

Lemma ascii_cons c s : c < 128 -> ascii_str s -> ascii_str (c :: s).
Proof. intros. now constructor. Qed.

Lemma ascii_of_forallb s : forallb isAsciiUnit s = true -> ascii_str s.
Proof.
  intros H. apply Forall_forall. intros c Hc.
  rewrite forallb_forall in H. apply H in Hc. now apply N.ltb_lt in Hc.
Qed.

Lemma forallb_of_ascii s : ascii_str s -> forallb isAsciiUnit s = true.
Proof.
  intros H. apply forallb_forall. intros c Hc.
  unfold ascii_str in H. rewrite Forall_forall in H. apply N.ltb_lt. now apply H.
Qed.

Lemma ascii_flat_map {A} (f : A -> list N) l :
  (forall x, ascii_str (f x)) -> ascii_str (flat_map f l).
Proof.
  intros H. induction l; simpl; [constructor|]. apply ascii_app; auto.
Qed.

Lemma utf8Encode_octets cp : Forall (fun b => b < 256) (utf8Encode cp).
Proof.
  unfold utf8Encode.
  destruct (cp <? 128) eqn:E1; [|destruct (cp <? 2048) eqn:E2;
                                 [|destruct (cp <? 65536) eqn:E3]];
    rewrite ?N.ltb_lt, ?N.ltb_ge in *; repeat constructor; lia.
Qed.

Lemma percentOctet_ascii b : b < 256 -> ascii_str (percentOctet b).
Proof.
  intros H. unfold percentOctet, hexDigitUpper.
  repeat apply ascii_cons; try apply ascii_nil.
  - reflexivity.
  - destruct (b / 16 <? 10); lia.
  - destruct (b mod 16 <? 10); lia.
Qed.

Lemma percentOctets_ascii cp : ascii_str (percentOctets (utf8Encode cp)).
Proof.
  unfold percentOctets. pose proof (utf8Encode_octets cp) as H.
  induction H; cbn [flat_map]; [constructor|].
  apply ascii_app; [now apply percentOctet_ascii|assumption].
Qed.

Lemma utf8PercentEncode_ascii set c :
  coversNonAscii set -> ascii_str (utf8PercentEncode set c).
Proof.
  intros H. unfold utf8PercentEncode. destruct (set c) eqn:E.
  - apply percentOctets_ascii.
  - apply ascii_cons; [now apply H|constructor].
Qed.

Lemma percentEncodeString_ascii set s :
  coversNonAscii set -> ascii_str (percentEncodeString set s).
Proof.
  intros H. apply ascii_flat_map. intros c. now apply utf8PercentEncode_ascii.
Qed.

Lemma covers_C0 : coversNonAscii inC0ControlSet.
Proof.
  intros c H. unfold inC0ControlSet in H.
  apply orb_false_iff in H as [_ H]. apply N.ltb_ge in H. lia.
Qed.

Lemma covers_orb (set : N -> bool) (f g : N -> bool) :
  coversNonAscii set -> (forall c, g c = set c || f c) -> coversNonAscii g.
Proof.
  intros H E c Hc. rewrite E in Hc. apply orb_false_iff in Hc as [Hc _].
  now apply H.
Qed.

Lemma covers_fragment : coversNonAscii inFragmentSet.
Proof. eapply covers_orb; [apply covers_C0|reflexivity]. Qed.
Lemma covers_query : coversNonAscii inQuerySet.
Proof. eapply covers_orb; [apply covers_C0|reflexivity]. Qed.
Lemma covers_specialQuery : coversNonAscii inSpecialQuerySet.
Proof. eapply covers_orb; [apply covers_query|reflexivity]. Qed.
Lemma covers_path : coversNonAscii inPathSet.
Proof. eapply covers_orb; [apply covers_query|reflexivity]. Qed.
Lemma covers_userinfo : coversNonAscii inUserinfoSet.
Proof. eapply covers_orb; [apply covers_path|reflexivity]. Qed.

#[local] Hint Resolve ascii_nil ascii_app ascii_cons percentOctets_ascii
  utf8PercentEncode_ascii percentEncodeString_ascii covers_C0 covers_fragment
  covers_query covers_specialQuery covers_path covers_userinfo : ascii.

Lemma Forall_dropWhile {A} (P : A -> Prop) f l :
  Forall P l -> Forall P (dropWhile f l).
Proof.
  induction 1 as [|x l Hx Hl IH]; simpl; [constructor|].
  destruct (f x); [exact IH|now constructor].
Qed.

Lemma ascii_map {A} (f : A -> N) l :
  (forall x, f x < 128) -> ascii_str (map f l).
Proof. intros H. induction l; simpl; constructor; auto. Qed.

Lemma showDec_ascii n : ascii_str (showDec n).
Proof.
  unfold showDec. apply ascii_app.
  - apply Forall_dropWhile, ascii_map. intros k. unfold decDigit. lia.
  - repeat constructor. unfold decDigit. lia.
Qed.

Lemma hexDigitLower_ascii n : n < 16 -> hexDigitLower n < 128.
Proof. unfold hexDigitLower. destruct (n <? 10); lia. Qed.

Lemma showHex16_ascii n : ascii_str (showHex16 n).
Proof.
  unfold showHex16. apply ascii_app.
  - apply Forall_dropWhile, ascii_map. intros k. apply hexDigitLower_ascii. lia.
  - repeat constructor. apply hexDigitLower_ascii. lia.
Qed.

Lemma ascii_literal s : forallb isAsciiUnit s = true -> ascii_str s.
Proof. apply ascii_of_forallb. Qed.

Ltac ascii_lit := apply ascii_literal; reflexivity.

Lemma ipv4Serialize_ascii a : ascii_str (ipv4Serialize a).
Proof.
  unfold ipv4Serialize.
  repeat (apply ascii_app; [first [apply showDec_ascii|ascii_lit]|]).
  apply showDec_ascii.
Qed.

Lemma ipv6Out_ascii l : forall i compress ignore0,
  ascii_str (ipv6Out l i compress ignore0).
Proof.
  induction l as [|p l IH]; intros i compress ignore0; simpl; [constructor|].
  destruct (ignore0 && (p =? 0)); [apply IH|].
  destruct (match compress with Some k => (k =? i)%nat | None => false end).
  - apply ascii_app; [destruct (i =? 0)%nat; ascii_lit|apply IH].
  - apply ascii_app; [apply showHex16_ascii|].
    apply ascii_app; [destruct (i =? 7)%nat; [constructor|ascii_lit]|apply IH].
Qed.

Lemma asciiLower_ascii s : ascii_str s -> ascii_str (asciiLower s).
Proof.
  induction 1 as [|c s Hc Hs IH]; simpl; constructor; [|exact IH].
  unfold asciiLowerUnit, isUpperAlpha.
  destruct (65 <=? c) eqn:E1, (c <=? 90) eqn:E2; simpl;
    rewrite ?N.leb_le in *; lia.
Qed.

#[local] Hint Resolve showDec_ascii showHex16_ascii ipv4Serialize_ascii
  ipv6Out_ascii asciiLower_ascii : ascii.

Section ParserInvariant.
Context {U : UnicodeTables}.

Lemma domainToASCII_ascii bs d : domainToASCII bs = Some d -> ascii_str d.
Proof.
  unfold domainToASCII.
  destruct (forallb isAsciiUnit bs && negb (hasPunycodeLabel bs)) eqn:E.
  - apply andb_true_iff in E as [E _].
    destruct (isNil (asciiLower bs)); [discriminate|].
    destruct (existsb _ _); [discriminate|]. intros [= <-].
    apply asciiLower_ascii, ascii_of_forallb, E.
  - destruct (unicodeDomainToASCII bs) as [d'|] eqn:Eu; [|discriminate].
    destruct (isNil d'); [discriminate|].
    destruct (existsb _ _); [discriminate|]. intros [= <-].
    apply ascii_of_forallb. eapply unicodeDomainToASCII_ascii, Eu.
Qed.

Lemma hostParse_ascii input o h :
  hostParse input o = Some h -> ascii_str (hostSerialize h).
Proof.
  unfold hostParse. destruct (startsWith (js "[") input).
  - destruct (rev (tl input)) as [|c r]; [discriminate|].
    destruct (c =? _); [|discriminate].
    destruct (ipv6Parse (rev r)); [|discriminate]. intros [= <-].
    cbn [hostSerialize]. apply ascii_app; [ascii_lit|].
    apply ascii_app; [apply ipv6Out_ascii|ascii_lit].
  - destruct o.
    + unfold opaqueHostParse. destruct (existsb _ _); [discriminate|].
      intros [= <-]. simpl. auto with ascii.
    + destruct (domainToASCII _) as [d|] eqn:Ed; [|discriminate].
      destruct (endsInANumber d).
      * destruct (ipv4Parse d); [|discriminate]. intros [= <-]. simpl.
        auto with ascii.
      * intros [= <-]. simpl. eapply domainToASCII_ascii, Ed.
Qed.

(** *** Setters *)

Lemma ok_set_username u x : url_ok u -> ascii_str x -> url_ok (set_username u x).
Proof. intros [] ?; constructor; assumption. Qed.
Lemma ok_set_password u x : url_ok u -> ascii_str x -> url_ok (set_password u x).
Proof. intros [] ?; constructor; assumption. Qed.
Lemma ok_set_host u x : url_ok u -> ascii_host x -> url_ok (set_host u x).
Proof. intros [] ?; constructor; assumption. Qed.
Lemma ok_set_port u x : url_ok u -> url_ok (set_port u x).
Proof. intros []; constructor; assumption. Qed.
Lemma ok_set_path u x : url_ok u -> ascii_path x -> url_ok (set_path u x).
Proof. intros [] ?; constructor; assumption. Qed.
Lemma ok_set_query u x : url_ok u -> ascii_opt x -> url_ok (set_query u x).
Proof. intros [] ?; constructor; assumption. Qed.
Lemma ok_set_fragment u x : url_ok u -> ascii_opt x -> url_ok (set_fragment u x).
Proof. intros [] ?; constructor; assumption. Qed.
Lemma ok_set_scheme u x :
  url_ok u -> validScheme x = true -> url_ok (set_scheme u x).
Proof. intros [] ?; constructor; assumption. Qed.

Lemma ok_start x : validScheme x = true -> url_ok (set_scheme emptyURL x).
Proof. intros H. constructor; simpl; auto; constructor. Qed.

Lemma ascii_pathSegments u : url_ok u -> Forall ascii_str (pathSegments u).
Proof.
  intros []. unfold pathSegments. destruct (url_path u); [constructor|assumption].
Qed.

Lemma ok_appendSegment u seg :
  url_ok u -> ascii_str seg -> url_ok (appendSegment u seg).
Proof.
  intros H Hs. apply ok_set_path; [exact H|]. simpl.
  apply Forall_app. split; [now apply ascii_pathSegments|now repeat constructor].
Qed.

Lemma Forall_removelast {A} (P : A -> Prop) l :
  Forall P l -> Forall P (removelast l).
Proof.
  induction 1 as [|x l Hx Hl IH]; simpl; [constructor|].
  destruct l; [constructor|now constructor].
Qed.

Lemma ok_shorten u : url_ok u -> url_ok (shorten u).
Proof.
  intros H. unfold shorten. pose proof (ascii_pathSegments u H) as Hp.
  destruct (pathSegments u) as [|seg [|seg2 l]].
  - apply ok_set_path; [exact H|constructor].
  - destruct (_ && _); [exact H|]. apply ok_set_path; [exact H|constructor].
  - apply ok_set_path; [exact H|]. now apply Forall_removelast.
Qed.

#[local] Hint Resolve ok_set_username ok_set_password ok_set_host ok_set_port
  ok_set_path ok_set_query ok_set_fragment ok_appendSegment ok_shorten
  hostParse_ascii : ascii.

(** *** States *)

Lemma ok_fragment_state u rest : url_ok u -> url_ok (fragment_state u rest).
Proof.
  intros H. unfold fragment_state. apply ok_set_fragment; [exact H|]. simpl.
  apply ascii_app; [|auto with ascii].
  destruct H. destruct (url_fragment u); [assumption|constructor].
Qed.

Lemma ok_query_state u rest : url_ok u -> url_ok (query_state u rest).
Proof.
  intros H. unfold query_state. destruct (breakAt (ch "#") rest) as [buffer after].
  assert (H1 : url_ok (set_query u
            (Some (match url_query u with Some q => q | None => [] end
                   ++ percentEncodeString
                        (if isSpecial u then inSpecialQuerySet else inQuerySet)
                        buffer)))).
  { apply ok_set_query; [exact H|]. simpl. apply ascii_app.
    - destruct H. destruct (url_query u); [assumption|constructor].
    - destruct (isSpecial u); auto with ascii. }
  destruct after; [exact H1|].
  apply ok_fragment_state, ok_set_fragment; [exact H1|constructor].
Qed.

Lemma ok_endSegment u buffer slash :
  url_ok u -> ascii_str buffer -> url_ok (endSegment u buffer slash).
Proof.
  intros H Hb. unfold endSegment.
  destruct (isDoubleDot buffer).
  { destruct slash; auto with ascii. }
  destruct (isSingleDot buffer).
  { destruct slash; auto with ascii. }
  apply ok_appendSegment; [exact H|].
  destruct buffer as [|a [|b [|c l]]]; try exact Hb.
  destruct (_ && _); [|exact Hb].
  inversion Hb; subst. constructor; [assumption|]. repeat constructor.
Qed.

Lemma ok_path_state rest : forall u buffer,
  url_ok u -> ascii_str buffer -> url_ok (path_state u buffer rest).
Proof.
  induction rest as [|c rest IH]; intros u buffer H Hb; cbn [path_state].
  - now apply ok_endSegment.
  - destruct (_ || _).
    { apply IH; [now apply ok_endSegment|constructor]. }
    destruct (c =? _).
    { apply ok_query_state, ok_set_query; [now apply ok_endSegment|constructor]. }
    destruct (c =? _).
    { apply ok_fragment_state, ok_set_fragment;
        [now apply ok_endSegment|constructor]. }
    apply IH; [exact H|]. auto with ascii.
Qed.

Lemma ok_path_start_state u rest : url_ok u -> url_ok (path_start_state u rest).
Proof.
  intros H. unfold path_start_state. destruct rest as [|c rest].
  - destruct (isSpecial u); [|exact H]. apply ok_path_state; [exact H|constructor].
  - destruct (isSpecial u).
    { destruct (_ || _); apply ok_path_state; auto; constructor. }
    destruct (c =? _).
    { apply ok_query_state, ok_set_query; [exact H|constructor]. }
    destruct (c =? _).
    { apply ok_fragment_state, ok_set_fragment; [exact H|constructor]. }
    destruct (c =? _); apply ok_path_state; auto; constructor.
Qed.

Lemma ok_finishPort u buffer u1 :
  url_ok u -> finishPort u buffer = Some u1 -> url_ok u1.
Proof.
  intros H. unfold finishPort. destruct buffer; [now intros [= <-]|].
  destruct (65535 <? _); [discriminate|]. intros [= <-]. now apply ok_set_port.
Qed.

Lemma ok_port_state : forall rest u buffer r,
  url_ok u -> port_state u buffer rest = Some r -> url_ok r.
Proof.
  assert (Hfin : forall u buffer rest r, url_ok u ->
            option_map (fun u1 => path_start_state u1 rest) (finishPort u buffer)
            = Some r -> url_ok r).
  { intros u buffer rest r H E.
    destruct (finishPort u buffer) as [u1|] eqn:Ef; [|discriminate].
    injection E as <-. eapply ok_path_start_state, ok_finishPort; eauto. }
  intros rest; induction rest as [|c rest IH]; intros u buffer r H;
    cbn [port_state].
  - now apply Hfin.
  - destruct (isDigit c); [now apply IH|].
    destruct (endsAuthority u c); [now apply Hfin|discriminate].
Qed.

Lemma ok_host_state : forall rest u buffer inside r,
  url_ok u -> host_state u buffer inside rest = Some r -> url_ok r.
Proof.
  assert (Hfin : forall u buffer rest r, url_ok u ->
            (if isSpecial u && isNil buffer then None
             else match hostParse buffer (negb (isSpecial u)) with
                  | None => None
                  | Some h => Some (path_start_state (set_host u (Some h)) rest)
                  end) = Some r -> url_ok r).
  { intros u buffer rest r H. destruct (_ && _); [discriminate|].
    destruct (hostParse _ _) as [h|] eqn:Eh; [|discriminate]. intros [= <-].
    apply ok_path_start_state, ok_set_host; [exact H|]. simpl. eauto with ascii. }
  intros rest; induction rest as [|c rest IH]; intros u buffer inside r H;
    cbn [host_state].
  - now apply Hfin.
  - destruct (_ && _).
    { destruct (isNil buffer); [discriminate|].
      destruct (hostParse _ _) as [h|] eqn:Eh; [|discriminate].
      apply ok_port_state, ok_set_host; [exact H|]. simpl. eauto with ascii. }
    destruct (endsAuthority u c); [now apply Hfin|now apply IH].
Qed.

Lemma ok_addCredentials buffer : forall u seen,
  url_ok u -> url_ok (fst (addCredentials u seen buffer)).
Proof.
  induction buffer as [|c buffer IH]; intros u seen H; simpl; [exact H|].
  destruct (_ && _); [now apply IH|].
  destruct seen; apply IH.
  - apply ok_set_password; [exact H|]. destruct H. auto with ascii.
  - apply ok_set_username; [exact H|]. destruct H. auto with ascii.
Qed.

Lemma ok_authority_state : forall rest u buffer atSeen pwSeen r,
  url_ok u -> authority_state u buffer atSeen pwSeen rest = Some r -> url_ok r.
Proof.
  assert (Hfin : forall u buffer (atSeen : bool) rest r, url_ok u ->
            (if atSeen && isNil buffer then None
             else host_state u [] false (buffer ++ rest)) = Some r -> url_ok r).
  { intros u buffer atSeen rest r H. destruct (_ && _); [discriminate|].
    now apply ok_host_state. }
  intros rest; induction rest as [|c rest IH];
    intros u buffer atSeen pwSeen r H; cbn [authority_state].
  - now apply Hfin.
  - destruct (c =? _).
    { destruct (addCredentials u pwSeen _) as [u1 seen] eqn:Ea.
      apply IH. change u1 with (fst (u1, seen)). rewrite <- Ea.
      now apply ok_addCredentials. }
    destruct (endsAuthority u c); [now apply Hfin|now apply IH].
Qed.

Lemma ok_Some (a r : URLRecord) : url_ok a -> Some a = Some r -> url_ok r.
Proof. intros H [= <-]. exact H. Qed.

Lemma ok_ignore_slashes u rest r :
  url_ok u -> special_authority_ignore_slashes_state u rest = Some r -> url_ok r.
Proof. intros H. now apply ok_authority_state. Qed.

Lemma ok_authority_slashes u rest r :
  url_ok u -> special_authority_slashes_state u rest = Some r -> url_ok r.
Proof.
  intros H. unfold special_authority_slashes_state.
  destruct (startsWith _ _); now apply ok_ignore_slashes.
Qed.

Lemma ok_copyAuthority u base : url_ok u -> url_ok base -> url_ok (copyAuthority u base).
Proof.
  intros H [Hs Hu Hp Hh Hpa Hq Hf]. unfold copyAuthority. auto with ascii.
Qed.

Lemma ok_relative_slash_state u base rest r :
  url_ok u -> url_ok base -> relative_slash_state u base rest = Some r -> url_ok r.
Proof.
  intros H Hb. unfold relative_slash_state.
  assert (Hp : url_ok (path_state (copyAuthority u base) [] rest))
    by (apply ok_path_state; [now apply ok_copyAuthority|constructor]).
  destruct rest as [|c rest]; [now apply ok_Some|].
  destruct (_ && _); [now apply ok_ignore_slashes|].
  destruct (c =? _); [now apply ok_authority_state|now apply ok_Some].
Qed.

Lemma rest_ok_empty : rest_ok emptyURL.
Proof. intros x Hx. now apply ok_start. Qed.

Lemma rest_ok_set_scheme u x : rest_ok u -> rest_ok (set_scheme u x).
Proof. intros H y Hy. apply (H y Hy). Qed.

Lemma ok_relative_state u0 base rest r :
  rest_ok u0 -> url_ok base -> relative_state u0 base rest = Some r -> url_ok r.
Proof.
  intros H0 Hb. unfold relative_state.
  pose proof (H0 _ (ok_scheme _ Hb)) as H.
  set (u := set_scheme u0 (url_scheme base)) in *.
  assert (Hi : url_ok (set_query (set_path (copyAuthority u base) (url_path base))
                         (url_query base))).
  { destruct Hb as [Hs Hu Hp Hh Hpa Hq Hf].
    apply ok_set_query; [|exact Hq]. apply ok_set_path; [|exact Hpa].
    apply ok_copyAuthority; [exact H|now constructor]. }
  destruct rest as [|c rest]; [now apply ok_Some|].
  destruct (c =? _); [now apply ok_relative_slash_state|].
  destruct (_ && _); [now apply ok_relative_slash_state|].
  destruct (c =? _).
  { apply ok_Some. apply ok_query_state, ok_set_query; [exact Hi|constructor]. }
  destruct (c =? _).
  { apply ok_Some. apply ok_fragment_state, ok_set_fragment; [exact Hi|constructor]. }
  apply ok_Some. apply ok_path_state; [|constructor].
  apply ok_shorten, ok_set_query; [exact Hi|constructor].
Qed.

Lemma ok_special_relative_or_authority u base rest r :
  url_ok u -> url_ok base ->
  special_relative_or_authority_state u base rest = Some r -> url_ok r.
Proof.
  intros H Hb. unfold special_relative_or_authority_state.
  destruct (startsWith _ _); [now apply ok_ignore_slashes|].
  apply ok_relative_state; [|exact Hb].
  intros x Hx. destruct H. now constructor.
Qed.

Lemma ok_path_or_authority u rest r :
  url_ok u -> path_or_authority_state u rest = Some r -> url_ok r.
Proof.
  intros H. unfold path_or_authority_state.
  destruct (startsWith _ _); [now apply ok_authority_state|].
  apply ok_Some. apply ok_path_state; [exact H|constructor].
Qed.

Lemma ascii_opaquePathOf u : url_ok u -> ascii_str (opaquePathOf u).
Proof.
  intros []. unfold opaquePathOf. destruct (url_path u); [assumption|constructor].
Qed.

Lemma ok_opaque_path_state rest : forall u,
  url_ok u -> url_ok (opaque_path_state u rest).
Proof.
  induction rest as [|c rest IH]; intros u H; cbn [opaque_path_state]; [exact H|].
  destruct (c =? _).
  { apply ok_query_state, ok_set_query; [exact H|constructor]. }
  destruct (c =? _).
  { apply ok_fragment_state, ok_set_fragment; [exact H|constructor]. }
  pose proof (ascii_opaquePathOf u H) as Hp.
  destruct (c =? _) eqn:E.
  - apply N.eqb_eq in E. subst c.
    destruct (_ || _); apply IH, ok_set_path; try exact H; simpl;
      (apply ascii_app; [exact Hp|ascii_lit]).
  - apply IH, ok_set_path; [exact H|]. simpl. auto with ascii.
Qed.

Lemma ascii_driveLetter buffer :
  isWindowsDriveLetter buffer = true -> ascii_str buffer.
Proof.
  destruct buffer as [|a [|b [|c l]]]; try discriminate. simpl.
  rewrite andb_true_iff, orb_true_iff, !N.eqb_eq.
  unfold isAlpha, isUpperAlpha, isLowerAlpha.
  rewrite orb_true_iff, !andb_true_iff, !N.leb_le.
  intros [Ha Hb]. repeat constructor; vm_compute ch in Hb; lia.
Qed.

Lemma ascii_emptyHost : ascii_host (Some emptyHost).
Proof. constructor. Qed.

Lemma ok_file_host_state : forall rest u buffer r,
  url_ok u -> file_host_state u buffer rest = Some r -> url_ok r.
Proof.
  assert (Hfin : forall u buffer rest r, url_ok u ->
     (if isWindowsDriveLetter buffer then Some (path_state u buffer rest)
      else if isNil buffer then
        Some (path_start_state (set_host u (Some emptyHost)) rest)
      else match hostParse buffer false with
           | None => None
           | Some h =>
               Some (path_start_state
                       (set_host u (Some (if isLocalhost h then emptyHost else h)))
                       rest)
           end) = Some r -> url_ok r).
  { intros u buffer rest r H.
    destruct (isWindowsDriveLetter buffer) eqn:Ew.
    { apply ok_Some. apply ok_path_state; [exact H|now apply ascii_driveLetter]. }
    destruct (isNil buffer).
    { apply ok_Some. apply ok_path_start_state, ok_set_host;
        [exact H|apply ascii_emptyHost]. }
    destruct (hostParse buffer false) as [h|] eqn:Eh; [|discriminate].
    apply ok_Some. apply ok_path_start_state, ok_set_host; [exact H|].
    destruct (isLocalhost h); [apply ascii_emptyHost|]. simpl. eauto with ascii. }
  intros rest; induction rest as [|c rest IH]; intros u buffer r H;
    cbn [file_host_state].
  - now apply Hfin.
  - destruct (_ || _); [now apply Hfin|now apply IH].
Qed.

Lemma baseIsFile_ok base b : 
  (forall x, base = Some x -> url_ok x) -> baseIsFile base = Some b -> url_ok b.
Proof.
  intros H. unfold baseIsFile. destruct base as [x|]; [|discriminate].
  destruct (isFileScheme _); [|discriminate]. apply ok_Some. now apply H.
Qed.

Lemma ok_file_slash_state u base rest r :
  url_ok u -> (forall x, base = Some x -> url_ok x) ->
  file_slash_state u base rest = Some r -> url_ok r.
Proof.
  intros H Hb. unfold file_slash_state.
  set (other := match baseIsFile base with Some b => _ | None => u end).
  assert (Ho : url_ok other).
  { unfold other. destruct (baseIsFile base) as [b|] eqn:Eb; [|exact H].
    apply baseIsFile_ok in Eb; [|exact Hb].
    assert (H2 : url_ok (set_host u (url_host b)))
      by (apply ok_set_host; [exact H|now destruct Eb]).
    pose proof (ascii_pathSegments b Eb) as Hp.
    destruct (pathSegments b) as [|seg l]; [exact H2|].
    destruct (_ && _); [|exact H2].
    apply ok_appendSegment; [exact H2|now inversion Hp]. }
  assert (Hp : url_ok (path_state other [] rest))
    by (apply ok_path_state; [exact Ho|constructor]).
  destruct rest as [|c rest]; [now apply ok_Some|].
  destruct (isSlashOrBackslash c); [now apply ok_file_host_state|now apply ok_Some].
Qed.

Lemma validScheme_file : validScheme (js "file") = true.
Proof. reflexivity. Qed.

Lemma ok_file_state u0 base rest r :
  rest_ok u0 -> (forall x, base = Some x -> url_ok x) ->
  file_state u0 base rest = Some r -> url_ok r.
Proof.
  intros H0 Hb. unfold file_state.
  assert (H : url_ok (set_host (set_scheme u0 (js "file")) (Some emptyHost))).
  { apply ok_set_host; [apply H0, validScheme_file|apply ascii_emptyHost]. }
  set (u := set_host (set_scheme u0 (js "file")) (Some emptyHost)) in *.
  destruct (match rest with c :: _ => isSlashOrBackslash c | [] => false end).
  { now apply ok_file_slash_state. }
  destruct (baseIsFile base) as [b|] eqn:Eb.
  2:{ apply ok_Some. apply ok_path_state; [exact H|constructor]. }
  apply baseIsFile_ok in Eb; [|exact Hb].
  assert (Hi : url_ok (set_query (set_path (set_host u (url_host b)) (url_path b))
                         (url_query b))).
  { destruct Eb as [Hs Hu Hp Hh Hpa Hq Hf]. auto with ascii. }
  destruct rest as [|c rest]; [now apply ok_Some|].
  destruct (c =? _).
  { apply ok_Some. apply ok_query_state, ok_set_query; [exact Hi|constructor]. }
  destruct (c =? _).
  { apply ok_Some. apply ok_fragment_state, ok_set_fragment; [exact Hi|constructor]. }
  apply ok_Some. apply ok_path_state; [|constructor].
  destruct (negb _).
  - apply ok_shorten, ok_set_query; [exact Hi|constructor].
  - apply ok_set_path; [|constructor]. apply ok_set_query; [exact Hi|constructor].
Qed.

Lemma ok_no_scheme_state base input r :
  (forall x, base = Some x -> url_ok x) ->
  no_scheme_state base input = Some r -> url_ok r.
Proof.
  intros Hb. unfold no_scheme_state. destruct base as [b|]; [|discriminate].
  pose proof (Hb b eq_refl) as Hok.
  destruct (hasOpaquePath b).
  { destruct (startsWith _ _); [|discriminate]. intros [= <-].
    apply ok_fragment_state, ok_set_fragment; [|constructor].
    destruct Hok as [Hs Hu Hp Hh Hpa Hq Hf].
    apply ok_set_query; [|exact Hq]. apply ok_set_path; [|exact Hpa].
    now apply ok_start. }
  destruct (negb _).
  - apply ok_relative_state; [apply rest_ok_empty|exact Hok].
  - apply ok_file_state; [apply rest_ok_empty|exact Hb].
Qed.

Lemma schemeChar_lower c : schemeChar c = true -> schemeChar (asciiLowerUnit c) = true.
Proof.
  unfold asciiLowerUnit. destruct (isUpperAlpha c) eqn:E; [|auto]. intros _.
  unfold isUpperAlpha in E. apply andb_true_iff in E as [E1 E2].
  apply N.leb_le in E1, E2. unfold schemeChar, isAlnum, isAlpha, isLowerAlpha.
  replace (97 <=? c + 32) with true by (symmetry; apply N.leb_le; lia).
  replace (c + 32 <=? 122) with true by (symmetry; apply N.leb_le; lia).
  simpl. now rewrite orb_true_r.
Qed.

Lemma validScheme_snoc s c :
  validScheme s = true -> schemeChar c = true -> validScheme (s ++ [c]) = true.
Proof.
  destruct s as [|a s]; [discriminate|]. simpl.
  rewrite !andb_true_iff. intros [Ha Hs] Hc. split; [exact Ha|].
  rewrite forallb_app, Hs. simpl. now rewrite andb_true_r.
Qed.

Lemma scheme_state_valid rest : forall buffer scheme rest',
  validScheme buffer = true ->
  scheme_state buffer rest = Some (scheme, rest') -> validScheme scheme = true.
Proof.
  induction rest as [|c rest IH]; intros buffer scheme rest' Hb;
    cbn [scheme_state]; [discriminate|].
  destruct (_ || _) eqn:E.
  - apply IH. apply validScheme_snoc; [exact Hb|now apply schemeChar_lower].
  - clear E. destruct (c =? _); [|discriminate]. now intros [= <- _].
Qed.

Lemma ok_afterScheme base scheme rest r :
  (forall x, base = Some x -> url_ok x) -> validScheme scheme = true ->
  afterScheme base scheme rest = Some r -> url_ok r.
Proof.
  intros Hb Hs. unfold afterScheme.
  pose proof (ok_start _ Hs) as H.
  destruct (isFileScheme scheme).
  { apply ok_file_state; [apply rest_ok_set_scheme, rest_ok_empty|exact Hb]. }
  destruct (isSpecialScheme scheme).
  { destruct base as [b|]; [|now apply ok_authority_slashes].
    destruct (str_eqb _ _); [|now apply ok_authority_slashes].
    apply ok_special_relative_or_authority; [exact H|now apply Hb]. }
  destruct (startsWith _ _); [now apply ok_path_or_authority|].
  apply ok_Some. apply ok_opaque_path_state, ok_set_path; [exact H|constructor].
Qed.

Lemma validScheme_first c :
  isAlpha c = true -> validScheme [asciiLowerUnit c] = true.
Proof.
  intros H. simpl. rewrite andb_true_r.
  unfold asciiLowerUnit. destruct (isUpperAlpha c) eqn:E; [|exact H].
  unfold isUpperAlpha in E. apply andb_true_iff in E as [E1 E2].
  apply N.leb_le in E1, E2. unfold isAlpha, isLowerAlpha.
  replace (97 <=? c + 32) with true by (symmetry; apply N.leb_le; lia).
  replace (c + 32 <=? 122) with true by (symmetry; apply N.leb_le; lia).
  now rewrite orb_true_r.
Qed.

Lemma ok_basicParse input base r :
  (forall x, base = Some x -> url_ok x) ->
  basicParse input base = Some r -> url_ok r.
Proof.
  intros Hb. unfold basicParse.
  destruct (filter _ _) as [|c rest] eqn:Ei; [now apply ok_no_scheme_state|].
  destruct (isAlpha c) eqn:Ea; [|now apply ok_no_scheme_state].
  destruct (scheme_state _ rest) as [[scheme rest']|] eqn:Es;
    [|now apply ok_no_scheme_state].
  apply ok_afterScheme; [exact Hb|].
  eapply scheme_state_valid; [|exact Es]. now apply validScheme_first.
Qed.

(** [new URL(url, base)] only makes records the invariant holds of. *)
Lemma ok_URL_new url base r : URL_new url base = Some r -> url_ok r.
Proof.
  unfold URL_new. destruct base as [b|].
  - destruct (basicParse (toCodePoints b) None) as [pb|] eqn:Eb; [|discriminate].
    apply ok_basicParse. intros x [= <-].
    eapply ok_basicParse; [|exact Eb]. discriminate.
  - apply ok_basicParse. discriminate.
Qed.

End ParserInvariant.

(* ================================================================= *)
(** ** Serialized URLs *)

Lemma validScheme_ascii s : validScheme s = true -> ascii_str s.
Proof.
  destruct s as [|c t]; [discriminate|]. simpl. rewrite andb_true_iff.
  intros [Hc Ht]. constructor.
  - unfold isAlpha, isUpperAlpha, isLowerAlpha in Hc.
    rewrite orb_true_iff, !andb_true_iff, !N.leb_le in Hc. lia.
  - apply Forall_forall. intros x Hx. rewrite forallb_forall in Ht.
    apply Ht in Hx. unfold isAlnum, isAlpha, isUpperAlpha, isLowerAlpha, isDigit in Hx.
    rewrite !orb_true_iff, !andb_true_iff, !N.leb_le, !N.eqb_eq in Hx.
    vm_compute ch in Hx. lia.
Qed.

Lemma urlSerialize_ascii u : url_ok u -> ascii_str (urlSerialize u).
Proof.
  intros [Hs Hu Hp Hh Hpa Hq Hf]. unfold urlSerialize.
  apply ascii_app; [now apply validScheme_ascii|].
  apply ascii_app; [ascii_lit|].
  apply ascii_app.
  { destruct (url_host u) as [h|].
    - apply ascii_app; [ascii_lit|]. apply ascii_app.
      + destruct (_ && _); [constructor|].
        apply ascii_app; [exact Hu|]. apply ascii_app; [|ascii_lit].
        destruct (isNil _); [constructor|]. apply ascii_app; [ascii_lit|exact Hp].
      + apply ascii_app; [exact Hh|].
        destruct (url_port u); [|constructor].
        apply ascii_app; [ascii_lit|apply showDec_ascii].
    - destruct (url_path u) as [|[|[|] [|]]]; ascii_lit. }
  apply ascii_app.
  { unfold serializePath. destruct (url_path u) as [p|l]; [exact Hpa|].
    simpl in Hpa. induction Hpa as [|seg l Hseg Hl IH]; simpl; [constructor|].
    constructor; [reflexivity|]. now apply ascii_app. }
  apply ascii_app.
  - destruct (url_query u); [|constructor]. apply ascii_app; [ascii_lit|exact Hq].
  - destruct (url_fragment u); [|constructor]. apply ascii_app; [ascii_lit|exact Hf].
Qed.

(** The [href] of a parsed URL is ASCII. *)
Lemma href_ascii {U : UnicodeTables} url base u :
  URL_new url base = Some u -> ascii_str (href u).
Proof. intros H. apply urlSerialize_ascii. eapply ok_URL_new, H. Qed.

(* ================================================================= *)
(** ** [encodeURIComponent] on ASCII *)

Lemma ascii_not_surrogate c :
  c < 128 -> isLeadSurrogate c = false /\ isTrailSurrogate c = false.
Proof.
  intros H. unfold isLeadSurrogate, isTrailSurrogate.
  split; apply andb_false_iff; left; apply N.leb_gt; lia.
Qed.

Lemma encode_ascii s :
  ascii_str s -> exists e, encodeURIComponent s = Some e.
Proof.
  induction 1 as [|c s Hc Hs [e IH]]; [now exists []|].
  cbn [encodeURIComponent]. rewrite IH.
  destruct (uriUnescaped c); [eexists; reflexivity|].
  destruct (ascii_not_surrogate c Hc) as [-> ->]. eexists; reflexivity.
Qed.

Lemma ascii_wellFormed s : ascii_str s -> Forall (fun c => c < 65536) s.
Proof. apply Forall_impl. intros; lia. Qed.

Lemma percentOctet_encoded b : b < 256 -> forallb encodedUnit (percentOctet b) = true.
Proof.
  intros H. unfold percentOctet. cbn [forallb].
  assert (Hx : forall n, n < 16 -> encodedUnit (hexDigitUpper n) = true).
  { intros n Hn. enumerate n 0 16%nat; reflexivity. }
  rewrite !Hx by lia. reflexivity.
Qed.

Lemma percentOctets_encoded cp :
  forallb encodedUnit (percentOctets (utf8Encode cp)) = true.
Proof.
  unfold percentOctets. pose proof (utf8Encode_octets cp) as H.
  induction H; cbn [flat_map]; [reflexivity|].
  rewrite forallb_app, percentOctet_encoded by assumption. exact IHForall.
Qed.

Lemma encode_encoded_bounded n : forall s e,
  (length s <= n)%nat ->
  encodeURIComponent s = Some e ->
  forallb encodedUnit e = true /\ (length s <= length e)%nat.
Proof.
  induction n as [|n IH]; intros s e Hlen Henc.
  - destruct s; [|simpl in Hlen; lia]. injection Henc as <-. split; [reflexivity|lia].
  - destruct s as [|c rest]; [injection Henc as <-; split; [reflexivity|simpl; lia]|].
    simpl in Hlen. cbn [encodeURIComponent] in Henc.
    destruct (uriUnescaped c) eqn:Eu.
    { destruct (encodeURIComponent rest) as [e'|] eqn:Er; [|discriminate].
      injection Henc as <-. destruct (IH rest e') as [H1 H2]; [lia|assumption|].
      split; [|simpl; lia]. cbn [forallb]. unfold encodedUnit at 1.
      now rewrite Eu, H1. }
    destruct (isTrailSurrogate c); [discriminate|].
    assert (Hlen3 : forall cp, (2 <= length (percentOctets (utf8Encode cp)))%nat).
    { intros cp. unfold utf8Encode.
      destruct (cp <? 128); [|destruct (cp <? 2048); [|destruct (cp <? 65536)]];
        simpl; lia. }
    destruct (isLeadSurrogate c).
    { destruct rest as [|c2 rest2]; [discriminate|].
      destruct (isTrailSurrogate c2); [|discriminate].
      destruct (encodeURIComponent rest2) as [e'|] eqn:Er; [|discriminate].
      injection Henc as <-. simpl in Hlen.
      destruct (IH rest2 e') as [H1 H2]; [lia|assumption|].
      rewrite forallb_app, percentOctets_encoded, H1, length_app.
      split; [reflexivity|].
      specialize (Hlen3 (pairToCodePoint c c2)). simpl. lia. }
    destruct (encodeURIComponent rest) as [e'|] eqn:Er; [|discriminate].
    injection Henc as <-. destruct (IH rest e') as [H1 H2]; [lia|assumption|].
    rewrite forallb_app, percentOctets_encoded, H1, length_app.
    split; [reflexivity|]. specialize (Hlen3 c). simpl. lia.
Qed.

Lemma encode_encoded s e :
  encodeURIComponent s = Some e -> forallb encodedUnit e = true.
Proof. intros H. now apply (encode_encoded_bounded (length s) s e). Qed.

Lemma encode_length s e :
  encodeURIComponent s = Some e -> (length s <= length e)%nat.
Proof. intros H. now apply (encode_encoded_bounded (length s) s e). Qed.

Lemma encodedUnit_printable c : encodedUnit c = true -> 32 < c < 127.
Proof.
  unfold encodedUnit, uriUnescaped, isHexDigit, isAlnum, isAlpha, isUpperAlpha,
    isLowerAlpha, isDigit. cbn [existsb js map list_ascii_of_string].
  rewrite !orb_true_iff, !andb_true_iff, !N.leb_le, !N.eqb_eq.
  vm_compute ch. lia.
Qed.

(* ================================================================= *)
(** ** A proxy link never resolves to its own target *)

Lemma dropWhile_id {A} (p : A -> bool) l :
  Forall (fun x => p x = false) l -> dropWhile p l = l.
Proof. destruct 1 as [|x l Hx Hl]; simpl; [reflexivity|now rewrite Hx]. Qed.

Lemma dropWhileEnd_id {A} (p : A -> bool) l :
  Forall (fun x => p x = false) l -> dropWhileEnd p l = l.
Proof.
  intros H. unfold dropWhileEnd. rewrite dropWhile_id by now apply Forall_rev.
  apply rev_involutive.
Qed.

Lemma filter_id {A} (p : A -> bool) l :
  Forall (fun x => p x = true) l -> filter p l = l.
Proof. induction 1 as [|x l Hx Hl IH]; simpl; [reflexivity|]. now rewrite Hx, IH. Qed.

Lemma toCodePoints_ascii s : ascii_str s -> toCodePoints s = s.
Proof.
  induction 1 as [|c s Hc Hs IH]; [reflexivity|]. cbn [toCodePoints].
  destruct (ascii_not_surrogate c Hc) as [-> ->]. now rewrite IH.
Qed.

Lemma printable_encoded e : forallb encodedUnit e = true -> printable e.
Proof.
  intros H. apply Forall_forall. intros c Hc. rewrite forallb_forall in H.
  now apply encodedUnit_printable, H.
Qed.

Lemma printable_ascii s : printable s -> ascii_str s.
Proof. apply Forall_impl. intros; lia. Qed.

Lemma preprocess_printable s :
  printable s ->
  filter (fun c => negb (isTabOrNewline c))
    (dropWhileEnd isC0ControlOrSpace (dropWhile isC0ControlOrSpace s)) = s.
Proof.
  intros H.
  assert (H1 : Forall (fun c => isC0ControlOrSpace c = false) s).
  { eapply Forall_impl; [|exact H]. intros c Hc. cbv beta in Hc.
    unfold isC0ControlOrSpace. apply N.leb_gt. lia. }
  rewrite (dropWhile_id _ _ H1), (dropWhileEnd_id _ _ H1).
  apply filter_id. eapply Forall_impl; [|exact H]. intros c Hc. cbv beta in Hc.
  unfold isTabOrNewline. decide_tests. reflexivity.
Qed.

Lemma breakAt_absent c s :
  Forall (fun x => x <> c) s -> breakAt c s = (s, []).
Proof.
  induction 1 as [|x s Hx Hs IH]; [reflexivity|]. cbn [breakAt].
  rewrite (proj2 (N.eqb_neq x c) Hx), IH. reflexivity.
Qed.

Lemma length_percentEncodeString set s :
  (length s <= length (percentEncodeString set s))%nat.
Proof.
  unfold percentEncodeString. induction s as [|c s IH]; [simpl; lia|].
  cbn [flat_map]. rewrite length_app. unfold utf8PercentEncode at 1.
  destruct (set c); [|simpl; lia].
  assert (1 <= length (percentOctets (utf8Encode c)))%nat; [|simpl; lia].
  unfold utf8Encode.
  destruct (c <? 128); [|destruct (c <? 2048); [|destruct (c <? 65536)]];
    simpl; lia.
Qed.

Section ProxyLinks.
Context {U : UnicodeTables}.

Lemma isSpecial_endSegment u buffer slash :
  isSpecial (endSegment u buffer slash) = isSpecial u.
Proof.
  unfold endSegment, shorten, appendSegment, isSpecial.
  repeat match goal with
         | |- context [if ?b then _ else _] => destruct b
         | |- context [match ?l with [] => _ | _ :: _ => _ end] => destruct l
         end; reflexivity.
Qed.

(** From the path state, a query that follows is stored percent-encoded. *)
Lemma query_of_path_state a : forall u buffer q,
  Forall (fun c => c <> ch "?" /\ c <> ch "#") a ->
  Forall (fun c => c <> ch "#") q ->
  url_query (path_state u buffer (a ++ ch "?" :: q)) =
  Some (percentEncodeString
          (if isSpecial u then inSpecialQuerySet else inQuerySet) q).
Proof.
  induction a as [|c a IH]; intros u buffer q Ha Hq.
  - cbn [app path_state]. change (ch "?" =? ch "/") with false.
    change (ch "?" =? ch "\") with false. rewrite andb_false_r.
    cbn [orb]. rewrite N.eqb_refl. unfold query_state.
    rewrite (breakAt_absent _ _ Hq).
    change (isSpecial (set_query (endSegment u buffer false) (Some [])))
      with (isSpecial (endSegment u buffer false)).
    rewrite isSpecial_endSegment. reflexivity.
  - inversion Ha as [|c' a' [Hc1 Hc2] Ha']; subst.
    cbn [app path_state].
    destruct (_ || _).
    + rewrite IH by assumption. now rewrite isSpecial_endSegment.
    + rewrite (proj2 (N.eqb_neq _ _) Hc1), (proj2 (N.eqb_neq _ _) Hc2).
      now apply IH.
Qed.

Lemma length_href_query u q :
  url_query u = Some q -> (length q < length (href u))%nat.
Proof.
  intros H. unfold href, urlSerialize. rewrite H, !length_app. simpl. lia.
Qed.

Lemma proxyPath_plain :
  Forall (fun c => c <> ch "?" /\ c <> ch "#") proxyPath.
Proof. repeat constructor; discriminate. Qed.

Lemma proxy_link_shape e :
  proxyPrefix ++ e = ch "/" :: proxyPath ++ ch "?" :: js "url=" ++ e.
Proof. reflexivity. Qed.

Lemma printable_no c s : (c <= 32 \/ 127 <= c) -> printable s -> Forall (fun x => x <> c) s.
Proof. intros Hc. apply Forall_impl. intros x Hx. lia. Qed.

Lemma encoded_no_hash e :
  forallb encodedUnit e = true -> Forall (fun c => c <> ch "#") (js "url=" ++ e).
Proof.
  intros H. apply Forall_app. split; [repeat constructor; discriminate|].
  apply Forall_forall. intros c Hc. rewrite forallb_forall in H.
  apply H in Hc. intros ->. discriminate Hc.
Qed.

Lemma Some_elim {A} (P : A -> Prop) (a r : A) : P a -> Some a = Some r -> P r.
Proof. intros H E. injection E as <-. exact H. Qed.

(** Resolving a proxy link against any base keeps its query. *)
Lemma parse_proxy_link e base r :
  forallb encodedUnit e = true ->
  basicParse (proxyPrefix ++ e) base = Some r ->
  exists set, url_query r = Some (percentEncodeString set (js "url=" ++ e)).
Proof.
  intros He. unfold basicParse.
  rewrite preprocess_printable.
  2:{ apply Forall_app. split; [|now apply printable_encoded].
      repeat constructor; vm_compute; reflexivity. }
  rewrite proxy_link_shape.
  change (isAlpha (ch "/")) with false. cbv iota.
  pose proof (encoded_no_hash e He) as Hq.
  assert (Hpath : forall u,
            exists set,
              url_query (path_state u [] (proxyPath ++ ch "?" :: js "url=" ++ e))
              = Some (percentEncodeString set (js "url=" ++ e))).
  { intros u. eexists. apply query_of_path_state; [apply proxyPath_plain|exact Hq]. }
  unfold no_scheme_state. destruct base as [b|]; [|intros H; discriminate H].
  destruct (hasOpaquePath b); [intros H; discriminate H|].
  destruct (negb _).
  - unfold relative_state. cbv iota. rewrite N.eqb_refl.
    unfold relative_slash_state.
    change (proxyPath ++ ch "?" :: js "url=" ++ e)
      with (ch "." :: tl proxyPath ++ ch "?" :: js "url=" ++ e).
    cbv iota. change (isSlashOrBackslash (ch ".")) with false.
    rewrite andb_false_r. change (ch "." =? ch "/") with false. cbv iota.
    apply (Some_elim (fun x => exists set, url_query x = Some _)), Hpath.
  - unfold file_state.
    change (isSlashOrBackslash (ch "/")) with true. cbv iota.
    cbn [tl]. unfold file_slash_state.
    change (proxyPath ++ ch "?" :: js "url=" ++ e)
      with (ch "." :: tl proxyPath ++ ch "?" :: js "url=" ++ e).
    cbv iota. change (isSlashOrBackslash (ch ".")) with false. cbv iota.
    apply (Some_elim (fun x => exists set, url_query x = Some _)), Hpath.
Qed.

(** The proxy link made from the [href] of what [v] resolves to is never
    [v] itself. *)
Lemma proxy_link_not_fixed v base u e :
  URL_new v (Some base) = Some u ->
  encodeURIComponent (href u) = Some e ->
  proxyPrefix ++ e <> v.
Proof.
  intros Hu He <-. unfold URL_new in Hu.
  destruct (basicParse (toCodePoints base) None) as [pb|]; [|discriminate].
  pose proof (encode_encoded _ _ He) as Henc.
  rewrite toCodePoints_ascii in Hu.
  2:{ apply printable_ascii, Forall_app. split; [|now apply printable_encoded].
      repeat constructor; vm_compute; reflexivity. }
  apply parse_proxy_link in Hu as [set Hq]; [|exact Henc].
  apply length_href_query in Hq. apply encode_length in He.
  pose proof (length_percentEncodeString set (js "url=" ++ e)) as Hl.
  rewrite length_app in Hl. change (length (js "url=")) with 4%nat in Hl. lia.
Qed.

End ProxyLinks.

(* ================================================================= *)
(** ** The URL Rewriter *)

Lemma startsWith_app p s : startsWith p (p ++ s) = true.
Proof. induction p as [|c p IH]; [reflexivity|]. simpl. now rewrite N.eqb_refl. Qed.

Lemma skipn_prefix {A} (p s : list A) : skipn (length p) (p ++ s) = s.
Proof. induction p; [reflexivity|assumption]. Qed.

(** The target embedded in a proxy link is the string that was encoded. *)
Lemma embeddedTarget_proxy h e :
  Forall (fun c => c < 65536) h ->
  encodeURIComponent h = Some e ->
  embeddedTarget (proxyPrefix ++ e) = Some h.
Proof.
  intros Hwf He. unfold embeddedTarget.
  rewrite startsWith_app, skipn_prefix, breakAt_absent.
  - now apply decode_encode.
  - apply Forall_forall. intros c Hc ->.
    pose proof (encode_encoded _ _ He) as H. rewrite forallb_forall in H.
    specialize (H _ Hc). discriminate H.
Qed.

Section RewriterTheorems.
Context {U : UnicodeTables}.

Lemma shouldRewriteAttr_nonNavigable c s :
  shouldRewriteAttr (Some (c :: s)) = negb (nonNavigable (c :: s)).
Proof. reflexivity. Qed.

Lemma isWhiteSpace_printable c : 32 < c < 127 -> isWhiteSpace c = false.
Proof. intros H. unfold isWhiteSpace. decide_tests. reflexivity. Qed.

(** A proxy link is itself a value the rewriter rewrites. *)
Lemma nonNavigable_proxy_link e :
  forallb encodedUnit e = true -> nonNavigable (proxyPrefix ++ e) = false.
Proof.
  intros He. unfold nonNavigable.
  assert (Hp : printable (proxyPrefix ++ e)).
  { apply Forall_app. split; [|now apply printable_encoded].
    repeat constructor; vm_compute; reflexivity. }
  assert (Hw : Forall (fun c => isWhiteSpace c = false) (proxyPrefix ++ e)).
  { eapply Forall_impl; [|exact Hp]. intros c Hc. now apply isWhiteSpace_printable. }
  unfold trim. rewrite (dropWhile_id _ _ Hw), (dropWhileEnd_id _ _ Hw).
  unfold toLowerCase.
  rewrite (forallb_of_ascii _ (printable_ascii _ Hp)). reflexivity.
Qed.

(** Where the rewriter does rewrite. *)
Lemma maybeRewriteUrl_rewritten v base u :
  v <> [] -> nonNavigable v = false -> URL_new v (Some base) = Some u ->
  exists e, encodeURIComponent (href u) = Some e
            /\ maybeRewriteUrl (Some v) base = Some (proxyPrefix ++ e)
            /\ embeddedTarget (proxyPrefix ++ e) = Some (href u).
Proof.
  intros Hv Hn Hu. destruct v as [|c s]; [congruence|].
  pose proof (href_ascii _ _ _ Hu) as Ha.
  destruct (encode_ascii _ Ha) as [e He]. exists e.
  split; [exact He|]. split.
  - unfold maybeRewriteUrl. cbn [falsy isNil].
    rewrite shouldRewriteAttr_nonNavigable, Hn. cbn [negb].
    rewrite Hu. unfold makeProxyUrl. now rewrite He.
  - apply embeddedTarget_proxy; [now apply ascii_wellFormed|exact He].
Qed.

(** Where it does not. *)
Lemma maybeRewriteUrl_unchanged v base :
  v = [] \/ nonNavigable v = true \/ URL_new v (Some base) = None ->
  maybeRewriteUrl (Some v) base = Some v.
Proof.
  intros H. destruct v as [|c s]; [reflexivity|].
  unfold maybeRewriteUrl. cbn [falsy isNil].
  rewrite shouldRewriteAttr_nonNavigable.
  destruct (nonNavigable (c :: s)); [reflexivity|]. cbn [negb].
  destruct H as [H|[H|H]]; [discriminate|discriminate|]. now rewrite H.
Qed.

End RewriterTheorems.

(** C6. [maybeRewriteUrl] returns its argument unchanged in exactly three
    cases: the value is null or empty; its trimmed, lower-cased form
    starts with [data:], [javascript:], [mailto:] or [#]; or resolving it
    against the base URL fails.  The function is total: a failure to
    resolve is answered with the value itself. *)
Theorem maybeRewriteUrl_unchanged_iff {U : UnicodeTables}
    (attrValue : option jsstring) (baseUrl : jsstring) :
  maybeRewriteUrl attrValue baseUrl = attrValue <->
  falsy attrValue = true
  \/ (exists v, attrValue = Some v /\ nonNavigable v = true)
  \/ (exists v, attrValue = Some v /\ URL_new v (Some baseUrl) = None).
Proof.
  destruct attrValue as [v|]; [|split; [now left|reflexivity]].
  split.
  - intros H. destruct v as [|c s]; [now left|].
    destruct (nonNavigable (c :: s)) eqn:En; [right; left; now exists (c :: s)|].
    destruct (URL_new (c :: s) (Some baseUrl)) as [u|] eqn:Eu;
      [|right; right; now exists (c :: s)].
    destruct (maybeRewriteUrl_rewritten (c :: s) baseUrl u) as (e & He & Hr & _);
      [discriminate|assumption|assumption|].
    pose proof (eq_trans (eq_sym Hr) H) as H'.
    apply (f_equal (fun o => match o with Some x => x | None => [] end)) in H'.
    now apply (proxy_link_not_fixed _ _ _ _ Eu He) in H'.
  - intros H. apply maybeRewriteUrl_unchanged.
    destruct H as [H|[(v' & [= <-] & H)|(v' & [= <-] & H)]]; auto.
    destruct v; [now left|discriminate].
Qed.

(** C7. The rewriter resolves a value against the base URL with the URL
    parser of the URL Standard: a value that is rewritten becomes the
    proxy link of the serialization of [new URL(value, base)].  With base
    [https://example.com/dir/page.html], the value [../img/a.png] becomes
    a proxy link that embeds [https://example.com/img/a.png]; a
    protocol-relative, a path-relative and a path-absolute value resolve
    against the base likewise, and an absolute URL goes through but for
    its normalization. *)
Theorem maybeRewriteUrl_resolves_against_base {U : UnicodeTables} :
  let base := js "https://example.com/dir/page.html" in
  let target v := match maybeRewriteUrl (Some (js v)) base with
                  | Some link => embeddedTarget link
                  | None => None
                  end in
  (forall v baseUrl resolved,
     v <> [] -> nonNavigable v = false ->
     URL_new v (Some baseUrl) = Some resolved ->
     maybeRewriteUrl (Some v) baseUrl = makeProxyUrl (href resolved)
     /\ exists link, makeProxyUrl (href resolved) = Some link
                     /\ embeddedTarget link = Some (href resolved))
  /\ maybeRewriteUrl (Some (js "../img/a.png")) base
     = Some (js "/.netlify/functions/proxy?url=https%3A%2F%2Fexample.com%2Fimg%2Fa.png")
  /\ target "../img/a.png"%string = Some (js "https://example.com/img/a.png")
  /\ target "//cdn.example.net/lib.js"%string = Some (js "https://cdn.example.net/lib.js")
  /\ target "other.html?x=1"%string = Some (js "https://example.com/dir/other.html?x=1")
  /\ target "/about"%string = Some (js "https://example.com/about")
  /\ target "HTTP://Example.ORG:80/a/./b/../c"%string = Some (js "http://example.org/a/c").
Proof.
  split; [|repeat split; vm_compute; reflexivity].
  intros v baseUrl resolved Hv Hn Hr.
  destruct (maybeRewriteUrl_rewritten v baseUrl resolved Hv Hn Hr)
    as (e & He & Hlink & Ht).
  unfold makeProxyUrl. rewrite He. cbn [option_map].
  split; [exact Hlink|]. now exists (proxyPrefix ++ e).
Qed.

(** C4, as stated, fails: [https://example.com] is a valid absolute URL,
    and the parameter embedded by the rewriter decodes to its normalized
    form [https://example.com/], which is another string. *)
Lemma roundtrip_counterexample :
  let u := js "https://example.com" in
  (exists r, URL_new (U := asciiOnly) u None = Some r)
  /\ exists link,
       maybeRewriteUrl (U := asciiOnly) (Some u) (js "https://example.org/")
       = Some link
       /\ embeddedTarget link = Some (js "https://example.com/")
       /\ js "https://example.com/" <> u.
Proof.
  split; [vm_compute; eexists; reflexivity|].
  eexists. split; [vm_compute; reflexivity|].
  split; [vm_compute; reflexivity|discriminate].
Qed.

(** C4, amended.  For every value the rewriter rewrites (not empty, not
    non-navigable, resolvable against the base), percent-decoding the
    [url] parameter of the link gives exactly the serialization of the
    URL the value resolves to, that is, the value normalized. *)
Theorem embedded_target_is_resolved_href {U : UnicodeTables}
    (u base : jsstring) (r : URLRecord) :
  u <> [] -> nonNavigable u = false -> URL_new u (Some base) = Some r ->
  exists link, maybeRewriteUrl (Some u) base = Some link
               /\ embeddedTarget link = Some (href r).
Proof.
  intros Hu Hn Hr.
  destruct (maybeRewriteUrl_rewritten u base r Hu Hn Hr) as (e & _ & H1 & H2).
  eauto.
Qed.

Lemma embedded_target_is_resolved_href_witness :
  exists link,
    maybeRewriteUrl (U := asciiOnly) (Some (js "https://example.com"))
                    (js "https://example.org/")
    = Some link
    /\ embeddedTarget link = Some (js "https://example.com/").
Proof.
  assert (H : exists r, URL_new (U := asciiOnly) (js "https://example.com")
                          (Some (js "https://example.org/")) = Some r
                        /\ href r = js "https://example.com/").
  { eexists. split; vm_compute; reflexivity. }
  destruct H as (r & Hr & Hh). rewrite <- Hh.
  apply (embedded_target_is_resolved_href (U := asciiOnly)
           (js "https://example.com")
           (js "https://example.org/") r); [discriminate|reflexivity|exact Hr].
Defined.

(** C5, as stated, fails: rewriting [/about] gives a link to
    [https://example.com/about]; rewriting that link again gives one whose
    parameter decodes to the first link resolved against the base, and
    not to the first target. *)
Lemma second_rewrite_counterexample :
  let base := js "https://example.com/" in
  exists first second,
    maybeRewriteUrl (U := asciiOnly) (Some (js "/about")) base = Some first
    /\ embeddedTarget first = Some (js "https://example.com/about")
    /\ maybeRewriteUrl (U := asciiOnly) (Some first) base = Some second
    /\ embeddedTarget second
       = Some (js "https://example.com/.netlify/functions/proxy?url=https%3A%2F%2Fexample.com%2Fabout")
    /\ embeddedTarget second <> embeddedTarget first.
Proof.
  do 2 eexists. split; [vm_compute; reflexivity|].
  split; [vm_compute; reflexivity|].
  split; [vm_compute; reflexivity|].
  split; [vm_compute; reflexivity|]. vm_compute. discriminate.
Qed.

(** C5, amended.  Applied to the proxy link [first] made by a first
    rewrite, the rewriter treats it as any other value: when [first]
    resolves against the base it is wrapped again, into another link whose
    parameter decodes to [first] as resolved against the base; when it
    does not resolve it is left as it is. *)
Theorem second_rewrite_wraps_first_link {U : UnicodeTables}
    (v base first : jsstring) :
  maybeRewriteUrl (Some v) base = Some first -> first <> v ->
  match URL_new first (Some base) with
  | Some resolved =>
      exists second,
        maybeRewriteUrl (Some first) base = Some second
        /\ embeddedTarget second = Some (href resolved)
        /\ second <> first
  | None => maybeRewriteUrl (Some first) base = Some first
  end.
Proof.
  intros H1 Hne.
  assert (Hshape : exists e, first = proxyPrefix ++ e /\ forallb encodedUnit e = true).
  { destruct v as [|c s]; [injection H1 as <-; congruence|].
    destruct (nonNavigable (c :: s)) eqn:En.
    { rewrite maybeRewriteUrl_unchanged in H1 by auto. injection H1 as <-. congruence. }
    destruct (URL_new (c :: s) (Some base)) as [u|] eqn:Eu.
    2:{ rewrite maybeRewriteUrl_unchanged in H1 by auto. injection H1 as <-. congruence. }
    destruct (maybeRewriteUrl_rewritten (c :: s) base u) as (e & He & Hr & _);
      [discriminate|assumption|assumption|].
    exists e. split; [|now apply encode_encoded in He].
    pose proof (eq_trans (eq_sym H1) Hr) as H'.
    now apply (f_equal (fun o => match o with Some x => x | None => [] end)) in H'. }
  destruct Hshape as (e & -> & He).
  destruct (URL_new (proxyPrefix ++ e) (Some base)) as [u2|] eqn:Eu2.
  - destruct (maybeRewriteUrl_rewritten (proxyPrefix ++ e) base u2)
      as (e2 & He2 & Hr2 & Ht2);
      [discriminate|now apply nonNavigable_proxy_link|assumption|].
    exists (proxyPrefix ++ e2). split; [exact Hr2|]. split; [exact Ht2|].
    now apply (proxy_link_not_fixed _ _ _ _ Eu2 He2).
  - apply maybeRewriteUrl_unchanged. auto.
Qed.

Lemma second_rewrite_wraps_first_link_witness :
  exists second,
    maybeRewriteUrl (U := asciiOnly)
      (Some (js "/.netlify/functions/proxy?url=https%3A%2F%2Fexample.com%2Fabout"))
      (js "https://example.com/") = Some second
    /\ embeddedTarget second
       = Some (js "https://example.com/.netlify/functions/proxy?url=https%3A%2F%2Fexample.com%2Fabout")
    /\ second <> js "/.netlify/functions/proxy?url=https%3A%2F%2Fexample.com%2Fabout".
Proof.
  exact (second_rewrite_wraps_first_link (U := asciiOnly)
           (js "/about") (js "https://example.com/")
           (js "/.netlify/functions/proxy?url=https%3A%2F%2Fexample.com%2Fabout")
           eq_refl
           (fun E => match E in _ = x return match x with
                                             | 47 :: 46 :: _ => True
                                             | _ => False
                                             end
                     with eq_refl => I end)).
Defined.

(* ================================================================= *)
(** ** Documents *)

Lemma str_eqb_eq a : forall b, str_eqb a b = true <-> a = b.
Proof.
  induction a as [|x a IH]; intros [|y b]; simpl; split; intros H;
    try discriminate; try reflexivity.
  - apply andb_true_iff in H as [H1 H2]. apply N.eqb_eq in H1. apply IH in H2.
    now subst.
  - injection H as -> ->. rewrite N.eqb_refl. now apply IH.
Qed.

Lemma str_eqb_refl a : str_eqb a a = true.
Proof. now apply str_eqb_eq. Qed.

Lemma getProp_setProp k v o : getProp k (setProp k v o) = Some v.
Proof.
  induction o as [|[k' v'] o IH]; simpl.
  - now rewrite str_eqb_refl.
  - destruct (str_eqb k' k) eqn:E; simpl; now rewrite E.
Qed.

Lemma flat_map_ext_Forall {A B} (f g : A -> list B) l :
  Forall (fun x => f x = g x) l -> flat_map f l = flat_map g l.
Proof. induction 1 as [|x l Hx Hl IH]; simpl; [reflexivity|]. now rewrite Hx, IH. Qed.

Lemma flat_map_map {A B C} (f : B -> list C) (g : A -> B) l :
  flat_map f (map g l) = flat_map (fun x => f (g x)) l.
Proof. induction l as [|x l IH]; simpl; [reflexivity|]. now rewrite IH. Qed.

Lemma collect_mapAttribs {A} (g : jsstring -> JSObject -> list A) f n :
  collect g (mapAttribs f n) = collect (fun name a => g name (f name a)) n.
Proof.
  induction n as [| | |name attribs children IH] using Node_induction;
    try reflexivity.
  cbn [mapAttribs collect]. f_equal. rewrite flat_map_map.
  now apply flat_map_ext_Forall.
Qed.

Lemma collect_prependTo {A} (g : jsstring -> JSObject -> list A) sel nodes n :
  flat_map (collect g) nodes = [] ->
  collect g (prependTo sel nodes n) = collect g n.
Proof.
  intros Hn.
  induction n as [| | |name attribs children IH] using Node_induction;
    try reflexivity.
  cbn [prependTo collect]. f_equal. rewrite flat_map_app, flat_map_map.
  rewrite (flat_map_ext_Forall _ _ _ IH).
  destruct (str_eqb name sel); [now rewrite Hn|reflexivity].
Qed.

Lemma flat_map_ext_all {A B} (f g : A -> list B) l :
  (forall x, f x = g x) -> flat_map f l = flat_map g l.
Proof. intros H. apply flat_map_ext_Forall, Forall_forall. auto. Qed.

Lemma in_collect {A} (g : jsstring -> JSObject -> list A) x n :
  In x (collect g n) ->
  exists name attribs, In x (g name attribs)
    /\ forall (h : jsstring -> JSObject -> list A) y,
         In y (h name attribs) -> In y (collect h n).
Proof.
  induction n as [| | |name attribs children IH] using Node_induction;
    try contradiction.
  cbn [collect]. intros H. apply in_app_or in H as [H|H].
  - exists name, attribs. split; [exact H|]. intros h y Hy.
    cbn [collect]. apply in_or_app. now left.
  - apply in_flat_map in H as (c & Hc & Hx).
    rewrite Forall_forall in IH. destruct (IH c Hc Hx) as (nm & at' & H1 & H2).
    exists nm, at'. split; [exact H1|]. intros h y Hy. cbn [collect].
    apply in_or_app. right. apply in_flat_map. exists c. split; [exact Hc|].
    now apply H2.
Qed.

Lemma mapAttribs_id n : mapAttribs (fun _ a => a) n = n.
Proof.
  induction n as [| | |name attribs children IH] using Node_induction;
    try reflexivity.
  cbn [mapAttribs]. f_equal. induction IH as [|x l Hx Hl IHl]; [reflexivity|].
  cbn [map]. now rewrite Hx, IHl.
Qed.

Lemma mapAttribs_mapAttribs f g n :
  mapAttribs g (mapAttribs f n) = mapAttribs (fun name a => g name (f name a)) n.
Proof.
  induction n as [| | |name attribs children IH] using Node_induction;
    try reflexivity.
  cbn [mapAttribs]. f_equal. rewrite map_map.
  induction IH as [|x l Hx Hl IHl]; [reflexivity|].
  cbn [map]. now rewrite Hx, IHl.
Qed.

Section DocumentTheorems.
Context {U : UnicodeTables}.

Lemma fold_each baseUrl (l : list (jsstring * jsstring)) : forall d,
  fold_left (fun d e => each (fst e) (rewriteAttr (snd e) baseUrl) d) l d
  = map (mapAttribs
           (fun name a =>
              fold_left (fun a e => if str_eqb name (fst e)
                                    then rewriteAttr (snd e) baseUrl a else a)
                        l a)) d.
Proof.
  induction l as [|e l IH]; intros d.
  - cbn [fold_left]. induction d as [|n d IHd]; [reflexivity|].
    cbn [map]. now rewrite mapAttribs_id, <- IHd.
  - cbn [fold_left]. rewrite IH. unfold each. rewrite map_map.
    apply map_ext. intros n. apply mapAttribs_mapAttribs.
Qed.

Lemma linkValues_rewriteDocument baseUrl d :
  linkValues (rewriteDocument baseUrl d)
  = flat_map (collect (fun name a =>
                linkValuesOf name (rewriteMeta baseUrl name
                                     (rewriteAttrs baseUrl name a)))) d.
Proof.
  unfold linkValues, rewriteDocument. rewrite fold_each, !flat_map_map.
  apply flat_map_ext_all. intros n.
  rewrite collect_prependTo by reflexivity.
  now rewrite !collect_mapAttribs.
Qed.

Lemma in_linkValuesOf v name attribs :
  In v (linkValuesOf name attribs) <->
  exists attr, In (name, attr) attrs /\ getProp attr attribs = Some v.
Proof.
  unfold linkValuesOf. rewrite in_flat_map. split.
  - intros ([sel attr] & Hin & Hv). cbn [fst snd] in Hv.
    destruct (str_eqb name sel) eqn:E; [|contradiction].
    apply str_eqb_eq in E. subst sel. exists attr. split; [exact Hin|].
    destruct (getProp attr attribs); [|contradiction].
    destruct Hv as [->|[]]. reflexivity.
  - intros (attr & Hin & Hv). exists (name, attr). split; [exact Hin|].
    cbn [fst snd]. rewrite str_eqb_refl, Hv. now left.
Qed.

(** An element of the table is rewritten once, on its own attribute, and
    the meta-refresh pass leaves it alone. *)
Lemma rewrite_table_element baseUrl name attr attribs :
  In (name, attr) attrs ->
  rewriteMeta baseUrl name (rewriteAttrs baseUrl name attribs)
  = rewriteAttr attr baseUrl attribs.
Proof.
  intros H. unfold attrs in H. cbn [In] in H.
  repeat (destruct H as [[= <- <-]|H]; [reflexivity|]). contradiction.
Qed.

Lemma maybeRewriteUrl_some v baseUrl :
  exists w, maybeRewriteUrl (Some v) baseUrl = Some w.
Proof.
  unfold maybeRewriteUrl. destruct (falsy (Some v)); [eauto|].
  destruct (negb _); [eauto|]. destruct (URL_new _ _); [|eauto].
  destruct (makeProxyUrl _); eauto.
Qed.

Lemma getProp_rewriteAttr attr baseUrl attribs v' :
  getProp attr (rewriteAttr attr baseUrl attribs) = Some v' ->
  exists v, getProp attr attribs = Some v
            /\ maybeRewriteUrl (Some v) baseUrl = Some v'.
Proof.
  unfold rewriteAttr. destruct (getProp attr attribs) as [v|] eqn:Ev.
  - destruct v as [|c s].
    + cbn [falsy isNil]. rewrite Ev. intros [= <-]. now exists [].
    + cbn [falsy isNil].
      destruct (maybeRewriteUrl_some (c :: s) baseUrl) as [w Hw].
      rewrite Hw. cbn [setAttr]. rewrite getProp_setProp. intros [= <-].
      now exists (c :: s).
  - cbn [falsy]. rewrite Ev. discriminate.
Qed.

Lemma href_absolute u : url_ok u -> isAbsoluteURL (href u).
Proof.
  intros H. exists (url_scheme u). eexists. split; [reflexivity|]. now destruct H.
Qed.

(** Every link-bearing value of the rewritten document comes from one of
    the document, through [maybeRewriteUrl]. *)
Lemma linkValues_from_input baseUrl d v' :
  In v' (linkValues (rewriteDocument baseUrl d)) ->
  exists v, In v (linkValues d) /\ maybeRewriteUrl (Some v) baseUrl = Some v'.
Proof.
  rewrite linkValues_rewriteDocument. intros H.
  apply in_flat_map in H as (n & Hn & H).
  apply in_collect in H as (name & attribs & H & Hin).
  apply in_linkValuesOf in H as (attr & Ht & Hv).
  rewrite (rewrite_table_element _ _ attr) in Hv by exact Ht.
  apply getProp_rewriteAttr in Hv as (v & Hv & Hr).
  exists v. split; [|exact Hr].
  unfold linkValues. apply in_flat_map. exists n. split; [exact Hn|].
  apply Hin. apply in_linkValuesOf. now exists attr.
Qed.

End DocumentTheorems.

(* ================================================================= *)
(** ** Base64 *)

Lemma base64Value_base64Char n :
  n < 64 -> base64Value (base64Char n) = Some n /\ (base64Char n =? ch "=") = false.
Proof. intros H. enumerate n 0 64%nat; split; reflexivity. Qed.

Lemma of_N_to_N_eq n x : n = Byte.to_N x -> Byte.of_N n = Some x.
Proof. intros ->. apply Byte.of_to_N. Qed.

Ltac base64_digit :=
  match goal with
  | |- context [base64Value (base64Char ?n)] =>
      let H := fresh in
      destruct (base64Value_base64Char n) as [H _]; [lia|rewrite H; clear H]
  | |- context [base64Char ?n =? ch "="] =>
      let H := fresh in
      destruct (base64Value_base64Char n) as [_ H]; [lia|rewrite H; clear H]
  end.

(** Decoding what [toString('base64')] wrote gives the bytes back. *)
Lemma base64_roundtrip_bounded n : forall bs,
  (length bs <= n)%nat -> base64Decode (base64Encode bs) = Some bs.
Proof.
  induction n as [|n IH]; intros bs Hlen.
  - destruct bs; [reflexivity|simpl in Hlen; lia].
  - destruct bs as [|x [|y [|z rest]]]; [reflexivity| | |].
    + pose proof (Byte.to_N_bounded x) as Hx.
      cbn [base64Encode base64Decode]. repeat base64_digit.
      rewrite N.eqb_refl. cbn [andb isNil].
      replace ((Byte.to_N x mod 4 * 16) mod 16 =? 0) with true
        by (symmetry; apply N.eqb_eq; lia).
      unfold bytesOf. cbn [mapM].
      rewrite (of_N_to_N_eq _ x) by lia. reflexivity.
    + pose proof (Byte.to_N_bounded x) as Hx. pose proof (Byte.to_N_bounded y) as Hy.
      cbn [base64Encode base64Decode]. repeat base64_digit.
      rewrite N.eqb_refl. cbn [andb isNil].
      replace ((Byte.to_N y mod 16 * 4) mod 4 =? 0) with true
        by (symmetry; apply N.eqb_eq; lia).
      unfold bytesOf. cbn [mapM].
      rewrite (of_N_to_N_eq _ x), (of_N_to_N_eq _ y) by lia. reflexivity.
    + pose proof (Byte.to_N_bounded x) as Hx. pose proof (Byte.to_N_bounded y) as Hy.
      pose proof (Byte.to_N_bounded z) as Hz.
      cbn [base64Encode base64Decode]. repeat base64_digit.
      cbn [andb]. rewrite IH by (simpl in Hlen; lia).
      unfold bytesOf. cbn [mapM].
      rewrite (of_N_to_N_eq _ x), (of_N_to_N_eq _ y), (of_N_to_N_eq _ z) by lia.
      reflexivity.
Qed.

Lemma base64_roundtrip bs : base64Decode (base64Encode bs) = Some bs.
Proof. now apply (base64_roundtrip_bounded (length bs)). Qed.

(* ================================================================= *)
(** ** The claims on documents *)

(** C1, as stated, fails: a value that does not resolve ([http://] has no
    host) and an empty value stay in the output as they are, and they
    are neither non-navigable nor proxy links. *)
Lemma link_invariant_counterexample :
  let doc := [ Element (js "a") [(js "href", js "http://")] [];
               Element (js "img") [(js "src", [])] [] ] in
  let out := rewriteDocument (U := asciiOnly) (js "https://example.com/") doc in
  linkValues out = [js "http://"; []]
  /\ nonNavigable (U := asciiOnly) (js "http://") = false
  /\ embeddedTarget (js "http://") = None
  /\ nonNavigable (U := asciiOnly) [] = false
  /\ embeddedTarget [] = None.
Proof. repeat split; vm_compute; reflexivity. Qed.

(** C1, amended.  For every HTML upstream response the body returned is
    the serialization of the rewritten document, and every link-bearing
    attribute value of that document comes from a value [v] of the parsed
    document and is either [v] unchanged, where [v] is empty,
    non-navigable or does not resolve against the effective base URL, or
    the proxy link whose [url] parameter decodes to the absolute URL that
    [v] resolves to against the effective base URL. *)
Theorem html_links_after_rewrite {U : UnicodeTables} {R : Runtime}
    (target : jsstring) (res : FetchResponse) (bytes : list Byte.byte) :
  let contentType := orEmpty (getProp (js "content-type") (res_headers res)) in
  let baseUrl := match res_url res with [] => target | u => u end in
  let doc := cheerio_load (decodeText bytes) in
  isHtmlContentType (Some contentType) = true ->
  res_body res = Ok bytes ->
  (exists r, afterFetch target res = Ok r
             /\ resp_body r = cheerio_html (rewriteDocument baseUrl doc))
  /\ forall v', In v' (linkValues (rewriteDocument baseUrl doc)) ->
       exists v, In v (linkValues doc)
         /\ ((v' = v /\ (v = [] \/ nonNavigable v = true
                         \/ URL_new v (Some baseUrl) = None))
             \/ (exists r, URL_new v (Some baseUrl) = Some r
                           /\ makeProxyUrl (href r) = Some v'
                           /\ embeddedTarget v' = Some (href r)
                           /\ isAbsoluteURL (href r))).
Proof.
  intros contentType baseUrl doc Hhtml Hbody. split.
  - unfold afterFetch. fold contentType. rewrite Hhtml, Hbody.
    eexists. split; reflexivity.
  - intros v' Hin. apply linkValues_from_input in Hin as (v & Hv & Hr).
    exists v. split; [exact Hv|].
    destruct v as [|c s].
    { left. injection Hr as <-. split; [reflexivity|now left]. }
    destruct (nonNavigable (c :: s)) eqn:En.
    { left. rewrite maybeRewriteUrl_unchanged in Hr by auto.
      injection Hr as <-. split; [reflexivity|auto]. }
    destruct (URL_new (c :: s) (Some baseUrl)) as [r|] eqn:Eu.
    2:{ left. rewrite maybeRewriteUrl_unchanged in Hr by auto.
        injection Hr as <-. split; [reflexivity|auto]. }
    right. exists r. split; [reflexivity|].
    destruct (maybeRewriteUrl_rewritten (c :: s) baseUrl r) as (e & He & Hr' & Ht);
      [discriminate|assumption|assumption|].
    pose proof (eq_trans (eq_sym Hr) Hr') as Hv'.
    apply (f_equal (fun o => match o with Some x => x | None => [] end)) in Hv'.
    cbv beta iota in Hv'. subst v'.
    split; [unfold makeProxyUrl; now rewrite He|]. split; [exact Ht|].
    apply href_absolute. eapply ok_URL_new, Eu.
Qed.

Lemma html_links_after_rewrite_witness :
  let R := exampleRuntime None sampleUpstream samplePage in
  let base := js "https://example.com/" in
  let res := mkFetchResponse 200 [(js "content-type", js "text/html")]
                             base (Ok []) in
  let out := rewriteDocument (U := asciiOnly) base samplePage in
  linkValues samplePage = [js "/about"; js "#top"; js "http://"]
  /\ linkValues out
     = [ js "/.netlify/functions/proxy?url=https%3A%2F%2Fexample.com%2Fabout";
         js "#top"; js "http://" ]
  /\ (exists r, afterFetch (U := asciiOnly) (R := R)
                  (js "https://example.com") res = Ok r
                /\ resp_body r = cheerio_html (Runtime := R) out)
  /\ forall v', In v' (linkValues out) ->
       exists v, In v (linkValues samplePage)
         /\ ((v' = v /\ (v = [] \/ nonNavigable (U := asciiOnly) v = true
                         \/ URL_new (U := asciiOnly) v (Some base) = None))
             \/ (exists r, URL_new (U := asciiOnly) v (Some base) = Some r
                           /\ makeProxyUrl (href r) = Some v'
                           /\ embeddedTarget v' = Some (href r)
                           /\ isAbsoluteURL (href r))).
Proof.
  split; [vm_compute; reflexivity|]. split; [vm_compute; reflexivity|].
  refine (html_links_after_rewrite (U := asciiOnly)
            (R := exampleRuntime None sampleUpstream samplePage)
            (js "https://example.com")
            (mkFetchResponse 200 [(js "content-type", js "text/html")]
                             (js "https://example.com/") (Ok []))
            [] _ _); vm_compute; reflexivity.
Defined.

Section MetaRefresh.
Context {U : UnicodeTables}.

(** C8.  On a [meta] element whose [http-equiv] is [refresh] in any case
    and whose [content] has one semicolon, the new [content] is the
    delay, [;url=] and the rewritten URL part, an optional leading [url=]
    stripped; with a second semicolon the code writes what follows it
    once more after the rewritten URL. *)
Theorem meta_refresh_content (baseUrl : jsstring) :
  (forall attribs he content delay urlPart rewritten,
     getProp (js "http-equiv") attribs = Some he ->
     toLowerCase he = js "refresh" ->
     getProp (js "content") attribs = Some content ->
     split (ch ";") content = [delay; urlPart] ->
     maybeRewriteUrl (Some (stripUrlPrefix urlPart)) baseUrl = Some rewritten ->
     getProp (js "content") (rewriteMetaRefresh baseUrl attribs)
     = Some (delay ++ js ";url=" ++ rewritten))
  /\ rewriteMetaRefresh (js "https://example.com/")
       [ (js "http-equiv", js "Refresh");
         (js "content", js "0;URL=http://example.com/a;b") ]
     = [ (js "http-equiv", js "Refresh");
         (js "content",
          js "0;url=/.netlify/functions/proxy?url=http%3A%2F%2Fexample.com%2Fa%3Bb;b") ].
Proof.
  split; [|vm_compute; reflexivity].
  intros attribs he content delay urlPart rewritten Hhe Hlow Hc Hs Hr.
  unfold rewriteMetaRefresh. rewrite Hhe, Hc.
  assert (Hne : he <> []).
  { intros ->. discriminate Hlow. }
  assert (Hce : orEmpty (Some content) = content) by (destruct content; reflexivity).
  assert (Hhe' : orEmpty (Some he) = he) by (destruct he; reflexivity).
  rewrite Hhe', Hce, Hlow. change (str_eqb (js "refresh") (js "refresh")) with true.
  cbv iota. rewrite Hs. cbn [tl join]. rewrite Hr. cbn [interpolate].
  rewrite getProp_setProp. reflexivity.
Qed.

End MetaRefresh.

(* ================================================================= *)
(** ** The claims on the handler *)

Lemma getProp_setProp_other k k' v o :
  str_eqb k' k = false -> getProp k (setProp k' v o) = getProp k o.
Proof.
  intros Hk. induction o as [|[k0 v0] o IH]; simpl.
  - now rewrite Hk.
  - destruct (str_eqb k0 k') eqn:E; simpl.
    + apply str_eqb_eq in E. subst k0. now rewrite Hk.
    + now rewrite IH.
Qed.

Section HandlerTheorems.
Context {U : UnicodeTables} {R : Runtime}.

Lemma makeOutHeaders_cors res :
  getProp (js "access-control-allow-origin") (makeOutHeaders res) = Some (js "*").
Proof.
  unfold makeOutHeaders. rewrite getProp_setProp_other by reflexivity.
  apply getProp_setProp.
Qed.

Lemma afterFetch_cors target res r :
  afterFetch target res = Ok r -> allowsAnyOrigin r.
Proof.
  unfold afterFetch. destruct (isHtmlContentType _).
  - destruct (res_body res); [|discriminate]. intros [= <-].
    eexists. split; [reflexivity|].
    rewrite getProp_setProp_other by reflexivity. apply makeOutHeaders_cors.
  - destruct (res_body res); [|discriminate]. intros [= <-].
    eexists. split; [reflexivity|].
    destruct (orEmpty _); [apply makeOutHeaders_cors|].
    rewrite getProp_setProp_other by reflexivity. apply makeOutHeaders_cors.
Qed.

(** The responses the handler returns before it fetches. *)
Lemma beforeFetch_early event r :
  beforeFetch event = Ok (inl r) ->
  allowsAnyOrigin r
  \/ r = plain 400 "Missing url parameter"
  \/ r = plain 401 "Unauthorized: invalid proxy key"
  \/ r = plain 400 "Invalid target URL"
  \/ r = plain 403 "Forbidden host".
Proof.
  unfold beforeFetch.
  destruct (match httpMethod event with Some m => _ | None => false end).
  { intros [= <-]. left. eexists. split; reflexivity. }
  match goal with
  | |- context [match ?t with Ok _ => _ | Throw _ => _ end] =>
      destruct t as [[tv|]|]
  end; [| |discriminate].
  2:{ intros [= <-]. auto. }
  destruct (negb (truthy tv)); [intros [= <-]; auto|].
  destruct (match API_KEY with Some _ => _ | None => false end);
    [intros [= <-]; auto|].
  destruct (URL_new _ None); [|intros [= <-]; auto 6].
  destruct (isBlockedHost _); [intros [= <-]; auto 6|discriminate].
Qed.

(** C3.  A response of the handler carries [access-control-allow-origin]
    or is one of the four error responses it returns before fetching,
    which carry no headers at all: the request without [url] is answered
    400 with no header. *)
Theorem handler_cors_or_bare_error :
  (forall event,
     allowsAnyOrigin (handler event)
     \/ handler event = plain 400 "Missing url parameter"
     \/ handler event = plain 401 "Unauthorized: invalid proxy key"
     \/ handler event = plain 400 "Invalid target URL"
     \/ handler event = plain 403 "Forbidden host")
  /\ handler (mkEvent (Some (js "GET")) (Some []) None None false)
     = mkResponse 400 None (js "Missing url parameter") false.
Proof.
  split; [|reflexivity].
  intros event. unfold handler, handlerBody.
  destruct (beforeFetch event) as [[r|[target request]]|err] eqn:Eb.
  - now apply beforeFetch_early in Eb.
  - destruct (fetch request) as [res|err].
    + destruct (afterFetch target res) as [r|err] eqn:Ea.
      * left. now apply afterFetch_cors in Ea.
      * left. eexists. split; reflexivity.
    + left. eexists. split; reflexivity.
  - left. eexists. split; reflexivity.
Qed.

(** C9.  A content type is HTML exactly when the text before its first
    semicolon, trimmed and lower-cased, is [text/html], a missing or
    empty one is not; a response that is not HTML is returned with the
    upstream status, the flag [isBase64Encoded] set and a body that
    base64-decodes to the upstream bytes, and its [content-type] header
    is the upstream one when there is one. *)
Theorem content_type_branch :
  (forall contentType,
     isHtmlContentType contentType = true <->
     exists c, contentType = Some c
               /\ toLowerCase (trim (hd [] (split (ch ";") c))) = js "text/html")
  /\ (forall target res bytes,
        isHtmlContentType
          (Some (orEmpty (getProp (js "content-type") (res_headers res)))) = false ->
        res_body res = Ok bytes ->
        exists r,
          afterFetch target res = Ok r
          /\ statusCode r = res_status res
          /\ resp_isBase64Encoded r = true
          /\ base64Decode (resp_body r) = Some bytes
          /\ forall h c,
               resp_headers r = Some h ->
               getProp (js "content-type") (res_headers res) = Some c ->
               c <> [] -> getProp (js "content-type") h = Some c)
  /\ isHtmlContentType (Some (js " Text/HTML ; charset=iso-8859-1")) = true
  /\ isHtmlContentType (Some (js "application/xhtml+xml")) = false
  /\ afterFetch (js "https://example.com/logo.png")
       (mkFetchResponse 200 [(js "content-type", js "image/png")]
          (js "https://example.com/logo.png")
          (Ok [Byte.x89; Byte.x50; Byte.x4e; Byte.x47]))
     = Ok (mkResponse 200
             (Some [ (js "content-type", js "image/png");
                     (js "access-control-allow-origin", js "*");
                     (js "access-control-expose-headers",
                      js "content-type,access-control-allow-origin") ])
             (js "iVBORw==") true).
Proof.
  split; [|split; [|repeat split; vm_compute; reflexivity]].
  - intros [c|]; [|split; [discriminate|intros (c & [=] & _)]].
    destruct c as [|x c].
    + split; [discriminate|]. intros (c & [= <-] & H). discriminate H.
    + cbn [isHtmlContentType]. rewrite str_eqb_eq. split.
      * intros H. now exists (x :: c).
      * intros (c' & [= <-] & H). exact H.
  - intros target res bytes Hct Hb. unfold afterFetch. rewrite Hct, Hb.
    eexists. split; [reflexivity|]. cbn [statusCode resp_isBase64Encoded resp_body].
    split; [reflexivity|]. split; [reflexivity|].
    split; [apply base64_roundtrip|].
    intros h c Hh Hc Hne. cbn [resp_headers] in Hh. injection Hh as <-.
    rewrite Hc. destruct c as [|x c]; [congruence|]. cbn [orEmpty].
    apply getProp_setProp.
Qed.

(** C10, amended.  When the method is not [OPTIONS], the query has no
    (or an empty) [url], and the body is not empty and is not valid JSON,
    the handler answers 500 with the error of [JSON.parse] in the body. *)
Theorem invalid_json_body_is_500 (event : Event) (b err : jsstring) :
  httpMethod event <> Some (js "OPTIONS") ->
  falsy (getProp (js "url") (qs event)) = true ->
  body event = Some b -> b <> [] ->
  JSON_parse b = Throw err ->
  handler event
  = mkResponse 500 (Some [(js "access-control-allow-origin", js "*")])
               (js "Proxy error: " ++ err) false.
Proof.
  intros Hm Hq Hb Hne Hj. unfold handler, handlerBody, beforeFetch.
  replace (match httpMethod event with
           | Some m => str_eqb m (js "OPTIONS")
           | None => false
           end) with false.
  2:{ destruct (httpMethod event) as [m|]; [|reflexivity].
      destruct (str_eqb m (js "OPTIONS")) eqn:E; [|reflexivity].
      apply str_eqb_eq in E. congruence. }
  rewrite Hb.
  destruct (getProp (js "url") _) as [[|c s]|]; [|discriminate Hq|];
    (destruct b as [|c' b']; [congruence|]);
    unfold parsedUrl; rewrite Hj; reflexivity.
Qed.

End HandlerTheorems.

Lemma invalid_json_body_is_500_witness :
  handler (U := asciiOnly) (R := offlineRuntime)
    (mkEvent (Some (js "POST")) (Some []) None (Some (js "{url:")) false)
  = mkResponse 500 (Some [(js "access-control-allow-origin", js "*")])
      (js "Proxy error: SyntaxError: Unexpected token in JSON") false.
Proof.
  refine (invalid_json_body_is_500 (U := asciiOnly) (R := offlineRuntime)
            (mkEvent (Some (js "POST")) (Some []) None (Some (js "{url:")) false)
            (js "{url:") (js "SyntaxError: Unexpected token in JSON")
            _ _ _ _ _);
    try (vm_compute; reflexivity); discriminate.
Defined.

(** C10, as stated, fails: a preflight request is answered 204 whatever
    its body, and an empty body, which is not valid JSON either, makes
    the missing target a 400. *)
Lemma invalid_json_counterexample :
  let preflight :=
    mkEvent (Some (js "OPTIONS")) (Some []) None (Some (js "{url:")) false in
  let emptyBody := mkEvent (Some (js "POST")) (Some []) None (Some []) false in
  JSON_parse (Runtime := offlineRuntime) (js "{url:")
  = Throw (js "SyntaxError: Unexpected token in JSON")
  /\ statusCode (handler (U := asciiOnly) (R := offlineRuntime) preflight) = 204
  /\ JSON_parse (Runtime := offlineRuntime) []
     = Throw (js "SyntaxError: Unexpected token in JSON")
  /\ statusCode (handler (U := asciiOnly) (R := offlineRuntime) emptyBody) = 400.
Proof. repeat split; vm_compute; reflexivity. Qed.

(* ================================================================= *)
(** ** Further properties of the handler *)

Lemma getProp_setProp_cases k k' v o :
  getProp k (setProp k' v o) = if str_eqb k' k then Some v else getProp k o.
Proof.
  destruct (str_eqb k' k) eqn:E.
  - apply str_eqb_eq in E. subst k'. apply getProp_setProp.
  - now apply getProp_setProp_other.
Qed.

Lemma getProp_deleteProp k o : getProp k (deleteProp k o) = None.
Proof.
  induction o as [|[k0 v0] o IH]; [reflexivity|]. cbn [deleteProp filter fst].
  destruct (str_eqb k0 k) eqn:E; cbn [negb]; [exact IH|].
  cbn [getProp]. rewrite E. exact IH.
Qed.

Lemma getProp_deleteProp_none k k' o :
  getProp k o = None -> getProp k (deleteProp k' o) = None.
Proof.
  induction o as [|[k0 v0] o IH]; [reflexivity|]. cbn [getProp deleteProp filter fst].
  destruct (str_eqb k0 k) eqn:E; [discriminate|]. intros H.
  destruct (negb (str_eqb k0 k')); [|now apply IH].
  cbn [getProp]. rewrite E. now apply IH.
Qed.

Lemma getProp_In k v o : getProp k o = Some v -> In (k, v) o.
Proof.
  induction o as [|[k0 v0] o IH]; [discriminate|]. cbn [getProp].
  destruct (str_eqb k0 k) eqn:E.
  - apply str_eqb_eq in E. intros [= <-]. left. now subst.
  - intros H. right. now apply IH.
Qed.

Lemma In_getProp k v o : In (k, v) o -> exists v', getProp k o = Some v'.
Proof.
  induction o as [|[k0 v0] o IH]; [contradiction|]. cbn [getProp].
  intros [H|H].
  - injection H as -> ->. rewrite str_eqb_refl. now exists v.
  - destruct (str_eqb k0 k); [now exists v0|now apply IH].
Qed.

Lemma in_keys_setProp a k v o :
  In a (map fst (setProp k v o)) -> a = k \/ In a (map fst o).
Proof.
  induction o as [|[k0 v0] o IH]; cbn [setProp map fst In].
  - intros [H|[]]. now left.
  - destruct (str_eqb k0 k); cbn [map fst In]; [now right|].
    intros [H|H]; [now right; left|]. destruct (IH H); auto.
Qed.

Lemma NoDup_setProp k v o :
  NoDup (map fst o) -> NoDup (map fst (setProp k v o)).
Proof.
  induction o as [|[k0 v0] o IH]; cbn [setProp map fst].
  - intros _. constructor; [intros []|constructor].
  - intros H. inversion H as [|x l Hx Hl]; subst.
    destruct (str_eqb k0 k) eqn:E; cbn [map fst]; [now constructor|].
    constructor; [|now apply IH].
    intros Hin. apply in_keys_setProp in Hin as [->|Hin]; [|contradiction].
    now rewrite str_eqb_refl in E.
Qed.

Lemma NoDup_fromEntries l : NoDup (map fst (fromEntries l)).
Proof.
  unfold fromEntries.
  assert (H : forall acc, NoDup (map fst acc) ->
                NoDup (map fst (fold_left (fun o e => setProp (fst e) (snd e) o) l acc))).
  { induction l as [|e l IH]; intros acc Ha; [exact Ha|].
    cbn [fold_left]. apply IH. now apply NoDup_setProp. }
  apply H. constructor.
Qed.

Lemma NoDup_keys_unique (o : JSObject) k v v' :
  NoDup (map fst o) -> In (k, v) o -> In (k, v') o -> v = v'.
Proof.
  induction o as [|[k0 v0] o IH]; [contradiction|]. cbn [map fst].
  intros H. inversion H as [|x l Hx Hl]; subst.
  intros [H1|H1] [H2|H2].
  - congruence.
  - injection H1 as -> ->. exfalso. apply Hx.
    now apply (in_map fst) in H2.
  - injection H2 as -> ->. exfalso. apply Hx.
    now apply (in_map fst) in H1.
  - now apply IH.
Qed.

Lemma in_insertByIndex x e l :
  In x (insertByIndex e l) <-> x = e \/ In x l.
Proof.
  induction l as [|y l IH]; cbn [insertByIndex In].
  - split; intros [H|[]]; auto.
  - destruct (fst e <? fst y); cbn [In]; [split; intros [H|H]; auto|].
    rewrite IH. split; intros H; repeat destruct H as [H|H]; auto.
Qed.

Lemma in_entries e o : In e (entries o) <-> In e o.
Proof.
  unfold entries. rewrite in_app_iff, filter_In, in_map_iff.
  split.
  - intros [((i, e') & He & Hin)|[Hin _]]; [|exact Hin].
    cbn [snd] in He. subst e'.
    assert (H : forall L, In (i, e) (fold_right insertByIndex [] L) -> In (i, e) L).
    { induction L as [|z L IH]; [intros []|]. cbn [fold_right].
      rewrite in_insertByIndex. intros [H|H]; [now left|right; now apply IH]. }
    apply H in Hin. apply in_flat_map in Hin as (x & Hx & Hi).
    destruct (arrayIndex (fst x)); [|contradiction].
    destruct Hi as [Hi|[]]. now injection Hi as _ ->.
  - intros Hin. destruct (arrayIndex (fst e)) as [i|] eqn:Ei; [left|right; now split].
    exists (i, e). split; [reflexivity|].
    assert (H : forall L, In (i, e) L -> In (i, e) (fold_right insertByIndex [] L)).
    { induction L as [|z L IH]; [intros []|]. cbn [fold_right].
      rewrite in_insertByIndex. intros [H|H]; [now left|right; now apply IH]. }
    apply H. apply in_flat_map. exists e. split; [exact Hin|].
    rewrite Ei. now left.
Qed.

Lemma in_keys k o : In k (keys o) <-> hasProp k o = true.
Proof.
  unfold keys, hasProp. rewrite in_map_iff. split.
  - intros ((k', v) & Hk & Hin). cbn [fst] in Hk. subst k'.
    apply (proj1 (in_entries _ _)) in Hin.
    apply In_getProp in Hin as [v' Hv]. now rewrite Hv.
  - destruct (getProp k o) as [v|] eqn:E; [|discriminate]. intros _.
    exists (k, v). split; [reflexivity|]. apply in_entries. now apply getProp_In.
Qed.

Section FurtherHandler.
Context {U : UnicodeTables} {R : Runtime}.

(** A loop that copies the properties of an object, some left out. *)
Lemma copied_from (drop : jsstring -> bool) acc l k v :
  getProp k
    (fold_left (fun out e =>
                  if drop (fst e) then out
                  else assign (fst e) (snd e) out) l acc) = Some v ->
  getProp k acc = Some v
  \/ (In (k, v) l /\ drop k = false).
Proof.
  revert acc. induction l as [|[k0 v0] l IH]; intros acc; cbn [fold_left fst snd];
    [now left|].
  intros H. apply IH in H as [H|[H1 H2]]; [|right; split; [now right|exact H2]].
  destruct (drop k0) eqn:Ed; [now left|].
  unfold assign in H. destruct (str_eqb k0 (js "__proto__")); [now left|].
  rewrite getProp_setProp_cases in H. destruct (str_eqb k0 k) eqn:E; [|now left].
  apply str_eqb_eq in E. subst k0. injection H as ->.
  right. split; [now left|exact Ed].
Qed.

Lemma copied_skip (drop : jsstring -> bool) acc l k :
  (forall v, ~ In (k, v) l) ->
  getProp k
    (fold_left (fun out e =>
                  if drop (fst e) then out
                  else assign (fst e) (snd e) out) l acc) = getProp k acc.
Proof.
  revert acc. induction l as [|[k0 v0] l IH]; intros acc Hn; cbn [fold_left fst snd];
    [reflexivity|].
  rewrite IH by (intros v Hv; apply (Hn v); now right).
  destruct (drop k0); [reflexivity|].
  unfold assign. destruct (str_eqb k0 (js "__proto__")); [reflexivity|].
  rewrite getProp_setProp_cases. destruct (str_eqb k0 k) eqn:E; [|reflexivity].
  apply str_eqb_eq in E. subst k0. exfalso. apply (Hn v0). now left.
Qed.

Lemma copied_to (drop : jsstring -> bool) acc l k v :
  In (k, v) l -> (forall v', In (k, v') l -> v' = v) ->
  drop k = false ->
  str_eqb k (js "__proto__") = false ->
  getProp k
    (fold_left (fun out e =>
                  if drop (fst e) then out
                  else assign (fst e) (snd e) out) l acc) = Some v.
Proof.
  intros Hin Hu Hd Hp. revert acc Hin Hu.
  induction l as [|[k0 v0] l IH]; intros acc Hin Hu; [contradiction|].
  cbn [fold_left fst snd].
  assert (Hdec : forall a b : jsstring * jsstring, {a = b} + {a <> b})
    by (decide equality; apply (list_eq_dec N.eq_dec)).
  destruct (in_dec Hdec (k, v) l) as [Hl|Hl].
  - apply IH; [exact Hl|]. intros v' Hv'. apply Hu. now right.
  - destruct Hin as [Hin|Hin]; [|contradiction]. injection Hin as -> ->.
    rewrite copied_skip.
    + rewrite Hd. unfold assign. rewrite Hp. apply getProp_setProp.
    + intros v' Hv'. apply Hl. rewrite <- (Hu v') at 1; [exact Hv'|now right].
Qed.

(** The response headers before the content type is set. *)
Lemma makeOutHeaders_filtered (res : FetchResponse) :
  let out := makeOutHeaders res in
  (forall k, includes droppedHeaders (toLowerCase k) = true ->
             getProp k out = None)
  /\ (forall k v,
        getProp k (fromEntries (res_headers res)) = Some v ->
        includes droppedHeaders (toLowerCase k) = false ->
        k <> js "__proto__" ->
        k <> js "access-control-allow-origin" ->
        k <> js "access-control-expose-headers" ->
        getProp k out = Some v)
  /\ getProp (js "access-control-allow-origin") out = Some (js "*")
  /\ exists names,
       getProp (js "access-control-expose-headers") out
       = Some (join (js ",") names)
       /\ In (js "access-control-allow-origin") names
       /\ (forall k, In k names -> hasProp k out = true)
       /\ (forall k, hasProp k out = true ->
                     k <> js "access-control-expose-headers" -> In k names).
Proof.
  cbv zeta. unfold makeOutHeaders.
  match goal with
  | |- context [fold_left ?f ?l []] => set (copied := fold_left f l [])
  end.
  set (out1 := setProp (js "access-control-allow-origin") (js "*") copied).
  assert (Hne : forall a b, a <> b -> str_eqb a b = false).
  { intros a b Hab. destruct (str_eqb a b) eqn:E; [|reflexivity].
    apply str_eqb_eq in E. contradiction. }
  split; [|split; [|split]].
  - intros k Hk.
    destruct (str_eqb (js "access-control-expose-headers") k) eqn:E1.
    { apply str_eqb_eq in E1. subst k. discriminate Hk. }
    destruct (str_eqb (js "access-control-allow-origin") k) eqn:E2.
    { apply str_eqb_eq in E2. subst k. discriminate Hk. }
    rewrite getProp_setProp_cases, E1. unfold out1.
    rewrite getProp_setProp_cases, E2.
    destruct (getProp k copied) as [v|] eqn:Ec; [|reflexivity].
    apply (copied_from (fun k => includes droppedHeaders (toLowerCase k)))
      in Ec as [Ec|[_ Ec]]; [discriminate|congruence].
  - intros k v Hv Hd Hp Ha He.
    rewrite getProp_setProp_cases, (Hne _ _ (not_eq_sym He)). unfold out1.
    rewrite getProp_setProp_cases, (Hne _ _ (not_eq_sym Ha)).
    apply getProp_In in Hv.
    apply (copied_to (fun k => includes droppedHeaders (toLowerCase k)));
      [now apply in_entries| |exact Hd|now apply Hne].
    intros v' Hv'. apply (proj1 (in_entries _ _)) in Hv'.
    exact (NoDup_keys_unique _ _ _ _ (NoDup_fromEntries _) Hv' Hv).
  - rewrite getProp_setProp_cases. cbn [str_eqb js map list_ascii_of_string].
    replace (str_eqb (js "access-control-expose-headers")
                     (js "access-control-allow-origin")) with false by reflexivity.
    apply getProp_setProp.
  - exists (keys out1). split; [apply getProp_setProp|]. split; [|split].
    + apply in_keys. unfold hasProp, out1. now rewrite getProp_setProp.
    + intros k Hk. apply in_keys in Hk. unfold hasProp in *.
      rewrite getProp_setProp_cases.
      destruct (str_eqb (js "access-control-expose-headers") k); [reflexivity|exact Hk].
    + intros k Hk He. apply in_keys. unfold hasProp in *.
      rewrite getProp_setProp_cases, (Hne _ _ (not_eq_sym He)) in Hk. exact Hk.
Qed.

Lemma hasProp_setProp k k' v o :
  hasProp k (setProp k' v o) = str_eqb k' k || hasProp k o.
Proof.
  unfold hasProp. rewrite getProp_setProp_cases.
  now destruct (str_eqb k' k).
Qed.

Lemma hasProp_fromEntries k v l :
  getProp k l = Some v -> hasProp k (fromEntries l) = true.
Proof.
  unfold fromEntries. intros H.
  assert (G : forall acc, hasProp k acc = true \/ getProp k l <> None ->
                hasProp k (fold_left (fun o e => setProp (fst e) (snd e) o) l acc)
                = true).
  { clear H. induction l as [|[k0 v0] l IH]; intros acc [Ha|Hl].
    - exact Ha.
    - now contradiction Hl.
    - cbn [fold_left fst snd]. apply IH. left.
      rewrite hasProp_setProp, Ha. apply orb_true_r.
    - cbn [fold_left fst snd]. apply IH. cbn [getProp] in Hl.
      destruct (str_eqb k0 k) eqn:E; [left|right; exact Hl].
      now rewrite hasProp_setProp, E. }
  apply G. right. congruence.
Qed.

(** X3.  The headers of a response that comes from the upstream: a
    header whose lower-cased name is [content-security-policy],
    [content-security-policy-report-only], [x-frame-options], [set-cookie]
    or [transfer-encoding] is left out; every other upstream header is
    returned with its value (but [__proto__], which an assignment cannot
    create, the content type and the two headers set by the handler);
    [access-control-allow-origin] is [*]; and
    [access-control-expose-headers] lists, separated by commas, the names
    of all the other headers of the response. *)
Theorem outHeaders_filtered (target : jsstring) (res : FetchResponse)
    (r : Response) :
  afterFetch target res = Ok r ->
  exists h,
    resp_headers r = Some h
    /\ (forall k, includes droppedHeaders (toLowerCase k) = true ->
                  getProp k h = None)
    /\ (forall k v,
          getProp k (fromEntries (res_headers res)) = Some v ->
          includes droppedHeaders (toLowerCase k) = false ->
          k <> js "__proto__" ->
          k <> js "access-control-allow-origin" ->
          k <> js "access-control-expose-headers" ->
          k <> js "content-type" ->
          getProp k h = Some v)
    /\ getProp (js "access-control-allow-origin") h = Some (js "*")
    /\ exists names,
         getProp (js "access-control-expose-headers") h
         = Some (join (js ",") names)
         /\ (forall k, In k names -> hasProp k h = true)
         /\ (forall k, hasProp k h = true ->
                       k <> js "access-control-expose-headers" -> In k names).
Proof.
  intros Ha.
  destruct (makeOutHeaders_filtered res) as (Hdrop & Hcopy & Hcors & names & Hn & _ & Hin & Hall).
  assert (Hne : forall a b, a <> b -> str_eqb a b = false).
  { intros a b Hab. destruct (str_eqb a b) eqn:E; [|reflexivity].
    apply str_eqb_eq in E. contradiction. }
  (* the content type, when it is set, is a header of the upstream *)
  assert (Hct : orEmpty (getProp (js "content-type") (res_headers res)) <> [] ->
                In (js "content-type") names).
  { intros Hc. destruct (getProp (js "content-type") (res_headers res)) as [c|] eqn:Ec;
      [|now contradiction Hc].
    apply Hall; [|discriminate]. pose proof (hasProp_fromEntries _ _ _ Ec) as Hf.
    unfold hasProp in Hf |- *.
    destruct (getProp (js "content-type") (fromEntries (res_headers res)))
      as [v|] eqn:Ev; [|discriminate].
    rewrite (Hcopy _ v Ev); [reflexivity|reflexivity|discriminate..]. }
  assert (Hset : forall c, In (js "content-type") names ->
            let h := setProp (js "content-type") c (makeOutHeaders res) in
            (forall k, includes droppedHeaders (toLowerCase k) = true ->
                       getProp k h = None)
            /\ (forall k v,
                  getProp k (fromEntries (res_headers res)) = Some v ->
                  includes droppedHeaders (toLowerCase k) = false ->
                  k <> js "__proto__" ->
                  k <> js "access-control-allow-origin" ->
                  k <> js "access-control-expose-headers" ->
                  k <> js "content-type" ->
                  getProp k h = Some v)
            /\ getProp (js "access-control-allow-origin") h = Some (js "*")
            /\ exists names,
                 getProp (js "access-control-expose-headers") h
                 = Some (join (js ",") names)
                 /\ (forall k, In k names -> hasProp k h = true)
                 /\ (forall k, hasProp k h = true ->
                               k <> js "access-control-expose-headers" ->
                               In k names)).
  { intros c Hc h. subst h. split; [|split; [|split]].
    - intros k Hk.
      destruct (str_eqb (js "content-type") k) eqn:E.
      { apply str_eqb_eq in E. subst k. discriminate Hk. }
      rewrite getProp_setProp_cases, E. now apply Hdrop.
    - intros k v Hv Hd H1 H2 H3 H4.
      rewrite getProp_setProp_cases, (Hne _ _ (not_eq_sym H4)). now apply Hcopy.
    - rewrite getProp_setProp_other by reflexivity. exact Hcors.
    - exists names. split; [|split].
      + rewrite getProp_setProp_other by reflexivity. exact Hn.
      + intros k Hk. rewrite hasProp_setProp, (Hin k Hk). apply orb_true_r.
      + intros k Hk He. rewrite hasProp_setProp in Hk.
        destruct (str_eqb (js "content-type") k) eqn:E.
        * apply str_eqb_eq in E. now subst k.
        * now apply Hall. }
  unfold afterFetch in Ha.
  destruct (isHtmlContentType _) eqn:Eh.
  - destruct (res_body res); [|discriminate]. injection Ha as <-.
    eexists. split; [reflexivity|]. apply Hset. apply Hct.
    intros E. rewrite E in Eh. discriminate Eh.
  - destruct (res_body res); [|discriminate]. injection Ha as <-.
    destruct (orEmpty (getProp (js "content-type") (res_headers res)))
      as [|c s] eqn:Ec.
    + eexists. split; [reflexivity|]. split; [exact Hdrop|].
      split; [intros; now apply Hcopy|]. split; [exact Hcors|].
      exists names. auto.
    + eexists. split; [reflexivity|]. apply Hset. apply Hct. discriminate.
Qed.

(** X1.  A request reaches [fetch] only when the method is not [OPTIONS],
    the proxy key, if one is configured, was presented in the header or
    in the query, and the target parses as an absolute URL whose hostname
    the Host Guard lets through.  The request sent has the target as its
    URL, the method of the event or [GET], the headers of the event
    without [host] and [Host], and the body of the event unless the
    method is [GET] or [HEAD]. *)
Theorem fetch_request_is_guarded (event : Event) (target : jsstring)
    (request : FetchRequest) :
  beforeFetch event = Ok (inr (target, request)) ->
  httpMethod event <> Some (js "OPTIONS")
  /\ (forall key, API_KEY = Some key ->
                  headerKey event = key \/ qsKey event = key)
  /\ (exists targetUrl, URL_new target None = Some targetUrl
                        /\ isBlockedHost (Some (hostname targetUrl)) = false)
  /\ request = mkFetchRequest target (orDefault (httpMethod event) (js "GET"))
                              (incomingHeaders event) (forwardedBody event)
  /\ getProp (js "host") (req_headers request) = None
  /\ getProp (js "Host") (req_headers request) = None.
Proof.
  unfold beforeFetch.
  destruct (match httpMethod event with
            | Some m => str_eqb m (js "OPTIONS")
            | None => false
            end) eqn:Eo; [discriminate|].
  assert (Hm : httpMethod event <> Some (js "OPTIONS")).
  { intros E. rewrite E, str_eqb_refl in Eo. discriminate Eo. }
  match goal with
  | |- context [match ?t with Ok _ => _ | Throw _ => _ end] =>
      destruct t as [[tv|]|]
  end; [|discriminate|discriminate].
  destruct (negb (truthy tv)); [discriminate|].
  assert (Hkey : (match API_KEY with
                  | Some key => negb (str_eqb (headerKey event) key)
                                && negb (str_eqb (qsKey event) key)
                  | None => false
                  end) = false ->
                 forall key, API_KEY = Some key ->
                             headerKey event = key \/ qsKey event = key).
  { intros H key Hk. rewrite Hk in H.
    apply andb_false_iff in H as [H|H]; apply negb_false_iff, str_eqb_eq in H; auto. }
  destruct (match API_KEY with Some _ => _ | None => _ end); [discriminate|].
  destruct (URL_new (toString tv) None) as [u|] eqn:Eu; [|discriminate].
  destruct (isBlockedHost (Some (hostname u))) eqn:Eb; [discriminate|].
  intros [= <- <-]. split; [exact Hm|]. split; [now apply Hkey|].
  split; [now exists u|]. split; [reflexivity|].
  cbn [req_headers]. unfold incomingHeaders. split.
  - apply getProp_deleteProp_none, getProp_deleteProp.
  - apply getProp_deleteProp.
Qed.

(** X2.  A request that names its target in the query is answered, in
    this order: 401 when a proxy key is configured and neither the header
    nor the query presents it; 400 when the target is not an absolute
    URL; 403 when the hostname of the target is blocked.  None of these
    reaches the upstream. *)
Theorem target_guard_responses (event : Event) (target : jsstring) :
  httpMethod event <> Some (js "OPTIONS") ->
  getProp (js "url") (qs event) = Some target -> target <> [] ->
  (forall key, API_KEY = Some key ->
               headerKey event <> key -> qsKey event <> key ->
               handler event = plain 401 "Unauthorized: invalid proxy key")
  /\ ((forall key, API_KEY = Some key ->
                   headerKey event = key \/ qsKey event = key) ->
      (URL_new target None = None ->
       handler event = plain 400 "Invalid target URL")
      /\ (forall targetUrl,
            URL_new target None = Some targetUrl ->
            isBlockedHost (Some (hostname targetUrl)) = true ->
            handler event = plain 403 "Forbidden host")).
Proof.
  intros Hm Hq Ht.
  assert (Hne : forall a b, a <> b -> str_eqb a b = false).
  { intros a b Hab. destruct (str_eqb a b) eqn:E; [|reflexivity].
    apply str_eqb_eq in E. contradiction. }
  assert (Hb : forall r, beforeFetch event = Ok (inl r) -> handler event = r).
  { intros r Hr. unfold handler, handlerBody. now rewrite Hr. }
  assert (Ho : match httpMethod event with
               | Some m => str_eqb m (js "OPTIONS")
               | None => false
               end = false).
  { destruct (httpMethod event) as [m|]; [|reflexivity].
    apply Hne. congruence. }
  destruct target as [|c s]; [congruence|].
  split; [|split].
  - intros key Hk H1 H2. apply Hb. unfold beforeFetch.
    rewrite Ho, Hq, Hk. cbn [truthy isNil negb toString].
    now rewrite (Hne _ _ H1), (Hne _ _ H2).
  - intros Hu. apply Hb. unfold beforeFetch.
    rewrite Ho, Hq. cbn [truthy isNil negb toString]. rewrite Hu.
    destruct API_KEY as [key|]; [|reflexivity].
    destruct (H key eq_refl) as [<-|<-]; rewrite str_eqb_refl; cbn [negb andb];
      reflexivity || (rewrite andb_false_r; reflexivity).
  - intros u Hu Hblocked. apply Hb. unfold beforeFetch.
    rewrite Ho, Hq. cbn [truthy isNil negb toString]. rewrite Hu, Hblocked.
    destruct API_KEY as [key|]; [|reflexivity].
    destruct (H key eq_refl) as [<-|<-]; rewrite str_eqb_refl; cbn [negb andb];
      reflexivity || (rewrite andb_false_r; reflexivity).
Qed.

End FurtherHandler.

Lemma outHeaders_filtered_witness :
  let res :=
    mkFetchResponse 200
      [ (js "content-type", js "image/png"); (js "etag", js "abc");
        (js "set-cookie", js "id=1"); (js "x-frame-options", js "DENY") ]
      (js "https://example.com/logo.png")
      (Ok [Byte.x89; Byte.x50; Byte.x4e; Byte.x47]) in
  exists r h,
    afterFetch (U := asciiOnly) (R := offlineRuntime)
               (js "https://example.com/logo.png") res = Ok r
    /\ resp_headers r = Some h
    /\ getProp (js "set-cookie") h = None
    /\ getProp (js "x-frame-options") h = None
    /\ getProp (js "etag") h = Some (js "abc")
    /\ getProp (js "access-control-allow-origin") h = Some (js "*").
Proof.
  cbv zeta.
  assert (Hr : exists r,
             afterFetch (U := asciiOnly) (R := offlineRuntime)
               (js "https://example.com/logo.png")
               (mkFetchResponse 200
                  [ (js "content-type", js "image/png"); (js "etag", js "abc");
                    (js "set-cookie", js "id=1"); (js "x-frame-options", js "DENY") ]
                  (js "https://example.com/logo.png")
                  (Ok [Byte.x89; Byte.x50; Byte.x4e; Byte.x47])) = Ok r)
    by (eexists; vm_compute; reflexivity).
  destruct Hr as [r Hr]. exists r.
  destruct (outHeaders_filtered (U := asciiOnly) (R := offlineRuntime) _ _ _ Hr)
    as (h & Hh & Hd & Hc & Ha & _).
  exists h. split; [exact Hr|]. split; [exact Hh|].
  split; [apply Hd; reflexivity|]. split; [apply Hd; reflexivity|].
  split; [|exact Ha].
  apply (Hc _ (js "abc")); try discriminate; reflexivity.
Defined.

Lemma fetch_request_is_guarded_witness :
  let R := exampleRuntime (Some (js "s3cr3t")) sampleUpstream samplePage in
  let event :=
    mkEvent (Some (js "POST"))
            (Some [(js "url", js "https://example.com/form")])
            (Some [ (js "Host", js "proxy.example");
                    (js "X-Proxy-Key", js "s3cr3t");
                    (js "accept", js "*/*") ])
            (Some (js "a=1")) false in
  let target := js "https://example.com/form" in
  let request :=
    mkFetchRequest target (js "POST")
      [(js "X-Proxy-Key", js "s3cr3t"); (js "accept", js "*/*")]
      (Some (TextBody (js "a=1"))) in
  beforeFetch (U := asciiOnly) (R := R) event = Ok (inr (target, request))
  /\ httpMethod event <> Some (js "OPTIONS")
  /\ (forall key, API_KEY (R := R) = Some key ->
                  headerKey event = key \/ qsKey event = key)
  /\ (exists targetUrl,
        URL_new (U := asciiOnly) target None = Some targetUrl
        /\ isBlockedHost (Some (hostname targetUrl)) = false)
  /\ request = mkFetchRequest target (orDefault (httpMethod event) (js "GET"))
                              (incomingHeaders event) (forwardedBody event)
  /\ getProp (js "host") (req_headers request) = None
  /\ getProp (js "Host") (req_headers request) = None.
Proof.
  split; [vm_compute; reflexivity|].
  refine (fetch_request_is_guarded
            (U := asciiOnly)
            (R := exampleRuntime (Some (js "s3cr3t")) sampleUpstream samplePage)
            _ _ _ _).
  vm_compute. reflexivity.
Defined.

Lemma target_guard_responses_witness :
  handler (U := asciiOnly) (R := offlineRuntime)
    (mkEvent (Some (js "GET")) (Some [(js "url", js "http://192.168.1.5/admin")])
             None None false)
  = plain 403 "Forbidden host"
  /\ handler (U := asciiOnly)
       (R := exampleRuntime (Some (js "s3cr3t")) sampleUpstream samplePage)
       (mkEvent (Some (js "GET"))
                (Some [(js "url", js "https://example.com/"); (js "key", js "guess")])
                None None false)
     = plain 401 "Unauthorized: invalid proxy key".
Proof.
  split.
  - refine (proj2 (proj2 (target_guard_responses
                            (U := asciiOnly) (R := offlineRuntime)
                            (mkEvent (Some (js "GET"))
                               (Some [(js "url", js "http://192.168.1.5/admin")])
                               None None false)
                            (js "http://192.168.1.5/admin") _ _ _) _)
                  (match URL_new (U := asciiOnly) (js "http://192.168.1.5/admin") None
                   with Some u => u | None => emptyURL end) _ _);
      try discriminate; vm_compute; reflexivity.
  - refine (proj1 (target_guard_responses
                     (U := asciiOnly)
                     (R := exampleRuntime (Some (js "s3cr3t")) sampleUpstream samplePage)
                     (mkEvent (Some (js "GET"))
                        (Some [ (js "url", js "https://example.com/");
                                (js "key", js "guess") ])
                        None None false)
                     (js "https://example.com/") _ _ _)
                  (js "s3cr3t") _ _ _);
      try discriminate; try (vm_compute; reflexivity); vm_compute; discriminate.
Defined.

(** X4.  An HTML response is answered with the status of the upstream,
    the content type [text/html; charset=utf-8] whatever the charset the
    upstream reported, the permissive cross-origin header, the flag
    [isBase64Encoded] unset, and the serialization of the rewritten
    document as its body.  On the sample page, served with a policy
    header and a cookie, the handler returns the page with both
    dropped. *)
Theorem html_response_shape {U : UnicodeTables} {R : Runtime} :
  (forall target res bytes,
     isHtmlContentType
       (Some (orEmpty (getProp (js "content-type") (res_headers res)))) = true ->
     res_body res = Ok bytes ->
     exists h,
       afterFetch target res
       = Ok (mkResponse (res_status res) (Some h)
               (cheerio_html
                  (rewriteDocument
                     (orDefault (Some (res_url res)) target)
                     (cheerio_load (decodeText bytes))))
               false)
       /\ getProp (js "content-type") h = Some (js "text/html; charset=utf-8")
       /\ getProp (js "access-control-allow-origin") h = Some (js "*"))
  /\ handler (R := exampleRuntime None sampleUpstream samplePage)
       (mkEvent (Some (js "GET")) (Some [(js "url", js "https://example.com/dir/")])
                None None false)
     = mkResponse 200
         (Some [ (js "content-type", js "text/html; charset=utf-8");
                 (js "x-powered-by", js "php");
                 (js "access-control-allow-origin", js "*");
                 (js "access-control-expose-headers",
                  js "content-type,x-powered-by,access-control-allow-origin") ])
         (flat_map outerHTML
            (rewriteDocument (js "https://example.com/dir/") samplePage))
         false.
Proof.
  split; [|vm_compute; reflexivity].
  intros target res bytes Hct Hb. unfold afterFetch. rewrite Hct, Hb.
  eexists. split.
  - f_equal. f_equal. f_equal. f_equal. now destruct (res_url res).
  - split; [apply getProp_setProp|].
    rewrite getProp_setProp_other by reflexivity. apply makeOutHeaders_cors.
Qed.

(* ================================================================= *)
(** ** The links of the function and of the front end *)

Lemma breakAt_until c a b :
  Forall (fun x => x <> c) a -> breakAt c (a ++ c :: b) = (a, c :: b).
Proof.
  induction 1 as [|x a Hx Ha IH]; cbn [app breakAt].
  - now rewrite N.eqb_refl.
  - apply N.eqb_neq in Hx. now rewrite Hx, IH.
Qed.

Lemma encoded_no_ampersand s e :
  encodeURIComponent s = Some e -> Forall (fun c => c <> ch "&") e.
Proof.
  intros He. apply Forall_forall. intros c Hc ->.
  pose proof (encode_encoded _ _ He) as H. rewrite forallb_forall in H.
  specialize (H _ Hc). discriminate H.
Qed.

(** X5.  [makeProxyUrl] puts the target behind
    [/.netlify/functions/proxy?url=], percent-encoded into unreserved
    characters and escapes, and decoding the parameter gives the target
    back; on an ASCII target it does not throw. *)
Theorem makeProxyUrl_embeds_target (target : jsstring) :
  (forall link,
     makeProxyUrl target = Some link ->
     Forall (fun c => c < 65536) target ->
     exists e, link = proxyPrefix ++ e
               /\ forallb encodedUnit e = true
               /\ embeddedTarget link = Some target)
  /\ (ascii_str target -> exists link, makeProxyUrl target = Some link)
  /\ makeProxyUrl (js "https://example.com/a b?q=1&r=2#f")
     = Some (js "/.netlify/functions/proxy?url=https%3A%2F%2Fexample.com%2Fa%20b%3Fq%3D1%26r%3D2%23f").
Proof.
  split; [|split; [|vm_compute; reflexivity]].
  - unfold makeProxyUrl. intros link Hl Hwf.
    destruct (encodeURIComponent target) as [e|] eqn:He; [|discriminate].
    injection Hl as <-. exists e. split; [reflexivity|].
    split; [now apply encode_encoded in He|now apply embeddedTarget_proxy].
  - intros Ha. unfold makeProxyUrl. destruct (encode_ascii _ Ha) as [e ->].
    eexists. reflexivity.
Qed.

Lemma embeddedTarget_buildProxyLink targetUrl key link :
  buildProxyLink targetUrl key = Some link ->
  Forall (fun c => c < 65536) targetUrl ->
  embeddedTarget link = Some targetUrl.
Proof.
  unfold buildProxyLink. cbn [PROXY_BASE]. intros Hl Hwf.
  destruct (encodeURIComponent targetUrl) as [e|] eqn:He; [|discriminate].
  change (js "/.netlify/functions/proxy" ++ js "?url=" ++ e)
    with (proxyPrefix ++ e) in Hl.
  destruct key as [|c k].
  - injection Hl as <-. now apply embeddedTarget_proxy.
  - destruct (encodeURIComponent (c :: k)) as [ek|]; [|discriminate].
    assert (Hlink : link = proxyPrefix ++ e ++ ch "&" :: js "key=" ++ ek)
      by (injection Hl as <-; reflexivity).
    clear Hl. subst link.
    unfold embeddedTarget. rewrite startsWith_app, skipn_prefix.
    rewrite breakAt_until by (eapply encoded_no_ampersand, He).
    now apply decode_encode.
Qed.


(* ================================================================= *)
(** ** The Host Guard on IP addresses *)

(** [isBlockedHost] on a hostname that is not empty, pattern by pattern. *)
Lemma isBlockedHost_patterns c s :
  isBlockedHost (Some (c :: s)) = true <->
  asciiLower (c :: s) = js "localhost"
  \/ hasPrefix (js "127.") (c :: s)
  \/ hasPrefix (js "10.") (c :: s)
  \/ hasPrefix (js "192.168.") (c :: s)
  \/ (exists octet, 16 <= octet <= 31
        /\ hasPrefix (js "172." ++ showDec octet ++ js ".") (c :: s))
  \/ hasSuffix (js ".local") (asciiLower (c :: s))
  \/ hasPrefix (js "0.") (c :: s).
Proof.
  cbn [isBlockedHost]. unfold BLOCKED_HOST_PATTERNS, existsb.
  rewrite orb_false_r, !orb_true_iff.
  rewrite test_anchored, !test_literal_prefix, test_prefix, test_suffix.
  unfold lit_i. rewrite matches_rlit_i, map_upper_eq_lower_eq.
  change (asciiLower (map ch (list_ascii_of_string "localhost")))
    with (js "localhost").
  assert (H172 : (exists p q, c :: s = p ++ q /\ matches privateClassB p) <->
                 (exists octet, 16 <= octet <= 31
                    /\ hasPrefix (js "172." ++ showDec octet ++ js ".") (c :: s))).
  { split.
    - intros (p & q & E & H). apply matches_privateClassB in H as (o & Ho & ->).
      exists o. split; [exact Ho|]. exists q. exact E.
    - intros (o & Ho & q & E).
      exists (js "172." ++ showDec o ++ js "."), q. split; [exact E|].
      apply matches_privateClassB. now exists o. }
  assert (Hloc : (exists p q, c :: s = p ++ q
                   /\ matches (rlit_i (list_ascii_of_string ".local")) q) <->
                 hasSuffix (js ".local") (asciiLower (c :: s))).
  { split.
    - intros (p & q & E & H). apply matches_rlit_i, map_upper_eq_lower_eq in H.
      exists (asciiLower p). rewrite E, asciiLower_app. f_equal. exact H.
    - intros (r & E). apply asciiLower_split in E as (s1 & s2 & E & H1 & H2).
      exists s1, s2. split; [exact E|].
      apply matches_rlit_i, map_upper_eq_lower_eq. exact H2. }
  rewrite H172, Hloc. tauto.
Qed.

(** Two strings cut at the first dot. *)
Lemma app_dot_eq x y t r :
  Forall (fun c => isDigit c = true) x -> Forall (fun c => isDigit c = true) y ->
  x ++ ch "." :: t = y ++ ch "." :: r -> x = y /\ t = r.
Proof.
  intros Hx. revert y. induction Hx as [|a x Ha Hx IH]; intros y Hy E.
  - destruct Hy as [|b y Hb Hy]; [now injection E|].
    injection E as <- _. discriminate Hb.
  - destruct Hy as [|b y Hb Hy].
    + injection E as -> _. discriminate Ha.
    + injection E as <- E. destruct (IH y Hy E) as [-> ->]. now split.
Qed.

Lemma hasPrefix_label p q x t :
  Forall (fun c => isDigit c = true) p -> Forall (fun c => isDigit c = true) x ->
  hasPrefix (p ++ ch "." :: q) (x ++ ch "." :: t) <-> x = p /\ hasPrefix q t.
Proof.
  intros Hp Hx. split.
  - intros (r & E). rewrite <- app_assoc in E. cbn [app] in E.
    apply app_dot_eq in E as [-> ->]; [|assumption|assumption].
    split; [reflexivity|now exists r].
  - intros (-> & r & ->). exists r. rewrite <- app_assoc. reflexivity.
Qed.

(** An octet is written in digits, and reads back. *)
Lemma showDec_octet o :
  o < 256 ->
  Forall (fun c => isDigit c = true) (showDec o)
  /\ parseRadix 10 (showDec o) = o
  /\ exists d r, showDec o = d :: r /\ isDigit d = true.
Proof.
  intros Ho.
  assert (H : forallb (fun o => forallb isDigit (showDec o)
                                && (parseRadix 10 (showDec o) =? o)
                                && match showDec o with
                                   | d :: _ => isDigit d
                                   | [] => false
                                   end)
                      (map (fun k => 0 + N.of_nat k) (seq 0 256)) = true)
    by (vm_compute; reflexivity).
  rewrite forallb_forall in H. specialize (H o (N_range_In 0 256 o ltac:(lia))).
  apply andb_true_iff in H as [H H3]. apply andb_true_iff in H as [H1 H2].
  split; [now apply Forall_forall, forallb_forall|].
  split; [now apply N.eqb_eq|].
  destruct (showDec o) as [|d r]; [discriminate|]. now exists d, r.
Qed.

Lemma showDec_octet_inj o o' :
  o < 256 -> o' < 256 -> showDec o = showDec o' -> o = o'.
Proof.
  intros Ho Ho' E.
  destruct (showDec_octet o Ho) as (_ & <- & _).
  destruct (showDec_octet o' Ho') as (_ & <- & _). now rewrite E.
Qed.

Lemma asciiLowerUnit_digit d : isDigit d = true -> asciiLowerUnit d = d.
Proof.
  unfold isDigit, asciiLowerUnit, isUpperAlpha. intros H.
  apply andb_true_iff in H as [H1 H2]. apply N.leb_le in H1, H2.
  destruct (65 <=? d) eqn:E; [|reflexivity]. apply N.leb_le in E. lia.
Qed.

(** The Host Guard on a dotted name whose first two labels are octets and
    whose last character is a digit. *)
Lemma isBlockedHost_dotted o1 o2 t d :
  o1 < 256 -> o2 < 256 -> isDigit d = true ->
  isBlockedHost (Some (showDec o1 ++ ch "." :: showDec o2 ++ ch "." :: t ++ [d]))
  = true <->
  o1 = 0 \/ o1 = 10 \/ o1 = 127 \/ (o1 = 192 /\ o2 = 168)
  \/ (o1 = 172 /\ 16 <= o2 <= 31).
Proof.
  intros H1 H2 Hd.
  destruct (showDec_octet o1 H1) as (D1 & P1 & d1 & r1 & E1 & Hd1).
  destruct (showDec_octet o2 H2) as (D2 & P2 & _).
  set (rest := showDec o2 ++ ch "." :: t ++ [d]).
  assert (Hparts : forall p q,
            Forall (fun c => isDigit c = true) p ->
            hasPrefix (p ++ ch "." :: q) (showDec o1 ++ ch "." :: rest)
            <-> showDec o1 = p /\ hasPrefix q rest).
  { intros p q Hp. now apply hasPrefix_label. }
  assert (Hany : forall s, hasPrefix [] s) by (intros s; now exists s).
  assert (Hshape : showDec o1 ++ ch "." :: rest
                   = d1 :: r1 ++ ch "." :: rest) by now rewrite E1.
  rewrite Hshape, isBlockedHost_patterns, <- Hshape.
  change (js "127.") with (js "127" ++ ch "." :: []).
  change (js "10.") with (js "10" ++ ch "." :: []).
  change (js "0.") with (js "0" ++ ch "." :: []).
  change (js "192.168.") with (js "192" ++ ch "." :: js "168" ++ ch "." :: []).
  rewrite !Hparts by (repeat constructor).
  assert (H168 : hasPrefix (js "168" ++ ch "." :: []) rest <-> o2 = 168).
  { unfold rest. rewrite hasPrefix_label by first [assumption|repeat constructor].
    split.
    - intros [E _]. now rewrite <- P2, E.
    - intros ->. split; [reflexivity|apply Hany]. }
  assert (H172 : (exists octet, 16 <= octet <= 31
                    /\ hasPrefix (js "172." ++ showDec octet ++ js ".")
                                 (showDec o1 ++ ch "." :: rest))
                 <-> o1 = 172 /\ 16 <= o2 <= 31).
  { split.
    - intros (o & Ho & H).
      change (js "172." ++ showDec o ++ js ".")
        with (js "172" ++ ch "." :: showDec o ++ ch "." :: []) in H.
      apply Hparts in H as [E H]; [|repeat constructor].
      unfold rest in H.
      assert (Ho' : o < 256) by lia.
      destruct (showDec_octet o Ho') as (Do & _).
      apply hasPrefix_label in H as [E2 _]; [|assumption|assumption].
      apply showDec_octet_inj in E2; [|assumption|assumption]. subst o.
      split; [now rewrite <- P1, E|exact Ho].
    - intros [-> Ho]. exists o2. split; [exact Ho|].
      change (js "172." ++ showDec o2 ++ js ".")
        with (showDec 172 ++ ch "." :: showDec o2 ++ ch "." :: []).
      exists (t ++ [d]). unfold rest.
      repeat (rewrite <- app_assoc; cbn [app]). reflexivity. }
  rewrite H172, H168.
  assert (Hlocal : ~ asciiLower (showDec o1 ++ ch "." :: rest) = js "localhost").
  { rewrite E1. cbn [app asciiLower map]. intros E.
    apply (f_equal (hd 0)) in E. cbn [hd] in E. change (hd 0 (js "localhost")) with 108 in E.
    rewrite asciiLowerUnit_digit in E by assumption. subst d1. discriminate Hd1. }
  assert (Hsuffix : ~ hasSuffix (js ".local") (asciiLower (showDec o1 ++ ch "." :: rest))).
  { intros (r & E). unfold rest in E.
    replace (showDec o1 ++ ch "." :: showDec o2 ++ ch "." :: t ++ [d])
      with ((showDec o1 ++ ch "." :: showDec o2 ++ ch "." :: t) ++ [d]) in E
      by (repeat (rewrite <- app_assoc; cbn [app]); reflexivity).
    rewrite asciiLower_app in E.
    change (js ".local") with (js ".loca" ++ [ch "l"]) in E.
    rewrite app_assoc in E. apply app_inj_tail in E as [_ E].
    change (ch "l") with 108 in E.
    rewrite asciiLowerUnit_digit in E by assumption. subst d. discriminate Hd. }
  assert (Hoct : forall n, n < 256 -> showDec o1 = showDec n <-> o1 = n).
  { intros n Hn. split; [now apply showDec_octet_inj|now intros ->]. }
  pose proof (Hoct 127 ltac:(lia)) as E127.
  pose proof (Hoct 10 ltac:(lia)) as E10.
  pose proof (Hoct 0 ltac:(lia)) as E0.
  pose proof (Hoct 192 ltac:(lia)) as E192.
  change (showDec 127) with (js "127") in E127.
  change (showDec 10) with (js "10") in E10.
  change (showDec 0) with (js "0") in E0.
  change (showDec 192) with (js "192") in E192.
  pose proof (Hany rest) as Hrest.
  tauto.
Qed.

(** X7.  When the target names an IPv4 address, in whatever notation the
    URL parser reads as one, the Host Guard sees its dotted-decimal form
    and blocks exactly the ranges 0.0.0.0/8, 10.0.0.0/8, 127.0.0.0/8,
    172.16.0.0/12 and 192.168.0.0/16. *)
Theorem isBlockedHost_ipv4 (targetUrl : URLRecord) (a : N) :
  url_host targetUrl = Some (HIPv4 a) -> a < 4294967296 ->
  isBlockedHost (Some (hostname targetUrl)) = true <-> privateIPv4 a.
Proof.
  intros Hh Ha. unfold hostname. rewrite Hh. cbn [hostSerialize].
  unfold ipv4Serialize, privateIPv4. cbv zeta.
  assert (Hlast : exists t d, showDec (a mod 256) = t ++ [d] /\ isDigit d = true).
  { unfold showDec. eexists. exists (decDigit ((a mod 256) mod 10)).
    split; [reflexivity|]. unfold decDigit, isDigit.
    apply andb_true_iff. split; apply N.leb_le; lia. }
  destruct Hlast as (t & d & -> & Hd).
  replace (showDec (a / 16777216) ++ [ch "."] ++ showDec ((a / 65536) mod 256)
           ++ [ch "."] ++ showDec ((a / 256) mod 256) ++ [ch "."] ++ t ++ [d])
    with (showDec (a / 16777216) ++ ch "." :: showDec ((a / 65536) mod 256)
          ++ ch "." :: (showDec ((a / 256) mod 256) ++ ch "." :: t) ++ [d])
    by (repeat (rewrite <- app_assoc; cbn [app]); reflexivity).
  apply isBlockedHost_dotted; [lia|lia|exact Hd].
Qed.

Lemma isBlockedHost_ipv4_witness :
  exists targetUrl,
    URL_new (U := asciiOnly) (js "http://0x7f.1/") None = Some targetUrl
    /\ hostname targetUrl = js "127.0.0.1"
    /\ (isBlockedHost (Some (hostname targetUrl)) = true
        <-> privateIPv4 2130706433).
Proof.
  eexists. split; [vm_compute; reflexivity|]. split; [reflexivity|].
  apply (isBlockedHost_ipv4 _ 2130706433); reflexivity.
Defined.

Lemma isBlockedHost_bracketed x :
  isBlockedHost (Some (ch "[" :: x ++ [ch "]"])) = false.
Proof.
  destruct (isBlockedHost _) eqn:E; [|reflexivity]. exfalso.
  apply isBlockedHost_patterns in E.
  assert (Hp : forall p, hd 0 p <> ch "[" -> p <> [] ->
                 ~ hasPrefix p (ch "[" :: x ++ [ch "]"])).
  { intros p Hp Hne (r & E'). destruct p as [|c p]; [congruence|].
    injection E' as E' _. cbn [hd] in Hp. now apply Hp. }
  destruct E as [E|[E|[E|[E|[(o & _ & E)|[(r & E)|E]]]]]].
  - discriminate E.
  - revert E. apply Hp; discriminate.
  - revert E. apply Hp; discriminate.
  - revert E. apply Hp; discriminate.
  - revert E. apply Hp; discriminate.
  - change (ch "[" :: x ++ [ch "]"]) with ((ch "[" :: x) ++ [ch "]"]) in E.
    rewrite asciiLower_app in E.
    change (js ".local") with (js ".loca" ++ [ch "l"]) in E.
    rewrite app_assoc in E. apply app_inj_tail in E as [_ E]. discriminate E.
  - revert E. apply Hp; discriminate.
Qed.

(** X8.  A target that names an IPv6 address is never blocked: its
    hostname is written between brackets, which none of the patterns
    matches; the IPv6 loopback passes the Host Guard. *)
Theorem isBlockedHost_ipv6 (targetUrl : URLRecord) (pieces : list N) :
  url_host targetUrl = Some (HIPv6 pieces) ->
  isBlockedHost (Some (hostname targetUrl)) = false.
Proof.
  intros Hh. unfold hostname. rewrite Hh. cbn [hostSerialize].
  apply isBlockedHost_bracketed.
Qed.

Lemma isBlockedHost_ipv6_witness :
  exists targetUrl,
    URL_new (U := asciiOnly) (js "http://[0:0:0:0:0:0:0:1]:8080/admin") None
    = Some targetUrl
    /\ hostname targetUrl = js "[::1]"
    /\ isBlockedHost (Some (hostname targetUrl)) = false.
Proof.
  eexists. split; [vm_compute; reflexivity|]. split; [reflexivity|].
  apply (isBlockedHost_ipv6 _ [0; 0; 0; 0; 0; 0; 0; 1]). reflexivity.
Defined.

(* ================================================================= *)
(** ** The request that is forwarded *)

Lemma getProp_deleteProp_other k k' o :
  str_eqb k k' = false -> getProp k (deleteProp k' o) = getProp k o.
Proof.
  intros Hk. induction o as [|[k0 v0] o IH]; [reflexivity|].
  cbn [deleteProp filter fst getProp].
  destruct (str_eqb k0 k') eqn:E'; cbn [negb].
  - apply str_eqb_eq in E'. subst k0.
    destruct (str_eqb k' k) eqn:E; [|exact IH].
    apply str_eqb_eq in E. subst k'. now rewrite str_eqb_refl in Hk.
  - cbn [getProp]. destruct (str_eqb k0 k); [reflexivity|exact IH].
Qed.

(** [Object.assign({}, o)] has the properties of [o], but [__proto__]. *)
Lemma getProp_Object_assign o k :
  NoDup (map fst o) -> str_eqb k (js "__proto__") = false ->
  getProp k (Object_assign o) = getProp k o.
Proof.
  intros Hn Hp. unfold Object_assign.
  destruct (getProp k o) as [v|] eqn:E.
  - apply getProp_In in E. apply (copied_to (fun _ => false));
      [now apply in_entries| |reflexivity|exact Hp].
    intros v' Hv'. apply (proj1 (in_entries _ _)) in Hv'.
    exact (NoDup_keys_unique _ _ _ _ Hn Hv' E).
  - rewrite (copied_skip (fun _ => false)); [reflexivity|].
    intros v Hv. apply (proj1 (in_entries _ _)) in Hv.
    apply In_getProp in Hv as [v' Hv]. congruence.
Qed.

(** X9.  The headers of the request are forwarded to the upstream with
    their values, cookies and credentials included; only [host], [Host]
    and [__proto__] are not. *)
Theorem incomingHeaders_forwarded (event : Event) (h : JSObject) (k : jsstring) :
  headers event = Some h -> NoDup (map fst h) ->
  k <> js "host" -> k <> js "Host" -> k <> js "__proto__" ->
  getProp k (incomingHeaders event) = getProp k h.
Proof.
  intros Hh Hn H1 H2 H3.
  assert (Hne : forall a b, a <> b -> str_eqb a b = false).
  { intros a b Hab. destruct (str_eqb a b) eqn:E; [|reflexivity].
    apply str_eqb_eq in E. contradiction. }
  unfold incomingHeaders. rewrite Hh.
  rewrite !getProp_deleteProp_other by now apply Hne.
  apply getProp_Object_assign; [exact Hn|now apply Hne].
Qed.

Lemma incomingHeaders_forwarded_witness :
  let event :=
    mkEvent (Some (js "GET")) (Some [(js "url", js "https://example.com/")])
            (Some [ (js "host", js "proxy.example");
                    (js "cookie", js "session=1");
                    (js "authorization", js "Bearer t") ])
            None false in
  getProp (js "cookie") (incomingHeaders event) = Some (js "session=1").
Proof.
  refine (incomingHeaders_forwarded
            (mkEvent (Some (js "GET")) (Some [(js "url", js "https://example.com/")])
               (Some [ (js "host", js "proxy.example");
                       (js "cookie", js "session=1");
                       (js "authorization", js "Bearer t") ])
               None false)
            [ (js "host", js "proxy.example");
              (js "cookie", js "session=1");
              (js "authorization", js "Bearer t") ]
            (js "cookie") eq_refl _ _ _ _); try discriminate.
  repeat constructor; cbn [In]; intros H;
    repeat (destruct H as [H|H]; [discriminate H|]); exact H.
Defined.

(* ================================================================= *)
(** ** The target named in the body *)

Section BodyTarget.
Context {U : UnicodeTables} {R : Runtime}.


(** X11.  Without [url] in the query, a request has no target when its
    body is absent or empty, when the body is JSON for something else
    than an object, or for an object without a truthy [url] member: the
    answer is 400; the JSON text [null] makes the handler read a property
    of [null], which is answered 500. *)
Theorem body_without_target (event : Event) :
  httpMethod event <> Some (js "OPTIONS") ->
  falsy (getProp (js "url") (qs event)) = true ->
  (falsy (body event) = true ->
   handler event = plain 400 "Missing url parameter")
  /\ (forall b v,
        body event = Some b -> b <> [] -> JSON_parse b = Ok v ->
        match v with
        | JNull =>
            handler event
            = mkResponse 500 (Some [(js "access-control-allow-origin", js "*")])
                         (js "Proxy error: " ++ nullPropertyError) false
        | JObject ms =>
            match member (js "url") ms with
            | Some tv => truthy tv = false ->
                         handler event = plain 400 "Missing url parameter"
            | None => handler event = plain 400 "Missing url parameter"
            end
        | _ => handler event = plain 400 "Missing url parameter"
        end).
Proof.
  intros Hm Hq.
  assert (Ho : match httpMethod event with
               | Some m => str_eqb m (js "OPTIONS")
               | None => false
               end = false).
  { destruct (httpMethod event) as [m|]; [|reflexivity].
    destruct (str_eqb m (js "OPTIONS")) eqn:E; [|reflexivity].
    apply str_eqb_eq in E. congruence. }
  assert (Hnone : forall t,
            match body event with
            | Some ((_ :: _) as b) => parsedUrl b
            | _ => Ok None
            end = t ->
            match t with
            | Ok None => handler event = plain 400 "Missing url parameter"
            | Ok (Some tv) => truthy tv = false ->
                              handler event = plain 400 "Missing url parameter"
            | Throw err =>
                handler event
                = mkResponse 500 (Some [(js "access-control-allow-origin", js "*")])
                             (js "Proxy error: " ++ err) false
            end).
  { intros t Et. unfold handler, handlerBody, beforeFetch. rewrite Ho.
    destruct (getProp (js "url") (qs event)) as [[|c s]|]; try discriminate Hq;
      rewrite Et; (destruct t as [[tv|]|err]; [|reflexivity|reflexivity]);
      intros Ht; rewrite Ht; reflexivity. }
  split.
  - intros Hb. apply (Hnone (Ok None)).
    destruct (body event) as [[|c s]|]; [reflexivity|discriminate Hb|reflexivity].
  - intros b v Hb Hne Hj. destruct b as [|c b]; [congruence|].
    assert (Hp : match body event with
                 | Some ((_ :: _) as b) => parsedUrl b
                 | _ => Ok None
                 end = parsedUrl (c :: b)) by now rewrite Hb.
    unfold parsedUrl in Hp. rewrite Hj in Hp.
    destruct v as [|x|x y|x|x|ms]; exact (Hnone _ Hp).
Qed.

End BodyTarget.


Lemma body_without_target_witness :
  handler (U := asciiOnly) (R := offlineRuntime)
    (mkEvent (Some (js "POST")) None None (Some (js "null")) false)
  = mkResponse 500 (Some [(js "access-control-allow-origin", js "*")])
      (js "Proxy error: TypeError: Cannot read properties of null (reading 'url')")
      false
  /\ handler (U := asciiOnly) (R := offlineRuntime)
       (mkEvent (Some (js "POST")) None None (Some (js "[1, 2]")) false)
     = plain 400 "Missing url parameter"
  /\ handler (U := asciiOnly) (R := offlineRuntime)
       (mkEvent (Some (js "GET")) None None None false)
     = plain 400 "Missing url parameter".
Proof.
  split; [|split].
  - refine (proj2 (body_without_target
                     (U := asciiOnly) (R := offlineRuntime)
                     (mkEvent (Some (js "POST")) None None (Some (js "null")) false)
                     _ _)
                  (js "null") JNull _ _ _);
      try discriminate; vm_compute; reflexivity.
  - refine (proj2 (body_without_target
                     (U := asciiOnly) (R := offlineRuntime)
                     (mkEvent (Some (js "POST")) None None (Some (js "[1, 2]")) false)
                     _ _)
                  (js "[1, 2]")
                  (JArray [JNumber true (js "1"); JNumber true (js "2")]) _ _ _);
      try discriminate; vm_compute; reflexivity.
  - refine (proj1 (body_without_target
                     (U := asciiOnly) (R := offlineRuntime)
                     (mkEvent (Some (js "GET")) None None None false)
                     _ _) _);
      try discriminate; vm_compute; reflexivity.
Defined.

(* ================================================================= *)
(** ** Timed redirections *)

Lemma split_cons c s : exists p ps, split c s = p :: ps.
Proof.
  induction s as [|x s (p & ps & IH)]; [now exists [], []|].
  cbn [split]. destruct (x =? c); [now eexists; eexists|].
  rewrite IH. now eexists; eexists.
Qed.

(** [s.split(c).join(c)] is [s]. *)
Lemma join_split c s : join [c] (split c s) = s.
Proof.
  induction s as [|x s IH]; [reflexivity|]. cbn [split].
  destruct (x =? c) eqn:E.
  - apply N.eqb_eq in E. subst x.
    destruct (split_cons c s) as (p & ps & Hs). rewrite Hs in *.
    change (join [c] ([] :: p :: ps)) with (c :: join [c] (p :: ps)).
    now rewrite IH.
  - destruct (split_cons c s) as (p & ps & Hs). rewrite Hs in *.
    destruct ps as [|q ps]; cbn [join app] in *; now rewrite IH.
Qed.

Lemma split_first c a r :
  Forall (fun x => x <> c) a -> split c (a ++ c :: r) = a :: split c r.
Proof.
  induction 1 as [|x a Hx Ha IH]; cbn [app split].
  - now rewrite N.eqb_refl.
  - apply N.eqb_neq in Hx. now rewrite Hx, IH.
Qed.

Lemma split_absent c a : Forall (fun x => x <> c) a -> split c a = [a].
Proof.
  induction 1 as [|x a Hx Ha IH]; [reflexivity|]. cbn [split].
  apply N.eqb_neq in Hx. now rewrite Hx, IH.
Qed.

(** What follows the first part of a split string, from the separator on. *)
Lemma join_tail_split c s p ps :
  split c s = p :: ps ->
  snd (breakAt c s) = match ps with
                      | [] => []
                      | _ => c :: join [c] ps
                      end.
Proof.
  revert p ps. induction s as [|x s IH]; intros p ps; cbn [split breakAt].
  - now intros [= <- <-].
  - destruct (x =? c) eqn:E.
    + apply N.eqb_eq in E. subst x. intros [= <- <-]. cbn [snd].
      destruct (split_cons c s) as (q & qs & Hs).
      rewrite <- (join_split c s) at 1. now rewrite Hs.
    + destruct (split_cons c s) as (q & qs & Hs). rewrite Hs.
      intros [= <- <-]. specialize (IH q qs Hs).
      destruct (breakAt c s) as [a b2]. exact IH.
Qed.

Section MetaRefreshGeneral.
Context {U : UnicodeTables}.

(** X12.  On a [meta] element whose [http-equiv] is [refresh] in any
    case and whose [content] has a semicolon, the new [content] is the
    text before the first semicolon, [;url=], the rewriting of all that
    follows that semicolon (a leading [url=] stripped), and then once
    more what follows the second semicolon, if there is one.  The other
    attributes stay. *)
Theorem meta_refresh_general (baseUrl : jsstring) (attribs : JSObject)
    (he content delay rest : jsstring) :
  getProp (js "http-equiv") attribs = Some he ->
  toLowerCase he = js "refresh" ->
  getProp (js "content") attribs = Some content ->
  content = delay ++ ch ";" :: rest ->
  Forall (fun c => c <> ch ";") delay ->
  exists rewritten,
    maybeRewriteUrl (Some (stripUrlPrefix rest)) baseUrl = Some rewritten
    /\ rewriteMetaRefresh baseUrl attribs
       = setProp (js "content")
           (delay ++ js ";url=" ++ rewritten ++ snd (breakAt (ch ";") rest))
           attribs.
Proof.
  intros Hhe Hlow Hc -> Hd.
  destruct (maybeRewriteUrl_some (stripUrlPrefix rest) baseUrl) as [w Hw].
  exists w. split; [exact Hw|].
  unfold rewriteMetaRefresh. rewrite Hhe, Hc.
  assert (Hhe' : orEmpty (Some he) = he) by (destruct he; reflexivity).
  rewrite Hhe', Hlow.
  match goal with
  | |- context [orEmpty ?x] =>
      assert (Hce : orEmpty x = delay ++ ch ";" :: rest)
        by (destruct delay; reflexivity);
      rewrite Hce
  end.
  change (str_eqb (js "refresh") (js "refresh")) with true.
  cbv iota. rewrite split_first by exact Hd.
  destruct (split_cons (ch ";") rest) as (p & ps & Hs). rewrite Hs.
  cbn [tl]. rewrite <- Hs. change (js ";") with [ch ";"].
  rewrite join_split, Hw. cbn [interpolate]. f_equal.
  rewrite (join_tail_split _ _ _ _ Hs).
  destruct ps as [|q ps].
  - cbn [join]. now rewrite app_nil_r.
  - change (join [ch ";"] (delay :: (js "url=" ++ w) :: q :: ps))
      with (delay ++ [ch ";"] ++ (js "url=" ++ w) ++ [ch ";"]
            ++ join [ch ";"] (q :: ps)).
    now rewrite <- app_assoc.
Qed.

End MetaRefreshGeneral.

Lemma meta_refresh_general_witness :
  let attribs := [ (js "http-equiv", js "REFRESH");
                   (js "content", js "3; url=/a;b;c") ] in
  exists rewritten,
    maybeRewriteUrl (U := asciiOnly) (Some (stripUrlPrefix (js " url=/a;b;c")))
                    (js "https://example.com/")
    = Some rewritten
    /\ rewriteMetaRefresh (U := asciiOnly) (js "https://example.com/") attribs
       = setProp (js "content")
           (js "3" ++ js ";url=" ++ rewritten
            ++ snd (breakAt (ch ";") (js " url=/a;b;c")))
           attribs.
Proof.
  refine (meta_refresh_general (U := asciiOnly) (js "https://example.com/")
            [ (js "http-equiv", js "REFRESH");
              (js "content", js "3; url=/a;b;c") ]
            (js "REFRESH") (js "3; url=/a;b;c") (js "3") (js " url=/a;b;c")
            _ _ _ _ _);
    try (vm_compute; reflexivity).
  repeat constructor; discriminate.
Defined.

(* ================================================================= *)
(** ** What the rewriting leaves as it is *)

Lemma mapAttribs_ext f g n :
  (forall name a, f name a = g name a) -> mapAttribs f n = mapAttribs g n.
Proof.
  intros H.
  induction n as [| | |name attribs children IH] using Node_induction;
    try reflexivity.
  cbn [mapAttribs]. rewrite H. f_equal.
  induction IH as [|x l Hx Hl IHl]; [reflexivity|].
  cbn [map]. now rewrite Hx, IHl.
Qed.

Lemma blankRewritable_setProp name k v a :
  isRewritable name k = true -> getProp k a <> None ->
  blankRewritable name (setProp k v a) = blankRewritable name a.
Proof.
  intros Hk. unfold blankRewritable.
  induction a as [|[k0 v0] a IH]; cbn [getProp setProp]; [congruence|].
  destruct (str_eqb k0 k) eqn:E; intros Hp.
  - apply str_eqb_eq in E. subst k0. cbn [map fst]. now rewrite Hk.
  - cbn [map]. f_equal. now apply IH.
Qed.

Section Untouched.
Context {U : UnicodeTables}.

Lemma blankRewritable_rewriteAttr baseUrl name attr a :
  isRewritable name attr = true ->
  blankRewritable name (rewriteAttr attr baseUrl a) = blankRewritable name a.
Proof.
  intros Hk. unfold rewriteAttr.
  destruct (getProp attr a) as [v|] eqn:Ev; [|reflexivity].
  destruct (falsy (Some v)); [reflexivity|].
  destruct (maybeRewriteUrl_some v baseUrl) as [w ->]. cbn [setAttr].
  apply blankRewritable_setProp; [exact Hk|congruence].
Qed.

Lemma blankRewritable_rewriteAttrs baseUrl name a :
  blankRewritable name (rewriteAttrs baseUrl name a) = blankRewritable name a.
Proof.
  unfold rewriteAttrs.
  assert (H : forall l, incl l attrs -> forall a,
                blankRewritable name
                  (fold_left (fun a e => if str_eqb name (fst e)
                                         then rewriteAttr (snd e) baseUrl a else a)
                             l a)
                = blankRewritable name a).
  { induction l as [|e l IH]; intros Hl a0; [reflexivity|].
    cbn [fold_left]. rewrite IH by (intros x Hx; apply Hl; now right).
    destruct (str_eqb name (fst e)) eqn:E; [|reflexivity].
    apply blankRewritable_rewriteAttr. unfold isRewritable.
    apply orb_true_iff. left. apply existsb_exists. exists e.
    split; [apply Hl; now left|]. now rewrite E, str_eqb_refl. }
  apply H. apply incl_refl.
Qed.

Lemma blankRewritable_rewriteMeta baseUrl name a :
  blankRewritable name (rewriteMeta baseUrl name a) = blankRewritable name a.
Proof.
  unfold rewriteMeta.
  destruct (str_eqb name (js "meta")) eqn:En; [|reflexivity].
  destruct (hasProp (js "http-equiv") a); [|reflexivity]. cbn [andb].
  unfold rewriteMetaRefresh.
  destruct (str_eqb _ (js "refresh")); [|reflexivity].
  destruct (getProp (js "content") a) as [content|] eqn:Ec; [|reflexivity].
  destruct (split (ch ";") (orEmpty (Some content))) as [|p0 [|p1 parts2]];
    try reflexivity.
  apply blankRewritable_setProp; [|congruence].
  unfold isRewritable. now rewrite En, orb_true_r.
Qed.

(** X13.  The document that is serialized is the parsed document with
    the banner put first in every [body] element and with new values for
    some link-bearing attributes of the elements of the table and for
    [content] of [meta] elements; the texts, the comments, the elements,
    the names and the order of their attributes and every other value
    are those of the parsed document. *)
Theorem rewriteDocument_keeps_the_rest (baseUrl : jsstring) (d : Document) :
  exists d',
    rewriteDocument baseUrl d = map (prependTo (js "body") banner) d'
    /\ map (mapAttribs blankRewritable) d' = map (mapAttribs blankRewritable) d.
Proof.
  exists (map (mapAttribs (fun name a =>
                 rewriteMeta baseUrl name (rewriteAttrs baseUrl name a))) d).
  split.
  - unfold rewriteDocument. rewrite fold_each, !map_map.
    apply map_ext. intros n. now rewrite mapAttribs_mapAttribs.
  - rewrite map_map. apply map_ext. intros n. rewrite mapAttribs_mapAttribs.
    apply mapAttribs_ext. intros name a.
    now rewrite blankRewritable_rewriteMeta, blankRewritable_rewriteAttrs.
Qed.

End Untouched.

(* ================================================================= *)
(** ** The buttons of the front end *)

Lemma Forall_dropWhileEnd {A} (P : A -> Prop) f l :
  Forall P l -> Forall P (dropWhileEnd f l).
Proof.
  intros H. unfold dropWhileEnd. apply Forall_rev, Forall_dropWhile.
  now apply Forall_rev.
Qed.

Lemma Forall_trim (P : N -> Prop) s : Forall P s -> Forall P (trim s).
Proof. intros H. now apply Forall_dropWhileEnd, Forall_dropWhile. Qed.

(** X14.  A click on either button with a URL field that is blank once
    trimmed only raises an alert.  Otherwise the link that is given to
    the frame, or opened in a new tab when the selector says [newtab],
    is a proxy link whose [url] parameter decodes to the trimmed content
    of the URL field. *)
Theorem clicks_load_the_trimmed_target (p : Page) :
  Forall (fun c => c < 65536) (urlInput_value p) ->
  (trim (urlInput_value p) = [] ->
   goBtn_click p = Some (p, [Alert (js "Enter a URL (include https://)")])
   /\ openBtn_click p = Some (p, [Alert (js "Enter a URL")]))
  /\ (forall p' effects,
        trim (urlInput_value p) <> [] ->
        goBtn_click p = Some (p', effects) ->
        effects = []
        /\ p' = set_frame_src p (frame_src p')
        /\ embeddedTarget (frame_src p') = Some (trim (urlInput_value p)))
  /\ (forall p' effects,
        trim (urlInput_value p) <> [] ->
        openBtn_click p = Some (p', effects) ->
        exists link,
          embeddedTarget link = Some (trim (urlInput_value p))
          /\ ((displayMode_value p = js "newtab" /\ p' = p
               /\ effects = [WindowOpen link (js "_blank")])
              \/ (displayMode_value p <> js "newtab"
                  /\ p' = set_frame_src p link
                  /\ effects = [ScrollIntoView]))).
Proof.
  intros Hwf. apply (Forall_trim _ _) in Hwf.
  unfold goBtn_click, openBtn_click.
  destruct (trim (urlInput_value p)) as [|c s] eqn:Et.
  - split; [now split|]. split; intros p' effects Hne; congruence.
  - split; [discriminate|].
    destruct (buildProxyLink (c :: s) (trim (keyInput_value p))) as [link|] eqn:Hl;
      [|split; intros p' effects _; discriminate].
    pose proof (embeddedTarget_buildProxyLink _ _ _ Hl Hwf) as He.
    split.
    + intros p' effects _ [= <- <-]. repeat split. exact He.
    + intros p' effects _ H. exists link. split; [exact He|].
      destruct (str_eqb (displayMode_value p) (js "newtab")) eqn:Em;
        injection H as <- <-.
      * left. apply str_eqb_eq in Em. now repeat split.
      * right. repeat split. intros E. rewrite E, str_eqb_refl in Em. discriminate.
Qed.

Lemma clicks_load_the_trimmed_target_witness :
  let p := mkPage (js "  https://example.com/a b ") (js " s3cr3t ") (js "iframe")
                  [] in
  goBtn_click p
  = Some (set_frame_src p
            (js "/.netlify/functions/proxy?url=https%3A%2F%2Fexample.com%2Fa%20b&key=s3cr3t"),
          [])
  /\ embeddedTarget
       (js "/.netlify/functions/proxy?url=https%3A%2F%2Fexample.com%2Fa%20b&key=s3cr3t")
     = Some (js "https://example.com/a b").
Proof.
  split; [vm_compute; reflexivity|].
  refine (proj2 (proj2 (proj1 (proj2
            (clicks_load_the_trimmed_target
               (mkPage (js "  https://example.com/a b ") (js " s3cr3t ")
                       (js "iframe") []) _))
            (set_frame_src
               (mkPage (js "  https://example.com/a b ") (js " s3cr3t ")
                       (js "iframe") [])
               (js "/.netlify/functions/proxy?url=https%3A%2F%2Fexample.com%2Fa%20b&key=s3cr3t"))
            [] _ _))).
  - repeat constructor.
  - vm_compute. discriminate.
  - vm_compute. reflexivity.
Defined.

(* ================================================================= *)
(** ** The request that passes the guards *)

Section Allowed.
Context {U : UnicodeTables} {R : Runtime}.

(** X15.  A request that is not a preflight, names its target in the
    query, presents the proxy key if one is configured, and whose target
    is an absolute URL with a host that is not blocked, is forwarded: the
    upstream is asked for the target with the method, the headers and the
    body of the request, whatever the body is; the answer is the
    transformed response of the upstream, and a failure of the upstream
    or of the transformation is answered 500 with its message. *)
Theorem allowed_target_is_fetched (event : Event) (target : jsstring)
    (targetUrl : URLRecord) :
  httpMethod event <> Some (js "OPTIONS") ->
  getProp (js "url") (qs event) = Some target -> target <> [] ->
  (forall key, API_KEY = Some key ->
               headerKey event = key \/ qsKey event = key) ->
  URL_new target None = Some targetUrl ->
  isBlockedHost (Some (hostname targetUrl)) = false ->
  handler event
  = match fetch (mkFetchRequest target
                   (orDefault (httpMethod event) (js "GET"))
                   (incomingHeaders event) (forwardedBody event)) with
    | Ok res => match afterFetch target res with
                | Ok response => response
                | Throw err => proxyError err
                end
    | Throw err => proxyError err
    end.
Proof.
  intros Hm Hq Ht Hk Hu Hb.
  assert (Ho : match httpMethod event with
               | Some m => str_eqb m (js "OPTIONS")
               | None => false
               end = false).
  { destruct (httpMethod event) as [m|]; [|reflexivity].
    destruct (str_eqb m (js "OPTIONS")) eqn:E; [|reflexivity].
    apply str_eqb_eq in E. congruence. }
  assert (Hkey : match API_KEY with
                 | Some key => negb (str_eqb (headerKey event) key)
                               && negb (str_eqb (qsKey event) key)
                 | None => false
                 end = false).
  { destruct API_KEY as [key|]; [|reflexivity].
    destruct (Hk key eq_refl) as [<-|<-]; rewrite str_eqb_refl;
      [reflexivity|apply andb_false_r]. }
  destruct target as [|c s]; [congruence|].
  unfold handler, handlerBody, beforeFetch.
  rewrite Ho, Hq. cbn [truthy isNil negb toString]. rewrite Hkey, Hu, Hb.
  destruct (fetch _) as [res|err]; [|reflexivity].
  destruct (afterFetch (c :: s) res); reflexivity.
Qed.

End Allowed.

Lemma allowed_target_is_fetched_witness :
  let R := exampleRuntime (Some (js "s3cr3t")) sampleUpstream samplePage in
  let event :=
    mkEvent (Some (js "GET"))
            (Some [ (js "url", js "https://example.com/dir/");
                    (js "key", js "s3cr3t") ])
            None (Some (js "{not json")) false in
  exists res response,
    sampleUpstream (mkFetchRequest (js "https://example.com/dir/") (js "GET") []
                                   None) = Ok res
    /\ afterFetch (U := asciiOnly) (R := R) (js "https://example.com/dir/") res
       = Ok response
    /\ handler (U := asciiOnly) (R := R) event = response
    /\ statusCode response = 200.
Proof.
  cbv zeta.
  pose proof (allowed_target_is_fetched
                (U := asciiOnly)
                (R := exampleRuntime (Some (js "s3cr3t")) sampleUpstream samplePage)
                (mkEvent (Some (js "GET"))
                   (Some [ (js "url", js "https://example.com/dir/");
                           (js "key", js "s3cr3t") ])
                   None (Some (js "{not json")) false)
                (js "https://example.com/dir/")
                (match URL_new (U := asciiOnly) (js "https://example.com/dir/") None
                 with Some u => u | None => emptyURL end)) as H.
  eexists. eexists. split; [reflexivity|]. split; [vm_compute; reflexivity|].
  split; [|reflexivity].
  rewrite H; [vm_compute; reflexivity|discriminate|reflexivity|discriminate| |
              vm_compute; reflexivity|vm_compute; reflexivity].
  intros key Hkey. right. vm_compute in Hkey |- *. congruence.
Defined.

(* ================================================================= *)
(** ** The media type of a content type *)

Lemma dropWhile_all {A} (p : A -> bool) ws s :
  Forall (fun x => p x = true) ws -> dropWhile p (ws ++ s) = dropWhile p s.
Proof.
  induction 1 as [|x ws Hx Hws IH]; [reflexivity|].
  cbn [app dropWhile]. now rewrite Hx.
Qed.

Lemma dropWhileEnd_all {A} (p : A -> bool) s ws :
  Forall (fun x => p x = true) ws -> dropWhileEnd p (s ++ ws) = dropWhileEnd p s.
Proof.
  intros H. unfold dropWhileEnd. rewrite rev_app_distr.
  now rewrite dropWhile_all by now apply Forall_rev.
Qed.

(** White space around a string does not count for [trim]. *)
Lemma trim_around ws1 s ws2 :
  Forall (fun c => isWhiteSpace c = true) ws1 ->
  Forall (fun c => isWhiteSpace c = true) ws2 ->
  trim (ws1 ++ s ++ ws2) = trim s.
Proof.
  intros H1 H2. unfold trim. rewrite dropWhile_all by exact H1.
  induction s as [|x s IH]; cbn [app dropWhile].
  - rewrite <- (app_nil_r ws2), dropWhile_all by exact H2. reflexivity.
  - destruct (isWhiteSpace x); [exact IH|].
    change (x :: s ++ ws2) with ((x :: s) ++ ws2).
    now apply dropWhileEnd_all.
Qed.

Section MediaType.
Context {U : UnicodeTables}.

(** X16.  The classification of a content type looks at its media type
    only: the parameters after the first semicolon and the white space
    around the media type do not count. *)
Theorem isHtmlContentType_ignores_parameters
    (ws1 mediaType ws2 params : jsstring) :
  Forall (fun c => isWhiteSpace c = true) ws1 ->
  Forall (fun c => isWhiteSpace c = true) ws2 ->
  Forall (fun c => c <> ch ";") mediaType ->
  isHtmlContentType (Some (ws1 ++ mediaType ++ ws2 ++ ch ";" :: params))
  = isHtmlContentType (Some mediaType).
Proof.
  intros H1 H2 Hm.
  assert (Hws : forall ws, Forall (fun c => isWhiteSpace c = true) ws ->
                           Forall (fun c => c <> ch ";") ws).
  { intros ws. apply Forall_impl. intros c Hc ->. discriminate Hc. }
  assert (Hl : toLowerCase (trim (hd [] (split (ch ";")
                  (ws1 ++ mediaType ++ ws2 ++ ch ";" :: params))))
               = toLowerCase (trim mediaType)).
  { replace (ws1 ++ mediaType ++ ws2 ++ ch ";" :: params)
      with ((ws1 ++ mediaType ++ ws2) ++ ch ";" :: params)
      by now rewrite <- !app_assoc.
    rewrite split_first; [cbn [hd]; now rewrite trim_around|].
    apply Forall_app. split; [now apply Hws|].
    apply Forall_app. split; [exact Hm|now apply Hws]. }
  assert (Hr : isHtmlContentType (Some mediaType)
               = str_eqb (toLowerCase (trim mediaType)) (js "text/html")).
  { destruct mediaType as [|c s]; [reflexivity|].
    cbn [isHtmlContentType]. now rewrite split_absent. }
  rewrite Hr, <- Hl.
  destruct (ws1 ++ mediaType ++ ws2 ++ ch ";" :: params) as [|c s] eqn:E;
    [|reflexivity].
  destruct ws1; [destruct mediaType; [destruct ws2|]|]; discriminate E.
Qed.

End MediaType.

Lemma isHtmlContentType_ignores_parameters_witness :
  isHtmlContentType (U := asciiOnly)
    (Some (js " " ++ js "Text/HTML" ++ js " " ++ ch ";" :: js " charset=utf-8"))
  = isHtmlContentType (U := asciiOnly) (Some (js "Text/HTML"))
  /\ isHtmlContentType (U := asciiOnly) (Some (js "Text/HTML")) = true.
Proof.
  split; [|reflexivity].
  apply (isHtmlContentType_ignores_parameters (U := asciiOnly));
    repeat constructor; discriminate.
Defined.
